(** * HyperGraphStreamingCC: the connectivity engine of [src/graph.cpp]

    A shallow embedding of [Graph] (the facade, the disjoint-set forest and
    the Boruvka driver) together with the properties its specification
    states about them.

    Vertex ids ([node_id_t]) are natural numbers below [num_nodes]; the
    arrays [parent], [size], [supernodes], [query] and [to_merge] are lists
    indexed by vertex id.  The C++ code recurses and loops without a bound;
    the recursion of [get_parent] and the [do ... while (modified)] loop of
    the driver take a fuel argument here, and running out of fuel is a
    separate outcome that stands for a computation that does not finish. *)

From stdpp Require Import base option list gmap strings.
From Stdlib Require Import Lia ZArith.
From Stdlib.Strings Require Import Byte.

(** ** The disjoint-set forest ([parent], [get_parent]) *)

Module DSU.

(** [Graph::get_parent] without its write: follow [parent] up to a fixed
    point.  An index outside the array has no parent. *)
Fixpoint find (fuel : nat) (parent : list nat) (node : nat) : option nat :=
  match fuel with
  | 0 => None
  | S fuel' =>
      match parent !! node with
      | None => None
      | Some u => if decide (u = node) then Some node else find fuel' parent u
      end
  end.

(** [Graph::get_parent]:
<<
    if (parent[node] == node) return node;
    return parent[node] = get_parent(parent[node]);
>>
    The result is the root together with the array after path compression. *)
Fixpoint get_parent (fuel : nat) (parent : list nat) (node : nat)
  : option (nat * list nat) :=
  match fuel with
  | 0 => None
  | S fuel' =>
      match parent !! node with
      | None => None
      | Some u =>
          if decide (u = node) then Some (node, parent)
          else match get_parent fuel' parent u with
               | None => None
               | Some (r, parent') => Some (r, <[node := r]> parent')
               end
      end
  end.

(** [dist p v k r]: [r] is the root above [v], [k] parent links away. *)
Inductive dist (p : list nat) : nat → nat → nat → Prop :=
  | dist_root v : p !! v = Some v → dist p v 0 v
  | dist_step v u k r :
      p !! v = Some u → u ≠ v → dist p u k r → dist p v (S k) r.

Definition root_of (p : list nat) (v r : nat) : Prop := ∃ k, dist p v k r.

(** The forest invariant, as a check that runs: from every index the root
    is reached within [length p] links. *)
Definition dsu_wf (p : list nat) : bool :=
  forallb (λ v, bool_decide (is_Some (find (length p) p v))) (seq 0 (length p)).

(** The identity forest the constructors and the resumable query install. *)
Definition identity (n : nat) : list nat := seq 0 n.

(** Path compression and union on roots keep every root. *)
Definition roots_kept (p p' : list nat) : Prop :=
  length p' = length p ∧ ∀ w rw, root_of p w rw → root_of p' w rw.

End DSU.

(** ** Collaborators that [graph.cpp] only uses *)

(** [SampleSketchRet], the status half of what [Supernode::sample] returns. *)
Inductive SampleSketchRet := GOOD | ZERO | FAIL.

Definition Edge : Type := nat * nat.

(** The exception classes that [graph.cpp] and its tests name. *)
Inductive exn :=
  | MultipleGraphsException
  | UpdateLockedException
  | OutOfQueriesException
  | NoGoodBucketException.

#[global] Instance SampleSketchRet_eq_dec : EqDecision SampleSketchRet.
Proof. solve_decision. Defined.
#[global] Instance exn_eq_dec : EqDecision exn.
Proof. solve_decision. Defined.

(** The supernode interface of [supernode.h], which is not part of the
    sources at hand: [graph.cpp] reaches a supernode only through these
    calls.  A call that mutates its receiver returns the new receiver; a call
    that [graph.cpp] wraps in [try]/[catch] may also raise. *)
Class SupernodeOps := {
  Supernode : Type;
  Delta : Type;
  (** [Supernode::makeSupernode(n, seed)] *)
  sn_make : nat → Z → Supernode;
  (** [Supernode::makeSupernode(n, seed, binary_in)]: reads one record and
      leaves the rest of the stream. *)
  sn_read : nat → Z → list byte → Supernode * list byte;
  (** [Supernode::write_binary(binary_out)] *)
  sn_write : Supernode → list byte;
  (** [Supernode::sample()] *)
  sn_sample : Supernode → Supernode * (exn + Edge * SampleSketchRet);
  (** [a->merge(b)] *)
  sn_merge : Supernode → Supernode → Supernode * option exn;
  (** [Supernode::reset_query_state()] *)
  sn_reset_query_state : Supernode → Supernode;
  (** the public members [n] and [seed] *)
  sn_n : Supernode → nat;
  sn_seed : Supernode → Z;
  (** [Supernode::delta_supernode(n, seed, updates, delta_loc)] *)
  sn_delta : nat → Z → list Z → Delta;
  (** [Supernode::apply_delta_update(delta)] *)
  sn_apply_delta : Supernode → Delta → Supernode;
  (** [nondirectional_non_self_edge_pairing_fn] *)
  pairing_fn : nat → nat → Z;
  (** the default of the second argument of [Supernode::configure] *)
  default_failure_factor : Z;
}.

(** How a call of the facade ends. *)
Inductive outcome (A : Type) :=
  | Returned (a : A)
  | Threw (e : exn)
  | Exited       (* exit(EXIT_FAILURE) *)
  | Undefined    (* an index outside its array, or a parent cycle *)
  | OutOfFuel.   (* the model's bound on the driver loop was reached *)
Arguments Returned {A} a.
Arguments Threw {A} e.
Arguments Exited {A}.
Arguments Undefined {A}.
Arguments OutOfFuel {A}.

(** ** Little-endian integers of the binary graph format *)

Module Bin.

Definition byte_of_Z (z : Z) : byte :=
  default Byte.x00 (Byte.of_N (Z.to_N (z `mod` 256))).

Definition Z_of_byte (b : byte) : Z := Z.of_N (Byte.to_N b).

(** [binary_out.write((char* )&x, w)] on a little-endian machine. *)
Fixpoint encode_le (w : nat) (x : Z) : list byte :=
  match w with
  | 0 => []
  | S w' => byte_of_Z x :: encode_le w' (x `div` 256)
  end.

Fixpoint decode_le (bs : list byte) : Z :=
  match bs with
  | [] => 0
  | b :: bs' => Z_of_byte b + 256 * decode_le bs'
  end.

(** [binary_in.read((char* )&x, w)]: the value and the rest of the stream;
    a short stream leaves [x] without a defined value. *)
Definition read_le (w : nat) (bs : list byte) : option (Z * list byte) :=
  if decide (w ≤ length bs) then Some (decode_le (take w bs), drop w bs) else None.

End Bin.

(** ** The engine state *)

(** What lives outside a [Graph] object: the static [Graph::open_graph], the
    pause flag of the worker pool, the process-wide sketch failure factor,
    the files, and what [configure_system] reads. *)
Record World := mkWorld {
  open_graph : bool;
  workers_paused : bool;
  failure_factor : Z;
  files : gmap string (list byte);
  read_only : bool;          (* opening a file for writing fails *)
  conf_copy_in_mem : bool;   (* std::get<1>(configure_system()) *)
  conf_disk_loc : string;    (* std::get<2>(configure_system()) *)
}.

Definition set_open_graph (b : bool) (w : World) : World :=
  mkWorld b (workers_paused w) (failure_factor w) (files w) (read_only w)
          (conf_copy_in_mem w) (conf_disk_loc w).
Definition set_workers_paused (b : bool) (w : World) : World :=
  mkWorld (open_graph w) b (failure_factor w) (files w) (read_only w)
          (conf_copy_in_mem w) (conf_disk_loc w).
Definition set_failure_factor (f : Z) (w : World) : World :=
  mkWorld (open_graph w) (workers_paused w) f (files w) (read_only w)
          (conf_copy_in_mem w) (conf_disk_loc w).
Definition set_files (fs : gmap string (list byte)) (w : World) : World :=
  mkWorld (open_graph w) (workers_paused w) (failure_factor w) fs (read_only w)
          (conf_copy_in_mem w) (conf_disk_loc w).

(** [std::fstream(path, out | binary)], the writes, [close()]: the file is
    replaced unless it cannot be opened. *)
Definition write_file (path : string) (bs : list byte) (w : World) : World :=
  if read_only w then w else set_files (<[path := bs]> (files w)) w.

(** A list of sets is a partition of [[0, n)]: every vertex below [n] is in
    a set, the sets hold nothing else, and a vertex is in one set only. *)
Definition is_partition (n : nat) (sets : list (gset nat)) : Prop :=
  (∀ v, v < n → ∃ j S, sets !! j = Some S ∧ v ∈ S)
  ∧ (∀ j S v, sets !! j = Some S → v ∈ S → v < n)
  ∧ (∀ j1 j2 S1 S2 v, sets !! j1 = Some S1 → sets !! j2 = Some S2 →
                      v ∈ S1 → v ∈ S2 → j1 = j2).

(** Every set is the class of one root of the forest [p]. *)
Definition grouped_by_root (n : nat) (p : list nat) (sets : list (gset nat))
  : Prop :=
  ∀ j S, sets !! j = Some S →
         ∃ r, r ∈ S ∧ ∀ v, v ∈ S ↔ v < n ∧ DSU.root_of p v r.

Section engine.
Context `{ops : SupernodeOps}.

(** The data members of [Graph] that [graph.cpp] touches.  [num_updates]
    only feeds a [printf] and is left out, as are the timestamps. *)
Record Graph := mkGraph {
  num_nodes : nat;
  seed : Z;
  supernodes : list Supernode;
  parent : list nat;
  size : list nat;
  update_locked : bool;
  modified : bool;
  copy_in_mem : bool;
  backup_file : string;
}.

Definition set_supernodes (x : list Supernode) (g : Graph) : Graph :=
  mkGraph (num_nodes g) (seed g) x (parent g) (size g) (update_locked g)
          (modified g) (copy_in_mem g) (backup_file g).
Definition set_parent (x : list nat) (g : Graph) : Graph :=
  mkGraph (num_nodes g) (seed g) (supernodes g) x (size g) (update_locked g)
          (modified g) (copy_in_mem g) (backup_file g).
Definition set_size (x : list nat) (g : Graph) : Graph :=
  mkGraph (num_nodes g) (seed g) (supernodes g) (parent g) x (update_locked g)
          (modified g) (copy_in_mem g) (backup_file g).
Definition set_update_locked (x : bool) (g : Graph) : Graph :=
  mkGraph (num_nodes g) (seed g) (supernodes g) (parent g) (size g) x
          (modified g) (copy_in_mem g) (backup_file g).
Definition set_modified (x : bool) (g : Graph) : Graph :=
  mkGraph (num_nodes g) (seed g) (supernodes g) (parent g) (size g)
          (update_locked g) x (copy_in_mem g) (backup_file g).

(** The arrays have [num_nodes] slots and [parent] is a forest. *)
Definition graph_wf (g : Graph) : Prop :=
  length (supernodes g) = num_nodes g
  ∧ length (parent g) = num_nodes g
  ∧ length (size g) = num_nodes g
  ∧ DSU.dsu_wf (parent g) = true.

(** *** Ingest: [generate_delta_node] and [batch_update] *)

Definition generate_delta_node (node_n : nat) (node_seed : Z) (src : nat)
    (edges : list nat) : Delta :=
  sn_delta node_n node_seed
    (map (λ edge, if decide (src < edge) then pairing_fn src edge
                  else pairing_fn edge src) edges).

Definition batch_update (src : nat) (edges : list nat) (g : Graph)
  : Graph * outcome unit :=
  if update_locked g then (g, Threw UpdateLockedException)
  else
    match supernodes g !! src with
    | None => (g, Undefined)
    | Some s =>
        let d := generate_delta_node (sn_n s) (sn_seed s) src edges in
        (set_supernodes (<[src := sn_apply_delta s d]> (supernodes g)) g,
         Returned ())
    end.

(** *** [sample_supernodes]

    The loop body is a [try]/[catch] of its own, so every representative is
    sampled; [err] keeps the exception of the last iteration that raised
    (the iterations are taken in index order here; they write distinct
    slots of [supernodes] and [query]).  In the source the iterations run
    in an OpenMP parallel loop and write the shared [err] without
    synchronisation: the supernodes, the samples and whether an exception
    is rethrown are the same in every schedule, but which of several raised
    exceptions is rethrown depends on the timing there. *)
Definition query_t : Type := Edge * SampleSketchRet.

Definition sample_one (acc : list Supernode * list query_t * option exn)
    (r : nat) : list Supernode * list query_t * option exn :=
  let '(sns, query, err) := acc in
  match sns !! r with
  | None => acc
  | Some s =>
      match sn_sample s with
      | (s', inl e) => (<[r := s']> sns, query, Some e)
      | (s', inr q) => (<[r := s']> sns, <[r := q]> query, err)
      end
  end.

Definition sample_supernodes (sns : list Supernode) (query : list query_t)
    (reps : list nat) : list Supernode * list query_t * option exn :=
  foldl sample_one (sns, query, None) reps.

(** *** [supernodes_to_merge] *)

Record plan := mkPlan {
  pl_parent : list nat;
  pl_size : list nat;
  pl_modified : bool;
  pl_to_merge : list (list nat);
  pl_new_reps : list nat;
}.

(** [query[i]]; the slot of a representative was written by this round's
    [sample_supernodes]. *)
Definition query_at (query : list query_t) (i : nat) : query_t :=
  default ((0, 0), ZERO) (query !! i).

Definition at_ {A} (d : A) (l : list A) (i : nat) : A := default d (l !! i).

(** The union of two distinct roots [a] (of [edge.first]) and [b] (of
    [edge.second]): lines 176-185. *)
Definition union_roots (a b : nat) (st : plan) : plan :=
  let '(a, b) := if decide (at_ 0 (pl_size st) a < at_ 0 (pl_size st) b)
                 then (b, a) else (a, b) in
  let parent' := <[b := a]> (pl_parent st) in
  let size' := <[a := at_ 0 (pl_size st) a + at_ 0 (pl_size st) b]> (pl_size st) in
  let tm := pl_to_merge st in
  let tm1 := <[a := at_ [] tm a ++ [b]]> tm in
  let tm2 := <[a := at_ [] tm1 a ++ at_ [] tm1 b]> tm1 in
  let tm3 := <[b := []]> tm2 in
  mkPlan parent' size' true tm3 (pl_new_reps st).

(** One iteration of the loop over [reps]: lines 149-186. *)
Definition plan_step (query : list query_t) (st : plan) (i : nat)
  : option plan :=
  let '(edge, ret_code) := query_at query i in
  match ret_code with
  | FAIL =>
      Some (mkPlan (pl_parent st) (pl_size st) true (pl_to_merge st)
                   (pl_new_reps st ++ [i]))
  | ZERO => Some st
  | GOOD =>
      '(a, p1) ← DSU.get_parent (length (pl_parent st)) (pl_parent st) edge.1;
      '(b, p2) ← DSU.get_parent (length p1) p1 edge.2;
      let st' := mkPlan p2 (pl_size st) (pl_modified st) (pl_to_merge st)
                        (pl_new_reps st) in
      if decide (a = b) then Some st' else Some (union_roots a b st')
  end.

Fixpoint plan_loop (query : list query_t) (st : plan) (reps : list nat)
  : option plan :=
  match reps with
  | [] => Some st
  | i :: reps' => st' ← plan_step query st i; plan_loop query st' reps'
  end.

Definition nonempty {A} (l : list A) : bool :=
  match l with [] => false | _ => true end.

(** Lines 188-199: the retries whose [to_merge] slot is empty, then every
    vertex whose slot is not. *)
Definition next_reps (n : nat) (to_merge : list (list nat))
    (new_reps : list nat) : list nat :=
  filter (λ a, nonempty (at_ [] to_merge a) = false) new_reps
  ++ filter (λ a, nonempty (at_ [] to_merge a) = true) (seq 0 n).

(** The result: the graph with the new [parent], [size] and [modified],
    the new [reps] and [to_merge]. *)
Definition supernodes_to_merge (query : list query_t) (reps : list nat)
    (g : Graph) : option (Graph * list nat * list (list nat)) :=
  st ← plan_loop query
         (mkPlan (parent g) (size g) (modified g)
                 (replicate (num_nodes g) []) []) reps;
  Some (set_modified (pl_modified st)
          (set_size (pl_size st) (set_parent (pl_parent st) g)),
        next_reps (num_nodes g) (pl_to_merge st) (pl_new_reps st),
        pl_to_merge st).

(** What the loop over [reps] maintains: the array lengths, the forest,
    and that a vertex with pending merges is a root. *)
Record plan_inv (n : nat) (st : plan) : Prop := mkPlanInv {
  pi_parent_len : length (pl_parent st) = n;
  pi_wf : DSU.dsu_wf (pl_parent st) = true;
  pi_size_len : length (pl_size st) = n;
  pi_tm_len : length (pl_to_merge st) = n;
  pi_target_root : ∀ a, at_ [] (pl_to_merge st) a ≠ [] →
                        pl_parent st !! a = Some a;
}.

(** *** [merge_supernodes] *)

(** The inner loop [for (node_id_t b : to_merge[a])]; an exception leaves
    it at once.  Ids outside the array do not occur ([reps] and [to_merge]
    hold vertex ids) and leave the array as it is. *)
Fixpoint merge_into (sns : list Supernode) (a : nat) (bs : list nat)
  : list Supernode * option exn :=
  match bs with
  | [] => (sns, None)
  | b :: bs' =>
      match sns !! a, sns !! b with
      | Some sa, Some sb =>
          match sn_merge sa sb with
          | (sa', Some e) => (<[a := sa']> sns, Some e)
          | (sa', None) => merge_into (<[a := sa']> sns) a bs'
          end
      | _, _ => (sns, None)
      end
  end.

(** One iteration of the outer loop.  [copy_supernodes[a]] receives a
    clone, which in this value model is the supernode itself.  As in
    [sample_supernodes], the source runs the iterations in parallel, and
    which of several raised exceptions [err] holds in the end depends on
    the timing there; here it is the last one in the order of the list. *)
Definition merge_one (copying : bool) (to_merge : list (list nat))
    (acc : list Supernode * list (option Supernode) * option exn) (a : nat)
  : list Supernode * list (option Supernode) * option exn :=
  let '(sns, copies, err) := acc in
  let copies' := if copying then <[a := sns !! a]> copies else copies in
  match merge_into sns a (at_ [] to_merge a) with
  | (sns', Some e) => (sns', copies', Some e)
  | (sns', None) => (sns', copies', err)
  end.

Definition merge_supernodes (copies : list (option Supernode))
    (new_reps : list nat) (to_merge : list (list nat)) (make_copy : bool)
    (g : Graph) : list Supernode * list (option Supernode) * option exn :=
  foldl (merge_one (make_copy && copy_in_mem g) to_merge)
        (supernodes g, copies, None) new_reps.

(** *** [backup_to_disk] and [restore_from_disk]

    [None] is [exit(EXIT_FAILURE)]. *)
Definition backup_to_disk (ids_to_backup : list nat) (w : World) (g : Graph)
  : option World :=
  if read_only w then None
  else Some (set_files
               (<[backup_file g :=
                    concat (map sn_write
                              (omap (λ idx, supernodes g !! idx) ids_to_backup))]>
                  (files w)) w).

Definition restore_one (n : nat) (sd : Z)
    (acc : list Supernode * list byte) (idx : nat)
  : list Supernode * list byte :=
  let '(s, rest) := sn_read n sd acc.2 in (<[idx := s]> acc.1, rest).

Definition restore_from_disk (ids_to_restore : list nat) (w : World)
    (g : Graph) : option Graph :=
  match files w !! backup_file g with
  | None => None
  | Some bs =>
      Some (set_supernodes
              (foldl (restore_one (num_nodes g) (seed g)) (supernodes g, bs)
                     ids_to_restore).1 g)
  end.

(** *** [boruvka_emulation] *)

(** The locals of [boruvka_emulation] that outlive a round. *)
Record driver := mkDriver {
  dr_reps : list nat;
  dr_query : list query_t;
  dr_backed_up : list nat;
  dr_copy : list (option Supernode);
  dr_first_round : bool;
}.

(** The lambda [cleanup_copy].  Every id in [backed_up] has its clone in
    [copy_supernodes] (see [loop_copies]); a slot without one leaves the
    working supernode in place. *)
Definition restore_copy (copies : list (option Supernode))
    (sns : list Supernode) (i : nat) : list Supernode :=
  match copies !! i with
  | Some (Some c) => <[i := c]> sns
  | _ => sns
  end.

Definition cleanup_copy (make_copy : bool) (w : World) (g : Graph)
    (d : driver) : option Graph :=
  if make_copy then
    if copy_in_mem g then
      Some (set_supernodes
              (foldl (restore_copy (dr_copy d)) (supernodes g) (dr_backed_up d)) g)
    else restore_from_disk (dr_backed_up d) w g
  else Some g.

(** One pass through the body of the [do ... while (modified)] loop;
    [Returned b] carries the value of [modified] at the loop test. *)
Definition boruvka_round (make_copy : bool)
    (w : World) (g : Graph) (d : driver)
  : World * Graph * driver * outcome bool :=
  let g := set_modified false g in
  let '(sns, query, err) :=
    sample_supernodes (supernodes g) (dr_query d) (dr_reps d) in
  let g := set_supernodes sns g in
  let d := mkDriver (dr_reps d) query (dr_backed_up d) (dr_copy d)
                    (dr_first_round d) in
  match err with
  | Some e => (w, g, d, Threw e)
  | None =>
      match supernodes_to_merge query (dr_reps d) g with
      | None => (w, g, d, Undefined)
      | Some (g, reps, to_merge) =>
          let backing := make_copy && dr_first_round d in
          let d := mkDriver reps query
                     (if backing then reps else dr_backed_up d)
                     (dr_copy d) (dr_first_round d) in
          let w' := if backing && negb (copy_in_mem g)
                    then backup_to_disk (dr_backed_up d) w g
                    else Some w in
          match w' with
          | None => (w, g, d, Exited)
          | Some w =>
              let '(sns, copies, err) :=
                merge_supernodes (dr_copy d) reps to_merge
                                 (dr_first_round d && make_copy) g in
              let g := set_supernodes sns g in
              let d := mkDriver reps query (dr_backed_up d) copies
                                (dr_first_round d) in
              match err with
              | Some e => (w, g, d, Threw e)
              | None =>
                  (w, g, mkDriver reps query (dr_backed_up d) copies false,
                   Returned (modified g))
              end
          end
      end
  end.

(** The loop inside the [try] block. *)
Fixpoint boruvka_loop (fuel : nat) (make_copy : bool)
    (w : World) (g : Graph) (d : driver)
  : World * Graph * driver * outcome unit :=
  match fuel with
  | 0 => (w, g, d, OutOfFuel)
  | S fuel' =>
      match boruvka_round make_copy w g d with
      | (w, g, d, Returned true) => boruvka_loop fuel' make_copy w g d
      | (w, g, d, Returned false) => (w, g, d, Returned ())
      | (w, g, d, Threw e) => (w, g, d, Threw e)
      | (w, g, d, Exited) => (w, g, d, Exited)
      | (w, g, d, Undefined) => (w, g, d, Undefined)
      | (w, g, d, OutOfFuel) => (w, g, d, OutOfFuel)
      end
  end.

(** Lines 289-295: [temp[get_parent(i)].insert(i)] for every vertex, then
    the sets in the order of their keys.  The keys are roots, hence ids
    below [n], so ascending key order is the order of [seq 0 n]. *)
Definition group_step (acc : option (list nat * gmap nat (gset nat)))
    (i : nat) : option (list nat * gmap nat (gset nat)) :=
  '(p, temp) ← acc;
  '(r, p') ← DSU.get_parent (length p) p i;
  Some (p', <[r := {[i]} ∪ default ∅ (temp !! r)]> temp).

Definition components (n : nat) (p : list nat)
  : option (list nat * list (gset nat)) :=
  '(p', temp) ← foldl group_step (Some (p, ∅)) (seq 0 n);
  Some (p', omap (λ r, temp !! r) (seq 0 n)).

Definition init_driver (make_copy : bool) (g : Graph) : driver :=
  mkDriver (seq 0 (num_nodes g))
           (replicate (num_nodes g) ((0, 0), ZERO))
           []
           (if make_copy && copy_in_mem g
            then replicate (num_nodes g) None else [])
           true.

(** Lines 284-300: what follows the loop, on the path that leaves the
    [try] block normally and on the path through [catch]. *)
Definition finish_query (make_copy : bool)
    (res : World * Graph * driver * outcome unit)
  : World * Graph * driver * outcome (list (gset nat)) :=
  match res with
  | (w, g, d, Returned _) =>
      match components (num_nodes g) (parent g) with
      | None => (w, g, d, Undefined)
      | Some (p', retval) =>
          let g := set_parent p' g in
          match cleanup_copy make_copy w g d with
          | None => (w, g, d, Exited)
          | Some g => (w, g, d, Returned retval)
          end
      end
  | (w, g, d, Threw e) =>
      match cleanup_copy make_copy w g d with
      | None => (w, g, d, Exited)
      | Some g => (w, g, d, Threw e)
      end
  | (w, g, d, Exited) => (w, g, d, Exited)
  | (w, g, d, Undefined) => (w, g, d, Undefined)
  | (w, g, d, OutOfFuel) => (w, g, d, OutOfFuel)
  end.

Definition boruvka_emulation (fuel : nat) (make_copy : bool)
    (w : World) (g : Graph)
  : World * Graph * driver * outcome (list (gset nat)) :=
  let g := set_update_locked true g in
  let d := init_driver make_copy g in
  let g := set_size (replicate (num_nodes g) 1) g in
  finish_query make_copy (boruvka_loop fuel make_copy w g d).

(** What round one of a query on [g] produces before it merges: the
    supernodes as sampled and the representative list as planned; [None]
    when sampling raises or the planning pass is undefined. *)
Definition first_round_plan (g : Graph) : option (list Supernode * list nat) :=
  match sample_supernodes (supernodes g)
          (replicate (num_nodes g) ((0, 0), ZERO)) (seq 0 (num_nodes g)) with
  | (sns, query, None) =>
      match supernodes_to_merge query (seq 0 (num_nodes g))
              (set_supernodes sns
                 (set_modified false
                    (set_size (replicate (num_nodes g) 1)
                       (set_update_locked true g)))) with
      | Some (_, reps, _) => Some (sns, reps)
      | None => None
      end
  | _ => None
  end.

Definition snapshot_ids (g : Graph) : list nat :=
  match first_round_plan g with Some (_, reps) => reps | None => [] end.

(** The work that the sampling rounds can still do, for a measure [left]
    of one supernode. *)
Definition work_left (left : Supernode → nat) (sns : list Supernode) : nat :=
  sum_list (left <$> sns).

(** *** [connected_components] *)

(** Lines 354-358 for one [i]. *)
Definition reset_one (g : Graph) (i : nat) : Graph :=
  set_size (<[i := 1]> (size g))
    (set_parent (<[i := i]> (parent g))
       (set_supernodes (alter sn_reset_query_state i (supernodes g)) g)).

(** [gts->force_flush(); GraphWorker::pause_workers();]: the graph is the
    one in which every buffered batch has been applied. *)
Definition drain (w : World) : World := set_workers_paused true w.

Definition connected_components (fuel : nat) (cont : bool)
    (w : World) (g : Graph)
  : World * Graph * outcome (list (gset nat)) :=
  let w := drain w in
  if negb cont then
    let '(w, g, _, r) := boruvka_emulation fuel false w g in (w, g, r)
  else
    let '(w, g, _, r) := boruvka_emulation fuel true w g in
    let resume (r : outcome (list (gset nat))) :=
      (set_workers_paused false w,
       set_update_locked false (foldl reset_one g (seq 0 (num_nodes g))),
       r) in
    match r with
    | Returned ret => resume (Returned ret)
    | Threw e => resume (Threw e)
    | _ => (w, g, r)
    end.

(** A query that no number of rounds completes. *)
Definition never_returns (cont : bool) (w : World) (g : Graph) : Prop :=
  ∀ fuel, (connected_components fuel cont w g).2 = OutOfFuel.

(** The state of the loop after [k] rounds, the results of the rounds
    aside. *)
Definition next_round (make_copy : bool) (s : World * Graph * driver)
  : World * Graph * driver :=
  (boruvka_round make_copy s.1.1 s.1.2 s.2).1.

Definition after_rounds (make_copy : bool) (k : nat)
    (s : World * Graph * driver) : World * Graph * driver :=
  Nat.iter k (next_round make_copy) s.

(** *** The binary graph format: [write_binary] and the loading
    constructor

    [node_id_t] and [vec_t] are declared outside [graph.cpp]; their widths
    in bytes are parameters. *)
Variables node_bytes vec_bytes : nat.

Definition graph_bytes (w : World) (g : Graph) : list byte :=
  Bin.encode_le 8 (seed g)
  ++ Bin.encode_le node_bytes (Z.of_nat (num_nodes g))
  ++ Bin.encode_le vec_bytes (failure_factor w)
  ++ concat (map sn_write (take (num_nodes g) (supernodes g))).

Definition write_binary (filename : string) (w : World) (g : Graph) : World :=
  let w := drain w in
  write_file filename (graph_bytes w g) w.

(** The loop of lines 70-74 on the input stream. *)
Fixpoint read_supernodes (n : nat) (sd : Z) (count : nat) (bs : list byte)
  : list Supernode :=
  match count with
  | 0 => []
  | S count' =>
      let '(s, rest) := sn_read n sd bs in
      s :: read_supernodes n sd count' rest
  end.

Definition backup_path (w : World) : string :=
  (conf_disk_loc w +:+ "supernode_backup.data")%string.

(** [Graph::Graph(const std::string& input_file, int num_inserters)].
    [update_locked] and [modified] start as [false]; a missing or short
    file leaves [seed] or [num_nodes] without a defined value. *)
Definition load_binary (input_file : string) (w : World)
  : World * outcome Graph :=
  if open_graph w then (w, Threw MultipleGraphsException)
  else
    match files w !! input_file with
    | None => (w, Undefined)
    | Some bs =>
        match Bin.read_le 8 bs with
        | None => (w, Undefined)
        | Some (sd, bs1) =>
            match Bin.read_le node_bytes bs1 with
            | None => (w, Undefined)
            | Some (n, bs2) =>
                match Bin.read_le vec_bytes bs2 with
                | None => (w, Undefined)
                | Some (ff, bs3) =>
                    let n := Z.to_nat n in
                    let w := set_failure_factor ff w in
                    let g := mkGraph n sd (read_supernodes n sd n bs3)
                               (DSU.identity n) (replicate n 1) false false
                               (conf_copy_in_mem w) (backup_path w) in
                    (set_open_graph true (set_workers_paused false w),
                     Returned g)
                end
            end
        end
    end.

(** [Graph::Graph(node_id_t num_nodes, int num_inserters)]; [sd] is the
    seed drawn from the clock. *)
Definition new_graph (n : nat) (sd : Z) (w : World) : World * outcome Graph :=
  if open_graph w then (w, Threw MultipleGraphsException)
  else
    let g := mkGraph n sd (replicate n (sn_make n sd))
               (DSU.identity n) (replicate n 1) false false
               (conf_copy_in_mem w) (backup_path w) in
    (set_open_graph true
       (set_workers_paused false
          (set_failure_factor default_failure_factor w)), Returned g).

(** [Graph::~Graph()] *)
Definition destroy (w : World) : World := set_open_graph false w.

(** *** Sequences of calls on one graph *)

Inductive call :=
  | BatchUpdate (src : nat) (edges : list nat)
  | Query (fuel : nat) (cont : bool)
  | WriteBinary (filename : string).

Definition run_call (wg : World * Graph) (c : call) : World * Graph :=
  match c with
  | BatchUpdate src edges => (wg.1, (batch_update src edges wg.2).1)
  | Query fuel cont =>
      let '(w, g, _) := connected_components fuel cont wg.1 wg.2 in (w, g)
  | WriteBinary filename => (write_binary filename wg.1 wg.2, wg.2)
  end.

Definition resumable_query (c : call) : bool :=
  match c with Query _ true => true | _ => false end.

End engine.

(** ** A supernode to run the engine with *)

Module Sketches.

(** What one sketch level makes of the vector it summarises. *)
Inductive level_kind := Conclusive | Inconclusive | Broken.

(** The parts of the sketch primitive that the specification leaves open:
    how many levels a supernode over [n] vertices has, what the hashes of a
    level make of a vector, and what [sample] does once the levels are used
    up. *)
Record params := mkParams {
  levels : nat → nat;
  quality : Z → nat → list Z → level_kind;
  exhausted : exn + Edge * SampleSketchRet;
}.

(** Modelled from the spec: [Supernode] and [Sketch] ([supernode.h],
    [sketch.h]) are not among the sources.  Section 3 of the specification
    describes a supernode as a bank of [K] sketches of one vertex's
    edge-incidence vector over GF(2), with a cursor [level] in [[0, K]] that
    every [sample] advances by one; a sample is a nonzero coordinate, [ZERO]
    for the zero vector, or [FAIL]; merging adds the vectors;
    [reset_query_state] rewinds the cursor; a record holds the sketches and
    not the cursor.  The vector is kept exactly, as the list of its nonzero
    coordinates. *)
Record supernode := mkSn {
  s_n : nat;
  s_seed : Z;
  s_vec : list Z;
  s_level : nat;
}.

(** [pair(min(u,v), max(u,v))] for [u < v], and its inverse. *)
Definition pair_index (u v : nat) : Z := Z.of_nat (u + v * (v - 1) / 2).

Fixpoint unpair_from (fuel v idx : nat) : Edge :=
  match fuel with
  | 0 => (idx, v)
  | S fuel' => if decide (idx < v) then (idx, v)
               else unpair_from fuel' (S v) (idx - v)
  end.

Definition unpair (idx : Z) : Edge := unpair_from (Z.to_nat idx) 1 (Z.to_nat idx).

(** Adding a unit vector over GF(2). *)
Definition toggle (x : Z) (vec : list Z) : list Z :=
  if decide (x ∈ vec) then filter (λ y, y ≠ x) vec else vec ++ [x].

Definition add_vec (vec other : list Z) : list Z := foldl (λ acc x, toggle x acc) vec other.

Section ops.
Variable P : params.

(** Modelled from the spec: [Supernode::sample] queries the sketch at the
    cursor and advances the cursor; the zero vector gives [ZERO], an
    inconclusive level [FAIL], a conclusive one a nonzero coordinate (here
    the first of the list); a level without a good bucket raises. *)
Definition sample (s : supernode)
  : supernode * (exn + Edge * SampleSketchRet) :=
  if decide (levels P (s_n s) ≤ s_level s) then (s, exhausted P)
  else
    let s' := mkSn (s_n s) (s_seed s) (s_vec s) (S (s_level s)) in
    match s_vec s with
    | [] => (s', inr ((0, 0), ZERO))
    | idx :: _ =>
        match quality P (s_seed s) (s_level s) (s_vec s) with
        | Conclusive => (s', inr (unpair idx, GOOD))
        | Inconclusive => (s', inr ((0, 0), FAIL))
        | Broken => (s', inl NoGoodBucketException)
        end
    end.

(** Modelled from the spec: [Supernode::merge] adds the other vector; the
    cursor does not go back. *)
Definition merge (a b : supernode) : supernode * option exn :=
  (mkSn (s_n a) (s_seed a) (add_vec (s_vec a) (s_vec b))
        (s_level a `max` s_level b), None).

Definition reset_query_state (s : supernode) : supernode :=
  mkSn (s_n s) (s_seed s) (s_vec s) 0.

(** Modelled from the spec: a supernode record is the record of its
    sketches, here the number of nonzero coordinates and the coordinates, 8
    bytes each; the cursor is not part of it. *)
Definition write (s : supernode) : list byte :=
  Bin.encode_le 8 (Z.of_nat (length (s_vec s)))
  ++ flat_map (Bin.encode_le 8) (s_vec s).

Fixpoint read_vec (count : nat) (bs : list byte) : list Z * list byte :=
  match count with
  | 0 => ([], bs)
  | S count' =>
      let '(v, rest) := read_vec count' (drop 8 bs) in
      (Bin.decode_le (take 8 bs) :: v, rest)
  end.

Definition read (n : nat) (sd : Z) (bs : list byte) : supernode * list byte :=
  let '(v, rest) :=
    read_vec (Z.to_nat (Bin.decode_le (take 8 bs))) (drop 8 bs) in
  (mkSn n sd v 0, rest).

#[export] Instance ops : SupernodeOps := {|
  Supernode := supernode;
  Delta := list Z;
  sn_make n sd := mkSn n sd [] 0;
  sn_read := read;
  sn_write := write;
  sn_sample := sample;
  sn_merge := merge;
  sn_reset_query_state := reset_query_state;
  sn_n := s_n;
  sn_seed := s_seed;
  sn_delta _ _ updates := updates;
  sn_apply_delta s d := mkSn (s_n s) (s_seed s) (add_vec (s_vec s) d) (s_level s);
  pairing_fn := pair_index;
  default_failure_factor := 100;
|}.
End ops.

(** Sketches that never fail, [ceil(log2 n) + 2] of them. *)
Definition ideal : params :=
  mkParams (λ n, Nat.log2_up n + 2) (λ _ _ _, Conclusive) (inr ((0, 0), FAIL)).

(** Sketches in which every level raises on a nonzero vector. *)
Definition broken : params :=
  mkParams (λ n, Nat.log2_up n + 2) (λ _ _ _, Broken) (inr ((0, 0), FAIL)).

(** Sketches that are inconclusive at every level, and [FAIL] for good once
    the levels are used up, as the data model of the specification has
    it. *)
Definition failing : params :=
  mkParams (λ n, Nat.log2_up n + 2) (λ _ _ _, Inconclusive)
           (inr ((0, 0), FAIL)).

(** Sketches that never fail, in a supernode whose [sample] raises
    [OutOfQueriesException] once the levels are used up. *)
Definition strict : params :=
  mkParams (λ n, Nat.log2_up n + 2) (λ _ _ _, Conclusive)
           (inl OutOfQueriesException).

(** The sketch levels that a supernode has not sampled yet. *)
Definition levels_left (P : params) (s : supernode) : nat :=
  levels P (s_n s) - s_level s.

(** Sketches whose first level is inconclusive on vectors with exactly two
    nonzero coordinates. *)
Definition flaky : params :=
  mkParams (λ n, Nat.log2_up n + 2)
           (λ _ lvl vec, if decide (lvl = 0 ∧ length vec = 2)
                         then Inconclusive else Conclusive)
           (inr ((0, 0), FAIL)).

(** Sketches whose first level never fails and whose later levels raise on
    a nonzero vector. *)
Definition late_broken : params :=
  mkParams (λ n, Nat.log2_up n + 2)
           (λ _ lvl _, if decide (lvl = 0) then Conclusive else Broken)
           (inr ((0, 0), FAIL)).

End Sketches.

(** ** Engines to run *)

Module Demo.
Import Sketches.

(** A process without an open graph, with in-memory snapshots. *)
Definition world : World := mkWorld false false 0 ∅ false true "/tmp/".

(** The same with snapshots on disk. *)
Definition disk_world : World := mkWorld false false 0 ∅ false false "/tmp/".

(** The engine after [new_graph n sd] and the drained batches [batches]. *)
Definition build (P : params) (n : nat) (sd : Z) (w : World)
    (batches : list (nat * list nat)) : World * Graph (ops := ops P) :=
  let g0 := mkGraph (ops := ops P) n sd (replicate n (mkSn n sd [] 0))
              (DSU.identity n) (replicate n 1) false false
              (conf_copy_in_mem w) (backup_path w) in
  match new_graph (ops := ops P) n sd w with
  | (w', Returned g) =>
      (w', foldl (λ g b, (batch_update (ops := ops P) b.1 b.2 g).1) g batches)
  | (w', _) => (w', g0)
  end.

(** Scenario 3 of the specification: [N = 4] and the edges [(0,1)],
    [(2,3)], [(1,2)], each applied at both endpoints. *)
Definition path4 : World * Graph (ops := ops ideal) :=
  build ideal 4 7 world [(0, [1]); (1, [0]); (2, [3]); (3, [2]); (1, [2]); (2, [1])].

(** The same with the snapshot on disk. *)
Definition path4_disk : World * Graph (ops := ops ideal) :=
  build ideal 4 7 disk_world
        [(0, [1]); (1, [0]); (2, [3]); (3, [2]); (1, [2]); (2, [1])].

(** Scenario 4 of the specification: the same stream followed by the
    deletion of [(1,2)]. *)
Definition split4 : World * Graph (ops := ops ideal) :=
  build ideal 4 7 world
        [(0, [1]); (1, [0]); (2, [3]); (3, [2]); (1, [2]); (2, [1]);
         (1, [2]); (2, [1])].

(** [N = 5] and the edges [(0,1)], [(3,4)], [(0,3)], [(2,4)]. *)
Definition cross5 : World * Graph (ops := ops ideal) :=
  build ideal 5 7 world
        [(0, [1]); (1, [0]); (3, [4]); (4, [3]);
         (0, [3]); (3, [0]); (2, [4]); (4, [2])].

(** [N = 3] and the edges [(0,1)], [(1,2)], on sketches that fail once for
    the middle vertex. *)
Definition path3_flaky : World * Graph (ops := ops flaky) :=
  build flaky 3 7 world [(0, [1]); (1, [0]); (1, [2]); (2, [1])].

(** [N = 2] and the edge [(0,1)], on sketches that stay inconclusive. *)
Definition edge2_failing : World * Graph (ops := ops failing) :=
  build failing 2 7 world [(0, [1]); (1, [0])].

(** The path [0 - 1 - 2 - 3] on supernodes that raise when exhausted. *)
Definition path4_strict : World * Graph (ops := ops strict) :=
  build strict 4 7 world
        [(0, [1]); (1, [0]); (2, [3]); (3, [2]); (1, [2]); (2, [1])].

(** [N = 2] and the edge [(0,1)], on sketches that raise. *)
Definition edge2_broken : World * Graph (ops := ops broken) :=
  build broken 2 7 world [(0, [1]); (1, [0])].

(** The path [0 - 1 - 2 - 3] with the snapshot on disk, on sketches that
    raise in the second round. *)
Definition path4_late_disk : World * Graph (ops := ops late_broken) :=
  build late_broken 4 7 disk_world
        [(0, [1]); (1, [0]); (2, [3]); (3, [2]); (1, [2]); (2, [1])].

End Demo.

(** ** Notions that the properties of a planning pass are stated with *)

(** Two vertices are in one class of the forest [p]. *)
Definition same_root (p : list nat) (u v : nat) : Prop :=
  ∃ r, DSU.root_of p u r ∧ DSU.root_of p v r.

(** What the merge lists hold while a planning pass runs on the forest
    [p0]: a vertex in [to_merge[a]] has the root [a], is not [a] and was a
    root of [p0]; no list repeats a vertex; every root of [p0] that is no
    root any more is in a list; and no vertex has become a root. *)
Definition merge_inv (p0 : list nat) (st : plan) : Prop :=
  (∀ a b, b ∈ at_ [] (pl_to_merge st) a →
          DSU.root_of (pl_parent st) b a ∧ b ≠ a ∧ p0 !! b = Some b)
  ∧ (∀ a, NoDup (at_ [] (pl_to_merge st) a))
  ∧ (∀ b, p0 !! b = Some b → pl_parent st !! b ≠ Some b →
          ∃ a, b ∈ at_ [] (pl_to_merge st) a)
  ∧ (∀ b, pl_parent st !! b = Some b → p0 !! b = Some b).

(** The number of vertices whose root in [p] is [r]. *)
Definition class_size (p : list nat) (r : nat) : nat :=
  length (filter (λ v, DSU.find (length p) p v = Some r) (seq 0 (length p))).

(** [size[r]] is the size of the class of every root [r]. *)
Definition sizes_exact (p sz : list nat) : Prop :=
  ∀ r, p !! r = Some r → at_ 0 sz r = class_size p r.

(** ** What restoring the snapshot gives back *)

(** What [cleanup_copy] makes of the graph [g_exit] that the loop of a
    query on [g] left, when it restores: nothing but [supernodes] changes;
    with [make_copy], every supernode in the snapshot list of round one is
    again as round one sampled it (the clone in memory; on disk what the
    record keeps of it, [stored]), and every other supernode is as the
    loop left it. *)
Definition snapshot_restored `{ops : SupernodeOps} (make_copy : bool)
    (stored : Supernode → Supernode) (g g_exit g' : Graph) : Prop :=
  g' = set_supernodes (supernodes g') g_exit
  ∧ ∀ i, supernodes g' !! i =
         match first_round_plan g with
         | Some (sns, reps) =>
             if decide (make_copy = true ∧ i ∈ reps)
             then (if copy_in_mem g then sns !! i else stored <$> sns !! i)
             else supernodes g_exit !! i
         | None => supernodes g_exit !! i
         end.

(** ** Facts about the forest *)

Section dsu_facts.
Import DSU.
Implicit Types (p : list nat) (v r k : nat).

Lemma dist_functional p v k1 r1 k2 r2 :
  dist p v k1 r1 → dist p v k2 r2 → k1 = k2 ∧ r1 = r2.
Proof.
  intros H1. revert k2 r2.
  induction H1 as [v Hv | v u k r Hv Hne _ IH]; intros k2 r2 H2.
  - inversion H2 as [? Hv2 | ? u2 k2' ? Hv2 Hne2 Hd2]; subst; [done | congruence].
  - inversion H2 as [? Hv2 | ? u2 k2' ? Hv2 Hne2 Hd2]; subst; [congruence |].
    assert (u2 = u) by congruence. subst u2.
    destruct (IH _ _ Hd2) as [-> ->]. done.
Qed.

Lemma dist_lt p v k r : dist p v k r → v < length p.
Proof. destruct 1; eapply lookup_lt_Some; eauto. Qed.

Lemma dist_root_is_root p v k r : dist p v k r → p !! r = Some r.
Proof. induction 1; auto. Qed.

Lemma dist_root_lt p v k r : dist p v k r → r < length p.
Proof. intros H. eapply lookup_lt_Some, dist_root_is_root, H. Qed.

(** The nodes on the way up are pairwise distinct, so there are at most
    [length p] of them. *)
Lemma dist_path p v k r :
  dist p v k r →
  ∃ l : list nat, length l = S k ∧ NoDup l ∧
    ∀ w, w ∈ l → w < length p ∧ ∃ j, j ≤ k ∧ dist p w j r.
Proof.
  induction 1 as [v Hv | v u k r Hv Hne Hd (l & Hlen & Hnd & Hl)].
  - exists [v]. split; [done |]. split; [apply NoDup_singleton |].
    intros w ->%list_elem_of_singleton. split; [by eapply lookup_lt_Some |].
    exists 0. split; [lia | by constructor].
  - exists (v :: l). split; [simpl; lia |]. split.
    + constructor; [| done]. intros Hin.
      destruct (Hl _ Hin) as (_ & j & Hj & Hdj).
      assert (Hv' : dist p v (S k) r) by (econstructor; eauto).
      destruct (dist_functional _ _ _ _ _ _ Hdj Hv'). lia.
    + intros w [-> | Hin]%elem_of_cons.
      * split; [by eapply lookup_lt_Some |].
        exists (S k). split; [lia | econstructor; eauto].
      * destruct (Hl _ Hin) as (? & j & ? & ?). split; [done |].
        exists j. split; [lia | done].
Qed.

Lemma dist_bound p v k r : dist p v k r → k < length p.
Proof.
  intros (l & Hlen & Hnd & Hl)%dist_path.
  assert (length l ≤ length (seq 0 (length p))) as Hle.
  { apply submseteq_length, NoDup_submseteq; [done |].
    intros w Hw. apply elem_of_seq. destruct (Hl _ Hw). lia. }
  rewrite length_seq in Hle. lia.
Qed.

Lemma find_dist p v k r fuel : dist p v k r → k < fuel → find fuel p v = Some r.
Proof.
  intros H. revert fuel. induction H as [v Hv | v u k r Hv Hne _ IH];
    intros [| fuel] Hlt; try lia; simpl; rewrite Hv.
  - by rewrite decide_True.
  - rewrite decide_False by done. apply IH. lia.
Qed.

Lemma find_Some_dist p v r fuel :
  find fuel p v = Some r → ∃ k, k < fuel ∧ dist p v k r.
Proof.
  revert v. induction fuel as [| fuel IH]; intros v; simpl; [done |].
  destruct (p !! v) as [u |] eqn:Hv; [| done].
  destruct (decide (u = v)) as [-> | Hne].
  - intros [= <-]. exists 0. split; [lia | by constructor].
  - intros (k & Hk & Hd)%IH. exists (S k). split; [lia | econstructor; eauto].
Qed.

Lemma dsu_wf_spec p :
  dsu_wf p = true ↔ ∀ v, v < length p → ∃ r, root_of p v r.
Proof.
  unfold dsu_wf. rewrite forallb_forall. split.
  - intros H v Hv.
    assert (Hin : In v (seq 0 (length p))) by (apply in_seq; lia).
    apply H, bool_decide_eq_true in Hin. destruct Hin as [r Hr].
    apply find_Some_dist in Hr as (k & _ & Hd). by exists r, k.
  - intros H v Hv%in_seq. apply bool_decide_eq_true.
    destruct (H v) as (r & k & Hd); [lia |].
    exists r. eapply find_dist; [done |]. by eapply dist_bound.
Qed.

Lemma dsu_wf_identity n : dsu_wf (identity n) = true.
Proof.
  apply dsu_wf_spec. intros v Hv. unfold identity in *.
  rewrite length_seq in Hv. exists v, 0. constructor.
  by rewrite lookup_seq_lt.
Qed.

Lemma roots_kept_refl p : roots_kept p p.
Proof. by split. Qed.

Lemma roots_kept_trans p1 p2 p3 :
  roots_kept p1 p2 → roots_kept p2 p3 → roots_kept p1 p3.
Proof. intros [? H1] [? H2]. split; [congruence | auto]. Qed.

Lemma root_of_functional p v r1 r2 : root_of p v r1 → root_of p v r2 → r1 = r2.
Proof. intros [k1 H1] [k2 H2]. by destruct (dist_functional _ _ _ _ _ _ H1 H2). Qed.

Lemma roots_kept_wf p p' : roots_kept p p' → dsu_wf p = true → dsu_wf p' = true.
Proof.
  intros [Hlen Hk]. rewrite !dsu_wf_spec. intros Hwf v Hv.
  destruct (Hwf v) as [r Hr]; [lia |]. exists r. auto.
Qed.

Lemma roots_kept_back p p' v r :
  roots_kept p p' → dsu_wf p = true → root_of p' v r → root_of p v r.
Proof.
  intros [Hlen Hk] Hwf Hr.
  assert (v < length p) as Hv.
  { destruct Hr as [k Hd]. apply dist_lt in Hd. lia. }
  rewrite dsu_wf_spec in Hwf. destruct (Hwf v Hv) as [r0 Hr0].
  by rewrite (root_of_functional _ _ _ _ Hr (Hk _ _ Hr0)).
Qed.

Lemma compress_one p v k r :
  dist p v k r → ∀ w j rw, dist p w j rw → ∃ j', dist (<[v := r]> p) w j' rw.
Proof.
  intros Hv w j rw Hw.
  induction Hw as [w Hw | w u j rw Hw Hne Hu [j' IH]].
  - exists 0. constructor. destruct (decide (w = v)) as [-> | Hwv].
    + assert (dist p v 0 v) as H0 by by constructor.
      destruct (dist_functional _ _ _ _ _ _ Hv H0) as [_ ->].
      rewrite list_lookup_insert_eq; [done | by eapply lookup_lt_Some].
    + by rewrite list_lookup_insert_ne.
  - destruct (decide (w = v)) as [-> | Hwv].
    + assert (dist p v (S j) rw) as Hv' by (econstructor; eauto).
      destruct (dist_functional _ _ _ _ _ _ Hv Hv') as [-> ->].
      assert (rw ≠ v) as Hr.
      { intros ->. apply dist_root_is_root in Hv. congruence. }
      exists 1. econstructor; [| exact Hr |].
      * apply list_lookup_insert_eq. by eapply lookup_lt_Some.
      * constructor. rewrite list_lookup_insert_ne by done.
        by eapply dist_root_is_root.
    + exists (S j'). econstructor; [| exact Hne | exact IH].
      by rewrite list_lookup_insert_ne.
Qed.

Lemma get_parent_dist p v k r fuel :
  dist p v k r → k < fuel →
  ∃ p', get_parent fuel p v = Some (r, p') ∧ roots_kept p p'.
Proof.
  intros H. revert fuel.
  induction H as [v Hv | v u k r Hv Hne Hu IH]; intros [| fuel] Hlt; try lia;
    simpl; rewrite Hv.
  - rewrite decide_True by done. exists p. split; [done | apply roots_kept_refl].
  - rewrite decide_False by done.
    destruct (IH fuel) as (p1 & -> & Hlen & Hk); [lia |].
    eexists. split; [done |]. split; [by rewrite length_insert |].
    intros w rw Hw. apply Hk in Hw as [j Hw].
    destruct (Hk v r) as [kv Hv1]; [eexists; econstructor; eauto |].
    destruct (compress_one _ _ _ _ Hv1 _ _ _ Hw) as [j' ?]. by exists j'.
Qed.

Lemma get_parent_Some p v r p' fuel :
  get_parent fuel p v = Some (r, p') → root_of p v r ∧ roots_kept p p'.
Proof.
  intros Hg.
  assert (∃ k, k < fuel ∧ dist p v k r) as (k & Hk & Hd).
  { revert v r p' Hg. induction fuel as [| fuel IH]; intros v r p' Hg;
      simpl in Hg; [done |].
    destruct (p !! v) as [u |] eqn:Hv; [| done].
    destruct (decide (u = v)) as [-> | Hne].
    - injection Hg as <- <-. exists 0. split; [lia | by constructor].
    - destruct (get_parent fuel p u) as [[r1 p1] |] eqn:Hu; [| done].
      injection Hg as <- <-. destruct (IH _ _ _ Hu) as (k & ? & ?).
      exists (S k). split; [lia | econstructor; eauto]. }
  split; [by exists k |].
  destruct (get_parent_dist _ _ _ _ _ Hd Hk) as (p'' & Hg' & ?).
  congruence.
Qed.

(** In a forest, [get_parent] returns. *)
Lemma get_parent_total p v :
  dsu_wf p = true → v < length p →
  ∃ r p', get_parent (length p) p v = Some (r, p').
Proof.
  intros Hwf Hv. rewrite dsu_wf_spec in Hwf.
  destruct (Hwf v Hv) as (r & k & Hd).
  destruct (get_parent_dist _ _ _ _ (length p) Hd) as (p' & ? & _);
    [by eapply dist_bound | eauto].
Qed.

(** Hanging the root [b] below another root [a]. *)
Lemma link_roots p a b :
  p !! a = Some a → p !! b = Some b → a ≠ b →
  ∀ w rw, root_of p w rw →
          root_of (<[b := a]> p) w (if decide (rw = b) then a else rw).
Proof.
  intros Ha Hb Hab w rw [j Hw].
  induction Hw as [w Hw | w u j rw Hw Hne Hu [j' IH]].
  - destruct (decide (w = b)) as [-> | Hwb].
    + exists 1. econstructor; [| exact Hab |].
      * apply list_lookup_insert_eq. by eapply lookup_lt_Some.
      * constructor. by rewrite list_lookup_insert_ne.
    + exists 0. constructor. by rewrite list_lookup_insert_ne.
  - assert (w ≠ b) by congruence.
    exists (S j'). econstructor; [| exact Hne | exact IH].
    by rewrite list_lookup_insert_ne.
Qed.

Lemma link_roots_wf p a b :
  p !! a = Some a → p !! b = Some b → a ≠ b →
  dsu_wf p = true → dsu_wf (<[b := a]> p) = true.
Proof.
  intros Ha Hb Hab. rewrite !dsu_wf_spec, length_insert. intros Hwf v Hv.
  destruct (Hwf v Hv) as [r Hr]. eexists. by apply link_roots.
Qed.

End dsu_facts.

(** ** Facts about the planning pass *)

Section plan_facts.
Context `{ops : SupernodeOps}.
Import DSU.

Lemma at_insert_eq {A} (d x : A) (l : list A) i :
  i < length l → at_ d (<[i := x]> l) i = x.
Proof. intros. unfold at_. by rewrite list_lookup_insert_eq. Qed.

Lemma at_insert_ne {A} (d x : A) (l : list A) i j :
  i ≠ j → at_ d (<[i := x]> l) j = at_ d l j.
Proof. intros. unfold at_. by rewrite list_lookup_insert_ne. Qed.

Lemma is_root_kept p p' a : roots_kept p p' → p !! a = Some a → p' !! a = Some a.
Proof.
  intros [_ Hk] Ha. destruct (Hk a a) as [k Hd]; [exists 0; by constructor |].
  by eapply dist_root_is_root.
Qed.

(** The fields of the state after a union, written out. *)
Lemma union_roots_fields a b st :
  let big := if decide (at_ 0 (pl_size st) a < at_ 0 (pl_size st) b) then b else a in
  let small := if decide (at_ 0 (pl_size st) a < at_ 0 (pl_size st) b) then a else b in
  a ≠ b → a < length (pl_to_merge st) → b < length (pl_to_merge st) →
  let st' := union_roots a b st in
  pl_parent st' = <[small := big]> (pl_parent st)
  ∧ pl_size st' = <[big := at_ 0 (pl_size st) big + at_ 0 (pl_size st) small]> (pl_size st)
  ∧ at_ [] (pl_to_merge st') big
    = at_ [] (pl_to_merge st) big ++ small :: at_ [] (pl_to_merge st) small
  ∧ at_ [] (pl_to_merge st') small = []
  ∧ (∀ c, c ≠ big → c ≠ small →
          at_ [] (pl_to_merge st') c = at_ [] (pl_to_merge st) c)
  ∧ length (pl_to_merge st') = length (pl_to_merge st)
  ∧ pl_modified st' = true
  ∧ pl_new_reps st' = pl_new_reps st.
Proof.
  intros big small Hab Ha Hb. unfold union_roots. subst big small.
  destruct (decide (at_ 0 (pl_size st) a < at_ 0 (pl_size st) b)); simpl;
    (split; [done |]); (split; [done |]);
    rewrite ?length_insert;
    (split; [rewrite at_insert_ne by done;
             rewrite at_insert_eq by (by rewrite length_insert);
             rewrite at_insert_eq by done;
             rewrite at_insert_ne by done;
             by rewrite <- app_assoc |]);
    (split; [by rewrite at_insert_eq by (by rewrite !length_insert) |]);
    (split; [| done]);
    intros c ? ?; by rewrite !at_insert_ne by done.
Qed.

Lemma union_roots_inv n a b st :
  plan_inv n st → a ≠ b →
  pl_parent st !! a = Some a → pl_parent st !! b = Some b →
  plan_inv n (union_roots a b st).
Proof.
  intros [Hpl Hwf Hsl Htl Htr] Hab Ha Hb.
  assert (a < n) by (rewrite <- Hpl; by eapply lookup_lt_Some).
  assert (b < n) by (rewrite <- Hpl; by eapply lookup_lt_Some).
  destruct (union_roots_fields a b st) as (Hp & Hs & Hbig & Hsmall & Hoth & Hlen & _);
    [done | lia | lia |].
  set (big := if decide (at_ 0 (pl_size st) a < at_ 0 (pl_size st) b) then b else a) in *.
  set (small := if decide (at_ 0 (pl_size st) a < at_ 0 (pl_size st) b) then a else b) in *.
  assert (pl_parent st !! big = Some big ∧ pl_parent st !! small = Some small
          ∧ big ≠ small) as (Hbr & Hsr & Hne).
  { subst big small. by case_decide. }
  split.
  - by rewrite Hp, length_insert.
  - rewrite Hp. by apply link_roots_wf.
  - by rewrite Hs, length_insert.
  - by rewrite Hlen.
  - intros c Hc. rewrite Hp.
    destruct (decide (c = small)) as [-> | Hcs]; [by rewrite Hsmall in Hc |].
    rewrite list_lookup_insert_ne by done.
    destruct (decide (c = big)) as [-> | Hcb]; [done |].
    apply Htr. by rewrite <- Hoth.
Qed.

Lemma plan_step_inv n query st i st' :
  plan_inv n st → plan_step query st i = Some st' → plan_inv n st'.
Proof.
  intros Hinv. unfold plan_step.
  destruct (query_at query i) as [[x y] []]; simpl.
  - destruct (get_parent _ _ x) as [[a p1] |] eqn:Hx; simpl; [| done].
    destruct (get_parent _ p1 y) as [[b p2] |] eqn:Hy; simpl; [| done].
    apply get_parent_Some in Hx as [Hra Hk1].
    apply get_parent_Some in Hy as [Hrb Hk2].
    pose proof (roots_kept_trans _ _ _ Hk1 Hk2) as Hk.
    assert (plan_inv n (mkPlan p2 (pl_size st) (pl_modified st)
                               (pl_to_merge st) (pl_new_reps st))) as Hinv2.
    { destruct Hinv as [Hpl Hwf Hsl Htl Htr]. split; simpl; try done.
      - destruct Hk. congruence.
      - by eapply roots_kept_wf.
      - intros c Hc. eapply is_root_kept; eauto. }
    case_decide; intros [= <-]; [done |].
    apply union_roots_inv; simpl; try done.
    + destruct Hra as [k Hd]. apply (dist_root_is_root _ _ _ _) in Hd.
      eapply is_root_kept; [exact Hk | exact Hd].
    + destruct Hrb as [k Hd]. apply (dist_root_is_root _ _ _ _) in Hd.
      eapply is_root_kept; [exact Hk2 | exact Hd].
  - by intros [= <-].
  - intros [= <-]. by destruct Hinv.
Qed.

Lemma plan_loop_inv n query reps : ∀ st st',
  plan_inv n st → plan_loop query st reps = Some st' → plan_inv n st'.
Proof.
  induction reps as [| i reps IH]; intros st st' Hinv; simpl.
  - by intros [= <-].
  - destruct (plan_step query st i) as [st1 |] eqn:Hs; simpl; [| done].
    apply IH. by eapply plan_step_inv.
Qed.

End plan_facts.

(** ** Facts about the final grouping pass *)

Section components_facts.
Context `{ops : SupernodeOps}.
Import DSU.

Lemma find_out_of_range fuel (p : list nat) v : length p ≤ v → find fuel p v = None.
Proof. intros. destruct fuel; simpl; [done |]. by rewrite lookup_ge_None_2. Qed.

Lemma find_root_of (p : list nat) v r :
  find (length p) p v = Some r ↔ root_of p v r.
Proof.
  split.
  - intros (k & _ & Hd)%find_Some_dist. by exists k.
  - intros [k Hd]. eapply find_dist; [done | by eapply dist_bound].
Qed.

Lemma find_roots_kept (p p' : list nat) v :
  roots_kept p p' → dsu_wf p = true →
  find (length p') p' v = find (length p) p v.
Proof.
  intros Hk Hwf. destruct (decide (v < length p)) as [Hv | Hv].
  - rewrite dsu_wf_spec in Hwf. destruct (Hwf v Hv) as [r Hr].
    rewrite (proj2 (find_root_of p v r) Hr).
    apply find_root_of. by apply Hk.
  - destruct Hk as [Hlen _].
    rewrite !find_out_of_range; [done | lia | lia].
Qed.

(** The map [temp] after the loop over the ids in [l]. *)
Lemma group_fold (l : list nat) : ∀ (p : list nat) (temp : gmap nat (gset nat)),
  dsu_wf p = true → (∀ i, i ∈ l → i < length p) →
  ∃ p' temp',
    foldl group_step (Some (p, temp)) l = Some (p', temp')
    ∧ roots_kept p p'
    ∧ ∀ r, temp' !! r =
           match filter (λ i, find (length p) p i = Some r) l with
           | [] => temp !! r
           | js => Some (list_to_set js ∪ default ∅ (temp !! r))
           end.
Proof.
  induction l as [| i l IH]; intros p temp Hwf Hl.
  - exists p, temp. split; [done |]. split; [apply roots_kept_refl | done].
  - destruct (get_parent_total p i Hwf) as (ri & p1 & Hg).
    { apply Hl. by left. }
    pose proof (get_parent_Some _ _ _ _ _ Hg) as [Hri Hk1].
    destruct (IH p1 (<[ri := {[i]} ∪ default ∅ (temp !! ri)]> temp))
      as (p' & temp' & Hf & Hk' & Ht).
    { by eapply roots_kept_wf. }
    { intros j Hj. destruct Hk1 as [-> _]. apply Hl. by right. }
    exists p', temp'. split.
    { simpl. rewrite Hg. simpl. exact Hf. }
    split; [by eapply roots_kept_trans |].
    intros r. rewrite Ht. clear Ht Hf.
    rewrite (list_filter_iff _ (λ j, find (length p) p j = Some r)); last first.
    { intros j. by rewrite (find_roots_kept p p1). }
    rewrite filter_cons. apply find_root_of in Hri.
    destruct (decide (r = ri)) as [-> | Hne].
    + rewrite decide_True by done. rewrite lookup_insert_eq. simpl.
      destruct (filter _ l); f_equal; set_solver.
    + rewrite decide_False by congruence.
      by rewrite lookup_insert_ne.
Qed.

Lemma omap_lookup_source {A B} (f : A → option B) (l : list A) j1 j2 x1 x2 :
  NoDup l → omap f l !! j1 = Some x1 → omap f l !! j2 = Some x2 →
  ∃ y1 y2, y1 ∈ l ∧ y2 ∈ l ∧ f y1 = Some x1 ∧ f y2 = Some x2
           ∧ (y1 = y2 → j1 = j2).
Proof.
  intros Hnd. revert j1 j2.
  induction Hnd as [| y l Hy Hnd IH]; intros j1 j2; simpl; [done |].
  assert (∀ j x, omap f l !! j = Some x → ∃ y', y' ∈ l ∧ f y' = Some x) as Hsrc.
  { intros j x Hj. apply list_elem_of_lookup_2, list_elem_of_omap in Hj.
    destruct Hj as (y' & ? & ?). eauto. }
  destruct (f y) as [x |] eqn:Hfy.
  - destruct j1 as [| j1], j2 as [| j2]; simpl.
    + intros [= <-] [= <-]. exists y, y.
      split_and!; [by left | by left | done | done | done].
    + intros [= <-] H2. destruct (Hsrc _ _ H2) as (y2 & Hy2 & ?).
      exists y, y2. split_and!; [by left | by right | done | done |].
      intros <-. by destruct Hy.
    + intros H1 [= <-]. destruct (Hsrc _ _ H1) as (y1 & Hy1 & ?).
      exists y1, y. split_and!; [by right | by left | done | done |].
      intros ->. by destruct Hy.
    + intros H1 H2. destruct (IH _ _ H1 H2) as (y1 & y2 & ? & ? & ? & ? & Hj).
      exists y1, y2. split_and!; [by right | by right | done | done |].
      intros Heq. by rewrite (Hj Heq).
  - intros H1 H2. destruct (IH _ _ H1 H2) as (y1 & y2 & ? & ? & ? & ? & Hj).
    exists y1, y2. split_and!; [by right | by right | done | done | done].
Qed.

(** In a forest the grouping pass returns, and what it returns is the
    partition into the classes of the roots. *)
Lemma components_spec n (p : list nat) :
  length p = n → dsu_wf p = true →
  ∃ p' sets, components n p = Some (p', sets)
             ∧ roots_kept p p'
             ∧ is_partition n sets
             ∧ grouped_by_root n p sets.
Proof.
  intros Hlen Hwf.
  destruct (group_fold (seq 0 n) p ∅ Hwf) as (p' & temp & Hf & Hk & Ht).
  { intros i Hi%elem_of_seq. lia. }
  exists p', (omap (λ r, temp !! r) (seq 0 n)).
  split; [unfold components; by rewrite Hf |]. split; [done |].
  assert (∀ r S, temp !! r = Some S →
                 ∀ v, v ∈ S ↔ v < n ∧ root_of p v r) as Hmem.
  { intros r S. rewrite Ht, lookup_empty.
    pose proof (list_elem_of_filter (λ i, find (length p) p i = Some r) (seq 0 n))
      as Hfilt.
    destruct (filter _ (seq 0 n)) as [| i js]; [done |].
    intros [= <-] v. clear Ht. set_unfold.
    rewrite <- find_root_of. specialize (Hfilt v). split.
    - intros [Hv | []]. apply Hfilt in Hv as [? [_ ?]]. done.
    - intros [? ?]. left. apply Hfilt. split; [done | lia]. }
  assert (∀ v r, v < n → root_of p v r → ∃ S, temp !! r = Some S) as Hdef.
  { intros v r Hv Hr. rewrite Ht, lookup_empty.
    destruct (filter _ (seq 0 n)) as [| i js] eqn:Hfl; [| eauto].
    assert (v ∈ filter (λ i, find (length p) p i = Some r) (seq 0 n)) as Hin.
    { apply list_elem_of_filter. split; [by apply find_root_of |].
      apply elem_of_seq. lia. }
    rewrite Hfl in Hin. by apply elem_of_nil in Hin. }
  assert (∀ j S, omap (λ r, temp !! r) (seq 0 n) !! j = Some S →
                 ∃ r, temp !! r = Some S) as Hsrc.
  { intros j S Hj. apply list_elem_of_lookup_2, list_elem_of_omap in Hj.
    destruct Hj as (r & _ & ?). eauto. }
  split; [split; [| split] |].
  - intros v Hv. rewrite dsu_wf_spec in Hwf.
    destruct (Hwf v) as [r Hr]; [lia |].
    destruct (Hdef v r Hv Hr) as [S HS].
    assert (S ∈ omap (λ r, temp !! r) (seq 0 n)) as Hin.
    { apply list_elem_of_omap. exists r. split; [| done].
      apply elem_of_seq. destruct Hr as [k Hd]. apply dist_root_lt in Hd. lia. }
    apply list_elem_of_lookup in Hin as [j Hj].
    exists j, S. split; [done |]. by apply (proj2 (Hmem r S HS v)).
  - intros j S v Hj Hv. destruct (Hsrc j S Hj) as [r Hr].
    by destruct (proj1 (Hmem r S Hr v) Hv) as [? _].
  - intros j1 j2 S1 S2 v H1 H2 Hv1 Hv2.
    destruct (omap_lookup_source _ _ _ _ _ _ (NoDup_seq 0 n) H1 H2)
      as (r1 & r2 & _ & _ & Hr1 & Hr2 & Heq).
    apply Heq.
    destruct (proj1 (Hmem r1 S1 Hr1 v) Hv1) as [_ Hv1'].
    destruct (proj1 (Hmem r2 S2 Hr2 v) Hv2) as [_ Hv2'].
    by eapply root_of_functional.
  - intros j S Hj. destruct (Hsrc j S Hj) as [r Hr]. exists r.
    split; [| by apply Hmem].
    apply (Hmem r S Hr).
    revert Hr. rewrite Ht, lookup_empty.
    destruct (filter _ (seq 0 n)) as [| i js] eqn:Hfl; [done |]. intros _.
    assert (i ∈ filter (λ i, find (length p) p i = Some r) (seq 0 n)) as Hin
      by (rewrite Hfl; by left).
    apply list_elem_of_filter in Hin as [Hi%find_root_of _].
    destruct Hi as [k Hd].
    split; [pose proof (dist_root_lt _ _ _ _ Hd); lia |].
    exists 0. constructor. by eapply dist_root_is_root.
Qed.

End components_facts.

(** ** Facts about the rounds of the driver *)

Section driver_facts.
Context `{ops : SupernodeOps}.
Import DSU.

Lemma foldl_invariant {A B} (Q : A → Prop) (f : A → B → A) (l : list B) :
  ∀ a, Q a → (∀ a b, Q a → b ∈ l → Q (f a b)) → Q (foldl f a l).
Proof.
  induction l as [| b l IH]; intros a Ha Hf; simpl; [done |].
  apply IH; [apply Hf; [done | by left] |].
  intros a' b' ? ?. apply Hf; [done | by right].
Qed.

Lemma sample_one_length acc r :
  length (sample_one acc r).1.1 = length acc.1.1.
Proof.
  destruct acc as [[sns query] err]. unfold sample_one.
  destruct (sns !! r); [| done].
  destruct (sn_sample _) as [s' [e | q]]; simpl; by rewrite length_insert.
Qed.

Lemma sample_supernodes_length sns query reps :
  length (sample_supernodes sns query reps).1.1 = length sns.
Proof.
  unfold sample_supernodes.
  apply (foldl_invariant (λ acc, length acc.1.1 = length sns)); [done |].
  intros acc r Hacc _. by rewrite sample_one_length.
Qed.

Lemma merge_into_length a bs : ∀ sns,
  length (merge_into sns a bs).1 = length sns.
Proof.
  induction bs as [| b bs IH]; intros sns; simpl; [done |].
  destruct (sns !! a), (sns !! b); try done.
  destruct (sn_merge _ _) as [sa' [e |]]; simpl.
  - by rewrite length_insert.
  - by rewrite IH, length_insert.
Qed.

Lemma merge_one_length copying to_merge acc a :
  length (merge_one copying to_merge acc a).1.1 = length acc.1.1.
Proof.
  destruct acc as [[sns copies] err]. unfold merge_one.
  pose proof (merge_into_length a (at_ [] to_merge a) sns) as Hl.
  by destruct (merge_into _ _ _) as [sns' [e |]].
Qed.

Lemma merge_supernodes_length copies reps to_merge mk g :
  length (merge_supernodes copies reps to_merge mk g).1.1 = length (supernodes g).
Proof.
  unfold merge_supernodes.
  apply (foldl_invariant (λ acc, length acc.1.1 = length (supernodes g)));
    [done |].
  intros acc a Hacc _. by rewrite merge_one_length.
Qed.

Lemma replicate_at {A} (d : A) n i : at_ d (replicate n d) i = d.
Proof.
  unfold at_. destruct (replicate n d !! i) eqn:H; [| done].
  by apply lookup_replicate in H as [-> _].
Qed.

(** The planning pass, unfolded once. *)
Lemma supernodes_to_merge_Some query reps g g' reps' to_merge :
  supernodes_to_merge query reps g = Some (g', reps', to_merge) →
  ∃ st, plan_loop query (mkPlan (parent g) (size g) (modified g)
                                (replicate (num_nodes g) []) []) reps = Some st
        ∧ g' = set_modified (pl_modified st)
                 (set_size (pl_size st) (set_parent (pl_parent st) g))
        ∧ reps' = next_reps (num_nodes g) (pl_to_merge st) (pl_new_reps st)
        ∧ to_merge = pl_to_merge st.
Proof.
  unfold supernodes_to_merge.
  destruct (plan_loop _ _ _) as [st |]; simpl; [| done].
  intros [= <- <- <-]. by exists st.
Qed.

Lemma initial_plan_inv g :
  graph_wf g →
  plan_inv (num_nodes g)
    (mkPlan (parent g) (size g) (modified g) (replicate (num_nodes g) []) []).
Proof.
  intros (Hs & Hp & Hz & Hwf). split; simpl; try done.
  - by rewrite length_replicate.
  - intros a. by rewrite replicate_at.
Qed.

Lemma supernodes_to_merge_wf query reps g g' reps' to_merge :
  graph_wf g →
  supernodes_to_merge query reps g = Some (g', reps', to_merge) →
  graph_wf g' ∧ num_nodes g' = num_nodes g ∧ supernodes g' = supernodes g.
Proof.
  intros Hwf (st & Hst & -> & _ & _)%supernodes_to_merge_Some.
  pose proof (plan_loop_inv _ _ _ _ _ (initial_plan_inv g Hwf) Hst)
    as [Hpl Hpw Hsl _ _].
  destruct Hwf as (Hs & _). by repeat split.
Qed.

(** The state that a round leaves, whichever way it ends. *)
Lemma boruvka_round_wf mk w g d w' g' d' r :
  graph_wf g → boruvka_round mk w g d = (w', g', d', r) →
  graph_wf g' ∧ num_nodes g' = num_nodes g.
Proof.
  intros Hwf. unfold boruvka_round.
  pose proof (sample_supernodes_length (supernodes (set_modified false g))
                (dr_query d) (dr_reps d)) as Hsl.
  destruct (sample_supernodes _ _ _) as [[sns query] err].
  simpl in Hsl.
  assert (graph_wf (set_supernodes sns (set_modified false g))) as Hwf1.
  { destruct Hwf as (? & ? & ? & ?). repeat split; simpl; try done. congruence. }
  destruct err as [e |]; [by intros [= <- <- <- <-] |].
  destruct (supernodes_to_merge _ _ _) as [[[g1 reps] to_merge] |] eqn:Hplan;
    simpl; [| by intros [= <- <- <- <-]].
  apply supernodes_to_merge_wf in Hplan as (Hwf2 & Hn & Hsn); [| done].
  simpl in Hn, Hsn.
  match goal with |- context [if ?b then backup_to_disk ?i w g1 else _] =>
    destruct (if b then backup_to_disk i w g1 else Some w) as [w1 |] end;
    [| by intros [= <- <- <- <-]].
  pose proof (merge_supernodes_length (dr_copy d) reps to_merge
                (dr_first_round d && mk) g1) as Hml.
  destruct (merge_supernodes _ _ _ _ _) as [[sns2 copies] err2]. simpl in Hml.
  assert (graph_wf (set_supernodes sns2 g1)) as Hwf3.
  { destruct Hwf2 as (? & ? & ? & ?). repeat split; simpl; try done. congruence. }
  destruct err2; intros [= <- <- <- <-]; by split.
Qed.

Lemma boruvka_loop_invariant (I : World → Graph → driver → Prop) mk :
  (∀ w g d w' g' d' r,
     I w g d → boruvka_round mk w g d = (w', g', d', r) → I w' g' d') →
  ∀ fuel w g d w' g' d' r,
    I w g d → boruvka_loop fuel mk w g d = (w', g', d', r) → I w' g' d'.
Proof.
  intros Hround. induction fuel as [| fuel IH]; intros w g d w' g' d' r HI;
    simpl; [by intros [= <- <- <- <-] |].
  destruct (boruvka_round mk w g d) as [[[w1 g1] d1] r1] eqn:Hr.
  pose proof (Hround _ _ _ _ _ _ _ HI Hr) as HI1.
  destruct r1 as [[] | | | |]; try by intros [= <- <- <- <-].
  by apply IH.
Qed.

Lemma boruvka_loop_wf fuel mk w g d w' g' d' r :
  graph_wf g → boruvka_loop fuel mk w g d = (w', g', d', r) →
  graph_wf g' ∧ num_nodes g' = num_nodes g.
Proof.
  intros Hwf.
  apply (boruvka_loop_invariant
           (λ _ g1 _, graph_wf g1 ∧ num_nodes g1 = num_nodes g)); [| done].
  intros w1 g1 d1 w2 g2 d2 r1 [Hwf1 Hn1] Hr.
  destruct (boruvka_round_wf _ _ _ _ _ _ _ _ Hwf1 Hr). split; [done | congruence].
Qed.

End driver_facts.

(** ** The partition that a query returns *)

Section partition.
Context `{ops : SupernodeOps}.
Import DSU.

Lemma restore_from_disk_fields ids w g g' :
  restore_from_disk ids w g = Some g' →
  ∃ sns, g' = set_supernodes sns g.
Proof.
  unfold restore_from_disk. destruct (files w !! backup_file g); [| done].
  intros [= <-]. eauto.
Qed.

Lemma cleanup_copy_fields mk w g d g' :
  cleanup_copy mk w g d = Some g' → ∃ sns, g' = set_supernodes sns g.
Proof.
  unfold cleanup_copy. destruct mk.
  - destruct (copy_in_mem g).
    + intros [= <-]. eauto.
    + apply restore_from_disk_fields.
  - intros [= <-]. exists (supernodes g). by destruct g.
Qed.

Lemma grouped_by_root_kept n p p' sets :
  roots_kept p p' → dsu_wf p = true →
  grouped_by_root n p sets → grouped_by_root n p' sets.
Proof.
  intros Hk Hwf Hg j S Hj. destruct (Hg j S Hj) as (r & Hr & Hmem).
  exists r. split; [done |]. intros v. rewrite Hmem. split.
  - intros [? ?]. split; [done |]. by apply Hk.
  - intros [? ?]. split; [done |]. by eapply roots_kept_back.
Qed.

Lemma boruvka_emulation_returned fuel mk w g :
  graph_wf g →
  match boruvka_emulation fuel mk w g with
  | (_, g', _, Returned ret) =>
      num_nodes g' = num_nodes g
      ∧ is_partition (num_nodes g) ret
      ∧ grouped_by_root (num_nodes g) (parent g') ret
  | _ => True
  end.
Proof.
  intros Hwf. unfold boruvka_emulation, finish_query.
  destruct (boruvka_loop _ _ _ _ _) as [[[w1 g1] d1] r1] eqn:Hloop.
  apply boruvka_loop_wf in Hloop as [Hwf1 Hn1]; last first.
  { destruct Hwf as (? & ? & ? & ?). repeat split; simpl; try done.
    by rewrite length_replicate. }
  simpl in Hn1.
  destruct r1 as [[] | e | | |]; try done.
  - destruct Hwf1 as (_ & Hpl & _ & Hpw).
    destruct (components_spec (num_nodes g1) (parent g1) Hpl Hpw)
      as (p' & sets & -> & Hk & Hpart & Hgrp).
    destruct (cleanup_copy _ _ _ _) as [g2 |] eqn:Hc; [| done].
    apply cleanup_copy_fields in Hc as [sns ->]. simpl.
    rewrite <- Hn1. split; [done |]. split; [done |].
    by eapply grouped_by_root_kept.
  - by destruct (cleanup_copy _ _ _ _).
Qed.

End partition.

(** Scenarios 3 and 4 of the specification, run on the model. *)
Example scenario_one_component :
  (connected_components 10 true Demo.path4.1 Demo.path4.2).2
  = Returned [list_to_set [0; 1; 2; 3]].
Proof. vm_compute. reflexivity. Qed.

Example scenario_two_components :
  (connected_components 10 true Demo.split4.1 Demo.split4.2).2
  = Returned [list_to_set [0; 1]; list_to_set [2; 3]].
Proof. vm_compute. reflexivity. Qed.

(** ** Union by size in the planning pass *)

(** C2. In the single-threaded planning pass, a sampled edge [(x, y)] whose
    endpoints have distinct roots [a = find(x)] and [b = find(y)] is
    processed by union by size as specified: the roles are swapped exactly
    when [size[a] < size[b]]; then [parent[b] = a], [size[a] += size[b]],
    [b] and the contents of [to_merge[b]] are appended to [to_merge[a]],
    [to_merge[b]] is cleared and [modified] is set.  On equal sizes [a]
    stays the root.  The step is a function of the state and the sample, and
    it merges the two classes of the forest and no other. *)
Theorem planning_union_by_size n query st i x y a b :
  plan_inv n st →
  query_at query i = ((x, y), GOOD) →
  DSU.root_of (pl_parent st) x a →
  DSU.root_of (pl_parent st) y b →
  a ≠ b →
  let sz := at_ 0 (pl_size st) in
  let tm := at_ [] (pl_to_merge st) in
  let root := if decide (sz a < sz b) then b else a in
  let child := if decide (sz a < sz b) then a else b in
  ∃ st' p2,
    plan_step query st i = Some st'
    ∧ DSU.roots_kept (pl_parent st) p2
    ∧ pl_parent st' = <[child := root]> p2
    ∧ pl_size st' = <[root := sz root + sz child]> (pl_size st)
    ∧ at_ [] (pl_to_merge st') root = tm root ++ child :: tm child
    ∧ at_ [] (pl_to_merge st') child = []
    ∧ (∀ c, c ≠ root → c ≠ child → at_ [] (pl_to_merge st') c = tm c)
    ∧ pl_modified st' = true
    ∧ pl_new_reps st' = pl_new_reps st
    ∧ (sz a = sz b → root = a ∧ child = b)
    ∧ (∀ v r, DSU.root_of (pl_parent st) v r →
              DSU.root_of (pl_parent st') v (if decide (r = child) then root else r)).
Proof.
  intros Hinv Hq Hxa Hyb Hab sz tm root child.
  destruct Hinv as [Hpl Hwf Hsl Htl Htr].
  destruct Hxa as [kx Hdx]. destruct Hyb as [ky Hdy].
  destruct (get_parent_dist _ _ _ _ (length (pl_parent st)) Hdx)
    as (p1 & Hg1 & Hk1); [by eapply dist_bound |].
  assert (DSU.root_of p1 y b) as [ky' Hdy'] by (apply Hk1; by exists ky).
  destruct (get_parent_dist _ _ _ _ (length p1) Hdy')
    as (p2 & Hg2 & Hk2); [by eapply dist_bound |].
  pose proof (roots_kept_trans _ _ _ Hk1 Hk2) as Hk.
  set (st2 := mkPlan p2 (pl_size st) (pl_modified st) (pl_to_merge st)
                     (pl_new_reps st)).
  assert (a < n ∧ b < n) as [Han Hbn].
  { rewrite <- Hpl. split; by eapply dist_root_lt. }
  destruct (union_roots_fields a b st2)
    as (Hp & Hs & Hbig & Hsmall & Hoth & _ & Hmod & Hnr);
    [done | simpl; lia | simpl; lia |].
  exists (union_roots a b st2), p2. simpl in *.
  split.
  { unfold plan_step. rewrite Hq. simpl. rewrite Hg1. simpl. rewrite Hg2. simpl.
    by rewrite decide_False. }
  repeat (split; [done |]).
  split.
  { intros Heq. subst root child sz. case_decide; [lia | done]. }
  intros v r Hr. rewrite Hp. fold sz. fold root child.
  assert (p2 !! a = Some a ∧ p2 !! b = Some b) as [Ha2 Hb2].
  { split; (eapply is_root_kept; [exact Hk |]); by eapply dist_root_is_root. }
  subst root child sz.
  case_decide; apply link_roots; try done; try congruence; by apply Hk.
Qed.

Lemma planning_union_by_size_witness :
  let st := mkPlan [0; 1; 2] [1; 1; 1] false [[]; []; []] [] in
  ∃ st' p2,
    plan_step [((1, 2), GOOD); ((0, 0), ZERO); ((0, 0), ZERO)] st 0 = Some st'
    ∧ DSU.roots_kept [0; 1; 2] p2
    ∧ pl_parent st' = <[2 := 1]> p2
    ∧ pl_size st' = <[1 := 1 + 1]> [1; 1; 1]
    ∧ at_ [] (pl_to_merge st') 1 = [] ++ 2 :: []
    ∧ at_ [] (pl_to_merge st') 2 = []
    ∧ (∀ c, c ≠ 1 → c ≠ 2 → at_ [] (pl_to_merge st') c = at_ [] [[]; []; []] c)
    ∧ pl_modified st' = true
    ∧ pl_new_reps st' = []
    ∧ (1 = 1 → 1 = 1 ∧ 2 = 2)
    ∧ (∀ v r, DSU.root_of [0; 1; 2] v r →
              DSU.root_of (pl_parent st') v (if decide (r = 2) then 1 else r)).
Proof.
  apply (planning_union_by_size 3
           [((1, 2), GOOD); ((0, 0), ZERO); ((0, 0), ZERO)]
           (mkPlan [0; 1; 2] [1; 1; 1] false [[]; []; []] []) 0 1 2 1 2).
  - split; try reflexivity. by intros [| [| [| a]]].
  - reflexivity.
  - exists 0. by constructor.
  - exists 0. by constructor.
  - lia.
Defined.

(** ** The representative list after a planning pass *)

(** C3, evaluated where the code departs from it.  Three vertices, edges
    [(0,1)] and [(1,2)]; in round one vertex [1] samples [FAIL] while
    vertices [0] and [2] sample their edges.  The planning pass hangs [1]
    and [2] below [0], so the root of [1] acquires pending merges; yet [1]
    stays in the representative list, where it is not its own parent. *)
Lemma absorbed_retry_stays_representative :
  match boruvka_round false Demo.path3_flaky.1
          (set_size [1; 1; 1] (set_update_locked true Demo.path3_flaky.2))
          (init_driver false Demo.path3_flaky.2) with
  | (_, g', d', r) =>
      r = Returned true
      ∧ dr_query d' = [((0, 1), GOOD); ((0, 0), FAIL); ((1, 2), GOOD)]
      ∧ dr_reps d' = [1; 0]
      ∧ parent g' = [0; 0; 0]
  end.
Proof. vm_compute. by repeat split. Qed.

(** The same at the level of the planning pass alone, for the outputs
    [GOOD (0,1)] of vertex [0] and [FAIL] of vertex [1]. *)
Lemma absorbed_retry_stays_after_planning :
  match plan_loop [((0, 1), GOOD); ((0, 0), FAIL)]
                  (mkPlan [0; 1] [1; 1] false [[]; []] []) [0; 1] with
  | Some st =>
      pl_parent st = [0; 0]
      ∧ pl_to_merge st = [[1]; []]
      ∧ next_reps 2 (pl_to_merge st) (pl_new_reps st) = [1; 0]
  | None => False
  end.
Proof. vm_compute. by repeat split. Qed.

(** ** The ways a round can end *)

Section round_cases.
Context `{ops : SupernodeOps}.

(** [boruvka_round], read backwards from its result. *)
Lemma boruvka_round_cases mk w g d w' g' d' r :
  boruvka_round mk w g d = (w', g', d', r) →
  ∃ sns query err,
    sample_supernodes (supernodes g) (dr_query d) (dr_reps d) = (sns, query, err)
    ∧ let gs := set_supernodes sns (set_modified false g) in
      let ds := mkDriver (dr_reps d) query (dr_backed_up d) (dr_copy d)
                         (dr_first_round d) in
      (* sampling raised *)
      (∃ e, err = Some e ∧ r = Threw e ∧ w' = w ∧ g' = gs ∧ d' = ds)
      (* the planning pass ran into an undefined [get_parent] *)
      ∨ (err = None ∧ supernodes_to_merge query (dr_reps d) gs = None
         ∧ r = Undefined ∧ w' = w ∧ g' = gs ∧ d' = ds)
      ∨ (err = None ∧ ∃ g1 reps tm,
           supernodes_to_merge query (dr_reps d) gs = Some (g1, reps, tm)
           ∧ let backing := mk && dr_first_round d in
             let bu := if backing then reps else dr_backed_up d in
             let dp := mkDriver reps query bu (dr_copy d) (dr_first_round d) in
             (* the backup file could not be written *)
             (backing && negb (copy_in_mem g1) = true
              ∧ backup_to_disk bu w g1 = None
              ∧ r = Exited ∧ w' = w ∧ g' = g1 ∧ d' = dp)
             ∨ ((if backing && negb (copy_in_mem g1)
                 then backup_to_disk bu w g1 else Some w) = Some w'
                ∧ ∃ sns2 copies err2,
                    merge_supernodes (dr_copy d) reps tm
                                     (dr_first_round d && mk) g1
                    = (sns2, copies, err2)
                    ∧ g' = set_supernodes sns2 g1
                    (* merging raised, or the round is complete *)
                    ∧ ((∃ e, err2 = Some e ∧ r = Threw e
                             ∧ d' = mkDriver reps query bu copies (dr_first_round d))
                       ∨ (err2 = None ∧ r = Returned (modified g1)
                          ∧ d' = mkDriver reps query bu copies false)))).
Proof.
  unfold boruvka_round. simpl.
  destruct (sample_supernodes _ _ _) as [[sns query] err].
  intros H. exists sns, query, err. split; [done |]. simpl.
  destruct err as [e |].
  { injection H as <- <- <- <-. left. by exists e. }
  right.
  destruct (supernodes_to_merge _ _ _) as [[[g1 reps] tm] |] eqn:Hp; simpl in H.
  2: { injection H as <- <- <- <-. by left. }
  right. split; [done |]. exists g1, reps, tm. split; [done |]. simpl.
  destruct (mk && dr_first_round d && negb (copy_in_mem g1)) eqn:Hb.
  - destruct (backup_to_disk _ w g1) as [w1 |] eqn:Hbk.
    2: { injection H as <- <- <- <-. by left. }
    right.
    destruct (merge_supernodes _ _ _ _ _) as [[sns2 copies] err2] eqn:Hm.
    destruct err2 as [e |]; injection H as <- <- <- <-;
      (split; [done |]); exists sns2, copies; eexists; (split; [done |]);
      (split; [done |]); [left; by exists e | by right].
  - right.
    destruct (merge_supernodes _ _ _ _ _) as [[sns2 copies] err2] eqn:Hm.
    destruct err2 as [e |]; injection H as <- <- <- <-;
      (split; [done |]); exists sns2, copies; eexists; (split; [done |]);
      (split; [done |]); [left; by exists e | by right].
Qed.

(** A round changes [supernodes], [parent], [size] and [modified] only, and
    the files only. *)
Lemma boruvka_round_frame mk w g d w' g' d' r :
  boruvka_round mk w g d = (w', g', d', r) →
  (num_nodes g' = num_nodes g ∧ seed g' = seed g
   ∧ update_locked g' = update_locked g ∧ copy_in_mem g' = copy_in_mem g
   ∧ backup_file g' = backup_file g)
  ∧ (open_graph w' = open_graph w ∧ workers_paused w' = workers_paused w
     ∧ read_only w' = read_only w).
Proof.
  intros (sns & query & err & Hs & Hcases)%boruvka_round_cases. simpl in Hcases.
  destruct Hcases as
    [(e & -> & -> & -> & -> & ->)
    | [(-> & Hp & -> & -> & -> & ->)
      | (-> & g1 & reps & tm & Hp & Hrest)]]; try done.
  apply supernodes_to_merge_Some in Hp as (st & _ & Hg1 & _ & _).
  assert (num_nodes g1 = num_nodes g ∧ seed g1 = seed g
          ∧ update_locked g1 = update_locked g ∧ copy_in_mem g1 = copy_in_mem g
          ∧ backup_file g1 = backup_file g) as Hf by by subst g1.
  destruct Hrest as
    [(_ & _ & -> & -> & -> & ->)
    | (Hw & sns2 & copies & err2 & _ & -> & _)]; [done |].
  split; [done |].
  destruct (_ && negb _); [| by injection Hw as <-].
  unfold backup_to_disk in Hw. destruct (read_only w) eqn:Hro; [done |].
  by injection Hw as <-.
Qed.

Lemma boruvka_loop_frame fuel mk w g d w' g' d' r :
  boruvka_loop fuel mk w g d = (w', g', d', r) →
  (num_nodes g' = num_nodes g ∧ seed g' = seed g
   ∧ update_locked g' = update_locked g ∧ copy_in_mem g' = copy_in_mem g
   ∧ backup_file g' = backup_file g)
  ∧ (open_graph w' = open_graph w ∧ workers_paused w' = workers_paused w
     ∧ read_only w' = read_only w).
Proof.
  apply (boruvka_loop_invariant
           (λ w1 g1 _,
              (num_nodes g1 = num_nodes g ∧ seed g1 = seed g
               ∧ update_locked g1 = update_locked g
               ∧ copy_in_mem g1 = copy_in_mem g
               ∧ backup_file g1 = backup_file g)
              ∧ (open_graph w1 = open_graph w
                 ∧ workers_paused w1 = workers_paused w
                 ∧ read_only w1 = read_only w))); [| done].
  intros w1 g1 d1 w2 g2 d2 r1 [(? & ? & ? & ? & ?) (? & ? & ?)] Hr.
  apply boruvka_round_frame in Hr as [(? & ? & ? & ? & ?) (? & ? & ?)].
  repeat split; congruence.
Qed.

End round_cases.

(** ** A query whose loop ends returns a list *)

Section query_returns.
Context `{ops : SupernodeOps}.
Import DSU.

(** A round of a query that snapshots to disk: the round that ends the
    first pass through the loop body has written the backup file, and no
    later round removes it. *)
Lemma boruvka_round_file w g d w' g' d' r :
  copy_in_mem g = false →
  boruvka_round true w g d = (w', g', d', r) →
  (dr_first_round d = false → is_Some (files w !! backup_file g)) →
  (∀ b, r = Returned b → dr_first_round d' = false)
  ∧ (dr_first_round d' = false → is_Some (files w' !! backup_file g)).
Proof.
  intros Hc (sns & query & err & _ & Hcases)%boruvka_round_cases Hfile.
  simpl in Hcases.
  destruct Hcases as
    [(e & -> & -> & -> & -> & ->)
    | [(-> & Hp & -> & -> & -> & ->)
      | (-> & g1 & reps & tm & Hp & Hrest)]]; try done.
  apply supernodes_to_merge_Some in Hp as (st & _ & Hg1 & _ & _).
  assert (copy_in_mem g1 = false ∧ backup_file g1 = backup_file g) as [Hc1 Hb1].
  { subst g1. by split. }
  rewrite Hc1 in Hrest. simpl in Hrest.
  destruct Hrest as
    [(_ & _ & -> & -> & -> & ->)
    | (Hw & sns2 & copies & err2 & _ & -> & Hend)]; [done |].
  assert (dr_first_round d' = false ∨ dr_first_round d' = dr_first_round d) as Hfr.
  { destruct Hend as [(e & _ & _ & ->) | (_ & _ & ->)]; [by right | by left]. }
  split.
  { intros b ->. by destruct Hend as [(e & _ & [=] & _) | (_ & _ & ->)]. }
  intros Hd'. rewrite andb_true_r in Hw.
  destruct (dr_first_round d) eqn:Hd.
  - unfold backup_to_disk in Hw. destruct (read_only w); [done |].
    injection Hw as <-. simpl. rewrite Hb1, lookup_insert_eq. eauto.
  - injection Hw as <-. by apply Hfile.
Qed.

Lemma boruvka_loop_file fuel : ∀ w g d w' g' d' u,
  copy_in_mem g = false →
  boruvka_loop fuel true w g d = (w', g', d', Returned u) →
  (dr_first_round d = false → is_Some (files w !! backup_file g)) →
  is_Some (files w' !! backup_file g).
Proof.
  induction fuel as [| fuel IH]; intros w g d w' g' d' u Hc; simpl; [done |].
  destruct (boruvka_round true w g d) as [[[w1 g1] d1] r1] eqn:Hr.
  intros Hloop Hfile.
  pose proof (boruvka_round_frame _ _ _ _ _ _ _ _ Hr) as [(_ & _ & _ & Hc1 & Hb1) _].
  destruct (boruvka_round_file _ _ _ _ _ _ _ Hc Hr Hfile) as [Hdone Hfile1].
  destruct r1 as [[] | | | |]; try done.
  - rewrite <- Hb1. eapply IH; [congruence | exact Hloop |].
    rewrite Hb1. exact Hfile1.
  - injection Hloop as <- <- <- <-. apply Hfile1. by eapply Hdone.
Qed.

(** When the loop has ended normally, the grouping pass and [cleanup_copy]
    go through, and [boruvka_emulation] returns the list of the grouping
    pass. *)
Lemma boruvka_emulation_returns fuel mk w g w1 g1 d1 u :
  graph_wf g →
  boruvka_loop fuel mk w
    (set_size (replicate (num_nodes g) 1) (set_update_locked true g))
    (init_driver mk (set_update_locked true g)) = (w1, g1, d1, Returned u) →
  graph_wf g1 ∧ num_nodes g1 = num_nodes g
  ∧ ∃ p' ret g',
      components (num_nodes g1) (parent g1) = Some (p', ret)
      ∧ cleanup_copy mk w1 (set_parent p' g1) d1 = Some g'
      ∧ boruvka_emulation fuel mk w g = (w1, g', d1, Returned ret).
Proof.
  intros Hwf Hloop.
  assert (graph_wf (set_size (replicate (num_nodes g) 1)
                      (set_update_locked true g))) as Hwf0.
  { destruct Hwf as (? & ? & ? & ?). repeat split; simpl; try done.
    by rewrite length_replicate. }
  pose proof (boruvka_loop_wf _ _ _ _ _ _ _ _ _ Hwf0 Hloop) as [Hwf1 Hn1].
  pose proof (boruvka_loop_frame _ _ _ _ _ _ _ _ _ Hloop)
    as [(_ & _ & _ & Hc1 & Hb1) _].
  simpl in Hn1, Hc1, Hb1. split; [done |]. split; [done |].
  destruct Hwf1 as (_ & Hpl & _ & Hpw).
  destruct (components_spec (num_nodes g1) (parent g1) Hpl Hpw)
    as (p' & ret & Hcomp & _).
  assert (∃ g', cleanup_copy mk w1 (set_parent p' g1) d1 = Some g') as [g' Hcl].
  { unfold cleanup_copy. destruct mk; [| eauto].
    cbn [copy_in_mem set_parent].
    destruct (copy_in_mem g1) eqn:Hcim; [eauto |].
    unfold restore_from_disk. cbn [backup_file set_parent].
    destruct (boruvka_loop_file fuel w
                (set_size (replicate (num_nodes g) 1) (set_update_locked true g))
                (init_driver true (set_update_locked true g)) w1 g1 d1 u)
      as [bs Hbs]; [simpl; congruence | exact Hloop | done |].
    simpl in Hbs. rewrite Hb1, Hbs. eauto. }
  exists p', ret, g'. split; [done |]. split; [done |].
  unfold boruvka_emulation.
  change (num_nodes (set_update_locked true g)) with (num_nodes g).
  rewrite Hloop. destruct u. unfold finish_query. by rewrite Hcomp, Hcl.
Qed.

(** [boruvka_emulation] returns a list only from the path that leaves the
    loop normally. *)
Lemma boruvka_emulation_returned_loop fuel mk w g ret :
  (boruvka_emulation fuel mk w g).2 = Returned ret →
  (boruvka_loop fuel mk w
     (set_size (replicate (num_nodes g) 1) (set_update_locked true g))
     (init_driver mk (set_update_locked true g))).2 = Returned ().
Proof.
  unfold boruvka_emulation.
  change (num_nodes (set_update_locked true g)) with (num_nodes g).
  destruct (boruvka_loop _ _ _ _ _) as [[[w1 g1] d1] r1].
  unfold finish_query. destruct r1 as [[] | e | | |]; try done.
  by destruct (cleanup_copy _ _ _ _).
Qed.

End query_returns.

(** C1. In every well-formed graph state the grouping pass at the end of
    [boruvka_emulation] produces a list, and the list is a partition of the
    vertex set [[0, N)]: every vertex is in a set, no set holds anything
    else, no vertex is in two sets; each set is exactly the class of one
    root of the disjoint-set forest as [get_parent] computes it.
    [boruvka_emulation] and [connected_components] return a list exactly
    when the loop of the query ends normally, and the list they return is
    such a partition. *)
Theorem returned_list_is_partition `{ops : SupernodeOps} fuel w g :
  graph_wf g →
  (∃ p' sets, components (num_nodes g) (parent g) = Some (p', sets)
              ∧ is_partition (num_nodes g) sets
              ∧ grouped_by_root (num_nodes g) (parent g) sets
              ∧ grouped_by_root (num_nodes g) p' sets)
  ∧ (∀ make_copy,
       ((boruvka_loop fuel make_copy w
           (set_size (replicate (num_nodes g) 1) (set_update_locked true g))
           (init_driver make_copy (set_update_locked true g))).2 = Returned ()
        ↔ ∃ ret, (boruvka_emulation fuel make_copy w g).2 = Returned ret)
       ∧ ∀ w' g' d' ret,
           boruvka_emulation fuel make_copy w g = (w', g', d', Returned ret) →
           is_partition (num_nodes g) ret
           ∧ grouped_by_root (num_nodes g) (parent g') ret)
  ∧ (∀ cont,
       ((boruvka_loop fuel cont (drain w)
           (set_size (replicate (num_nodes g) 1) (set_update_locked true g))
           (init_driver cont (set_update_locked true g))).2 = Returned ()
        ↔ ∃ ret, (connected_components fuel cont w g).2 = Returned ret)
       ∧ ∀ ret, (connected_components fuel cont w g).2 = Returned ret →
                is_partition (num_nodes g) ret).
Proof.
  intros Hwf.
  assert (∀ mk w0,
    ((boruvka_loop fuel mk w0
        (set_size (replicate (num_nodes g) 1) (set_update_locked true g))
        (init_driver mk (set_update_locked true g))).2 = Returned ()
     ↔ ∃ ret, (boruvka_emulation fuel mk w0 g).2 = Returned ret)
    ∧ ∀ w' g' d' ret,
        boruvka_emulation fuel mk w0 g = (w', g', d', Returned ret) →
        is_partition (num_nodes g) ret
        ∧ grouped_by_root (num_nodes g) (parent g') ret) as Hem.
  { intros mk w0. split; [split |].
    - destruct (boruvka_loop _ _ _ _ _) as [[[w1 g1] d1] r1] eqn:Hloop.
      simpl. intros ->.
      destruct (boruvka_emulation_returns _ _ _ _ _ _ _ _ Hwf Hloop)
        as (_ & _ & p' & ret & g' & _ & _ & Hem).
      exists ret. by rewrite Hem.
    - intros [ret Hret]. by eapply boruvka_emulation_returned_loop.
    - intros w' g' d' ret Hem.
      pose proof (boruvka_emulation_returned fuel mk w0 g Hwf) as H.
      rewrite Hem in H. by destruct H as (_ & ? & ?). }
  split; [| split; [intros mk; apply Hem |]].
  - destruct Hwf as (_ & Hpl & _ & Hpw).
    destruct (components_spec (num_nodes g) (parent g) Hpl Hpw)
      as (p' & sets & Hcomp & Hk & Hpart & Hgrp).
    exists p', sets. split_and!; try done. by eapply grouped_by_root_kept.
  - intros cont. destruct (Hem cont (drain w)) as [Hiff Hpart].
    assert (∀ ret, (connected_components fuel cont w g).2 = Returned ret
                   ↔ (boruvka_emulation fuel cont (drain w) g).2 = Returned ret)
      as Hcc.
    { intros ret. unfold connected_components.
      destruct cont; simpl;
        destruct (boruvka_emulation _ _ _ _) as [[[w1 g1] d1] [ret' | | | |]];
        simpl; done. }
    split.
    + rewrite Hiff. split; intros [ret Hret]; exists ret; by apply Hcc.
    + intros ret Hret%Hcc.
      destruct (boruvka_emulation fuel cont (drain w) g) as [[[w1 g1] d1] r1] eqn:Hem'.
      simpl in Hret. subst r1. by destruct (Hpart _ _ _ _ eq_refl).
Qed.

Lemma returned_list_is_partition_witness :
  (∃ p' sets, components 4 (parent Demo.path4.2) = Some (p', sets)
              ∧ is_partition 4 sets
              ∧ grouped_by_root 4 (parent Demo.path4.2) sets
              ∧ grouped_by_root 4 p' sets)
  ∧ (∀ make_copy,
       ∃ w' g' d' ret,
         boruvka_emulation 10 make_copy Demo.path4.1 Demo.path4.2
         = (w', g', d', Returned ret)
         ∧ is_partition 4 ret ∧ grouped_by_root 4 (parent g') ret)
  ∧ (∀ cont,
       ∃ ret, (connected_components 10 cont Demo.path4.1 Demo.path4.2).2
              = Returned ret
              ∧ is_partition 4 ret).
Proof.
  destruct (returned_list_is_partition 10 Demo.path4.1 Demo.path4.2)
    as (Hgroup & Hem & Hcc); [repeat split; reflexivity |].
  split; [exact Hgroup |]. split.
  - intros mk. destruct (Hem mk) as [Hiff Hpart].
    destruct (proj1 Hiff) as [ret Hret]; [by destruct mk |].
    destruct (boruvka_emulation 10 mk Demo.path4.1 Demo.path4.2)
      as [[[w' g'] d'] r] eqn:Heq.
    simpl in Hret. subst r. exists w', g', d', ret. split; [done |].
    by apply (Hpart w' g' d').
  - intros cont. destruct (Hcc cont) as [Hiff Hpart].
    destruct (proj1 Hiff) as [ret Hret]; [by destruct cont |].
    exists ret. split; [done |]. by apply Hpart.
Defined.

(** ** The ingest lock and the state after a query *)

Section lock_facts.
Context `{ops : SupernodeOps}.

Lemma boruvka_emulation_frame fuel mk w g :
  match boruvka_emulation fuel mk w g with
  | (w', g', _, _) =>
      update_locked g' = true ∧ num_nodes g' = num_nodes g
      ∧ workers_paused w' = workers_paused w
  end.
Proof.
  unfold boruvka_emulation, finish_query.
  destruct (boruvka_loop _ _ _ _ _) as [[[w1 g1] d1] r1] eqn:Hloop.
  apply boruvka_loop_frame in Hloop as [(Hn & _ & Hl & _) (_ & Hp & _)].
  simpl in Hn, Hl.
  destruct r1 as [[] | e | | |]; try done.
  - destruct (components _ _) as [[p' sets] |]; [| done].
    destruct (cleanup_copy _ _ _ _) as [g2 |] eqn:Hc; [| done].
    by apply cleanup_copy_fields in Hc as [sns ->].
  - destruct (cleanup_copy _ _ _ _) as [g2 |] eqn:Hc; [| done].
    by apply cleanup_copy_fields in Hc as [sns ->].
Qed.

Lemma batch_update_locked src edges g :
  update_locked g = true →
  batch_update src edges g = (g, Threw UpdateLockedException).
Proof. intros H. unfold batch_update. by rewrite H. Qed.

Lemma batch_update_unlocked src edges g :
  update_locked g = false →
  (batch_update src edges g).2 ≠ Threw UpdateLockedException.
Proof.
  intros H. unfold batch_update. rewrite H.
  by destruct (supernodes g !! src).
Qed.

(** The loop of lines 354-358. *)
Lemma reset_all g n :
  length (supernodes g) = n → length (parent g) = n → length (size g) = n →
  let g' := foldl reset_one g (seq 0 n) in
  parent g' = DSU.identity n
  ∧ size g' = replicate n 1
  ∧ supernodes g' = map sn_reset_query_state (supernodes g)
  ∧ num_nodes g' = num_nodes g
  ∧ update_locked g' = update_locked g.
Proof.
  intros Hs Hp Hz.
  assert (∀ k, k ≤ n →
    let gk := foldl reset_one g (seq 0 k) in
    length (supernodes gk) = n ∧ length (parent gk) = n ∧ length (size gk) = n
    ∧ (∀ i, i < k → parent gk !! i = Some i ∧ size gk !! i = Some 1
                    ∧ supernodes gk !! i
                      = sn_reset_query_state <$> supernodes g !! i)
    ∧ (∀ i, k ≤ i → supernodes gk !! i = supernodes g !! i)
    ∧ num_nodes gk = num_nodes g ∧ update_locked gk = update_locked g) as H.
  { induction k as [| k IH]; intros Hk.
    { simpl. repeat split; try done; intros; lia. }
    rewrite seq_S, foldl_app. simpl.
    destruct IH as (Hs' & Hp' & Hz' & Hlt & Hge & Hn' & Hl'); [lia |].
    set (gk := foldl reset_one g (seq 0 k)) in *.
    unfold reset_one; simpl.
    rewrite length_alter, !length_insert.
    repeat split; try done.
    - destruct (decide (i = k)) as [-> | ?].
      + apply list_lookup_insert_eq. lia.
      + rewrite list_lookup_insert_ne by done. apply Hlt. lia.
    - destruct (decide (i = k)) as [-> | ?].
      + apply list_lookup_insert_eq. lia.
      + rewrite list_lookup_insert_ne by done. apply Hlt. lia.
    - destruct (decide (i = k)) as [-> | ?].
      + rewrite list_lookup_alter_eq. by rewrite Hge.
      + rewrite list_lookup_alter_ne by done. apply Hlt. lia.
    - intros i Hi. rewrite list_lookup_alter_ne by lia. apply Hge. lia. }
  destruct (H n) as (Hs' & Hp' & Hz' & Hlt & _ & Hn' & Hl'); [lia |].
  simpl. repeat split; try done.
  - apply list_eq. intros i. unfold DSU.identity.
    destruct (decide (i < n)) as [Hi | Hi].
    + rewrite lookup_seq_lt by done. by apply Hlt.
    + rewrite !lookup_ge_None_2; [done | rewrite length_seq; lia | lia].
  - apply list_eq. intros i.
    destruct (decide (i < n)) as [Hi | Hi].
    + rewrite lookup_replicate_2 by done. by apply Hlt.
    + rewrite !lookup_ge_None_2; [done | rewrite length_replicate; lia | lia].
  - apply list_eq. intros i. rewrite list_lookup_fmap.
    destruct (decide (i < n)) as [Hi | Hi].
    + by apply Hlt.
    + rewrite !lookup_ge_None_2; [done | lia | lia].
Qed.

Lemma restore_copy_length copies sns i :
  length (restore_copy copies sns i) = length sns.
Proof.
  unfold restore_copy. destruct (copies !! i) as [[c |] |]; try done.
  by rewrite length_insert.
Qed.

Lemma cleanup_copy_length mk w g d g' :
  cleanup_copy mk w g d = Some g' → length (supernodes g') = length (supernodes g).
Proof.
  unfold cleanup_copy. destruct mk; [| by intros [= <-]].
  destruct (copy_in_mem g).
  - intros [= <-]. simpl.
    apply (foldl_invariant (λ sns, length sns = length (supernodes g))); [done |].
    intros sns i Hl _. by rewrite restore_copy_length.
  - unfold restore_from_disk. destruct (files w !! backup_file g); [| done].
    intros [= <-]. simpl.
    apply (foldl_invariant (λ acc, length acc.1 = length (supernodes g))); [done |].
    intros [sns bs] i Hl _. unfold restore_one. simpl.
    destruct (sn_read _ _ _). simpl. by rewrite length_insert.
Qed.

(** Whenever [boruvka_emulation] returns or raises, the arrays still have
    [num_nodes] slots. *)
Lemma boruvka_emulation_wf fuel mk w g :
  graph_wf g →
  match boruvka_emulation fuel mk w g with
  | (_, g', _, Returned _) | (_, g', _, Threw _) => graph_wf g'
  | _ => True
  end.
Proof.
  intros Hwf. unfold boruvka_emulation, finish_query.
  destruct (boruvka_loop _ _ _ _ _) as [[[w1 g1] d1] r1] eqn:Hloop.
  apply boruvka_loop_wf in Hloop as [Hwf1 Hn1]; last first.
  { destruct Hwf as (? & ? & ? & ?). repeat split; simpl; try done.
    by rewrite length_replicate. }
  destruct r1 as [[] | e | | |]; try done.
  - destruct Hwf1 as (Hsl & Hpl & Hzl & Hpw).
    destruct (components_spec (num_nodes g1) (parent g1) Hpl Hpw)
      as (p' & sets & -> & [Hlen Hk] & _ & _).
    destruct (cleanup_copy _ _ _ _) as [g2 |] eqn:Hc; [| done].
    pose proof (cleanup_copy_length _ _ _ _ _ Hc) as Hl2.
    apply cleanup_copy_fields in Hc as [sns ->]. simpl in *.
    repeat split; simpl; try congruence.
    eapply roots_kept_wf; [| exact Hpw]. by split.
  - destruct (cleanup_copy _ _ _ _) as [g2 |] eqn:Hc; [| done].
    pose proof (cleanup_copy_length _ _ _ _ _ Hc) as Hl2.
    apply cleanup_copy_fields in Hc as [sns ->]. simpl in *.
    destruct Hwf1 as (? & ? & ? & ?). repeat split; simpl; congruence.
Qed.

End lock_facts.

(** C10. After every resumable call of [connected_components], whether it
    returns the partition or rethrows an exception, the engine is
    initialised for further ingest: [parent[i] == i] and [size[i] == 1] for
    every vertex, every supernode has been put through
    [reset_query_state], [update_locked] is false and the workers are
    unpaused. *)
Theorem resumable_query_reinitialises `{ops : SupernodeOps} fuel w g :
  graph_wf g →
  match connected_components fuel true w g with
  | (w', g', Returned _) | (w', g', Threw _) =>
      parent g' = DSU.identity (num_nodes g)
      ∧ size g' = replicate (num_nodes g) 1
      ∧ (∃ sns, length sns = num_nodes g
                ∧ supernodes g' = map sn_reset_query_state sns)
      ∧ update_locked g' = false
      ∧ workers_paused w' = false
  | _ => True
  end.
Proof.
  intros Hwf. unfold connected_components. simpl.
  pose proof (boruvka_emulation_wf fuel true (drain w) g Hwf) as Hwf'.
  pose proof (boruvka_emulation_frame fuel true (drain w) g) as Hfr.
  destruct (boruvka_emulation _ _ _ _) as [[[w1 g1] d1] r1].
  destruct Hfr as (_ & Hn & _).
  destruct r1 as [ret | e | | |]; try done;
    destruct Hwf' as (Hs & Hp & Hz & _);
    destruct (reset_all g1 (num_nodes g1) Hs Hp Hz) as (Hp' & Hz' & Hs' & _ & _);
    simpl in *; rewrite Hp', Hz', Hs', Hn; repeat split; try done;
    exists (supernodes g1); (split; [congruence | done]).
Qed.

Lemma resumable_query_reinitialises_witness :
  match connected_components 10 true Demo.path4.1 Demo.path4.2 with
  | (w', g', Returned _) | (w', g', Threw _) =>
      parent g' = DSU.identity 4
      ∧ size g' = replicate 4 1
      ∧ (∃ sns, length sns = 4
                ∧ supernodes g' = map sn_reset_query_state sns)
      ∧ update_locked g' = false
      ∧ workers_paused w' = false
  | _ => True
  end.
Proof.
  apply (resumable_query_reinitialises 10 Demo.path4.1 Demo.path4.2).
  repeat split; reflexivity.
Defined.

(** ** The ingest lock after an in-place query *)

Lemma run_call_keeps_lock `{ops : SupernodeOps} nb vb wg c :
  resumable_query c = false → update_locked wg.2 = true →
  update_locked (run_call nb vb wg c).2 = true.
Proof.
  destruct wg as [w g]. destruct c as [src edges | fuel [|] | filename];
    simpl; intros Hc Hl; try done.
  - by rewrite batch_update_locked.
  - pose proof (boruvka_emulation_frame fuel false (drain w) g) as Hfr.
    unfold connected_components. simpl.
    destruct (boruvka_emulation _ _ _ _) as [[[w1 g1] d1] r1]. by destruct Hfr.
Qed.

(** C9, as the code has it.  After a non-resumable query returns,
    [update_locked] is true and stays true through every later
    [batch_update], [write_binary] and non-resumable query, so that every
    [batch_update] in between throws [UpdateLockedException] although no
    query is in progress.  (A later resumable query is the one call that
    clears the flag.) *)
Theorem lock_held_until_resumable_query `{ops : SupernodeOps} nb vb fuel w g :
  match connected_components fuel false w g with
  | (w1, g1, Returned _) =>
      ∀ calls, forallb (λ c, negb (resumable_query c)) calls = true →
        let g2 := (foldl (run_call nb vb) (w1, g1) calls).2 in
        update_locked g2 = true
        ∧ ∀ src edges,
            batch_update src edges g2 = (g2, Threw UpdateLockedException)
  | _ => True
  end.
Proof.
  unfold connected_components. simpl.
  pose proof (boruvka_emulation_frame fuel false (drain w) g) as Hfr.
  destruct (boruvka_emulation _ _ _ _) as [[[w1 g1] d1] [ret | | | |]]; try done.
  destruct Hfr as (Hl & _). intros calls Hcalls.
  assert (update_locked (foldl (run_call nb vb) (w1, g1) calls).2 = true) as H.
  { assert (update_locked (w1, g1).2 = true) as Hl' by done.
    revert Hcalls Hl'. generalize (w1, g1). clear.
    induction calls as [| c calls IH]; intros wg; simpl; [done |].
    intros [Hc Hcalls]%andb_prop Hl. apply IH; [done |].
    apply run_call_keeps_lock; [| done]. by destruct (resumable_query c). }
  split; [done |]. intros src edges. by apply batch_update_locked.
Qed.

Lemma lock_held_until_resumable_query_witness :
  match connected_components 10 false Demo.path4.1 Demo.path4.2 with
  | (w1, g1, Returned _) =>
      let g2 := (foldl (run_call 4 8) (w1, g1)
                   [BatchUpdate 0 [3]; WriteBinary "/tmp/g.bin"; Query 10 false]).2 in
      update_locked g2 = true
      ∧ ∀ src edges,
          batch_update src edges g2 = (g2, Threw UpdateLockedException)
  | _ => True
  end.
Proof.
  pose proof (lock_held_until_resumable_query 4 8 10 Demo.path4.1 Demo.path4.2) as H.
  destruct (connected_components 10 false Demo.path4.1 Demo.path4.2)
    as [[w1 g1] [ret | | | |]]; try done.
  apply (H [BatchUpdate 0 [3]; WriteBinary "/tmp/g.bin"; Query 10 false]).
  reflexivity.
Defined.

(** C9 as stated fails: a resumable query after the non-resumable one
    returns and clears [update_locked], and the next [batch_update] is
    applied. *)
Lemma lock_released_by_later_resumable_query :
  match connected_components 10 false Demo.path4.1 Demo.path4.2 with
  | (w1, g1, r1) =>
      match connected_components 10 true w1 g1 with
      | (w2, g2, r2) =>
          (∃ ret, r1 = Returned ret) ∧ update_locked g1 = true
          ∧ (∃ ret, r2 = Returned ret) ∧ update_locked g2 = false
          ∧ (batch_update 0 [1] g2).2 = Returned ()
      end
  end.
Proof. vm_compute. repeat split; eauto. Qed.

(** ** An exception in a resumable query *)

(** C5, as the code has it.  When a resumable query ends by an exception,
    the exception leaves the driver loop, [cleanup_copy] restores the
    snapshots, and [connected_components] then resets the forest, clears
    [update_locked], unpauses the workers and only then rethrows: ingest is
    open again, and a later [batch_update] does not throw
    [UpdateLockedException]. *)
Theorem rethrown_after_restore_and_unlock `{ops : SupernodeOps} fuel w g :
  match connected_components fuel true w g with
  | (w', g', Threw e) =>
      (∃ w1 g1 d1 g2,
         boruvka_loop fuel true (drain w)
           (set_size (replicate (num_nodes g) 1) (set_update_locked true g))
           (init_driver true (set_update_locked true g))
         = (w1, g1, d1, Threw e)
         ∧ cleanup_copy true w1 g1 d1 = Some g2
         ∧ g' = set_update_locked false
                  (foldl reset_one g2 (seq 0 (num_nodes g2)))
         ∧ w' = set_workers_paused false w1)
      ∧ update_locked g' = false
      ∧ workers_paused w' = false
      ∧ ∀ src edges,
          (batch_update src edges g').2 ≠ Threw UpdateLockedException
  | _ => True
  end.
Proof.
  unfold connected_components, boruvka_emulation, finish_query.
  change (negb true) with false. cbv iota.
  change (num_nodes (set_update_locked true g)) with (num_nodes g).
  destruct (boruvka_loop _ _ _ _ _) as [[[w1 g1] d1] r1] eqn:Hloop.
  destruct r1 as [[] | e | | |]; try done.
  - destruct (components _ _) as [[p' sets] |]; [| done].
    by destruct (cleanup_copy _ _ _ _).
  - destruct (cleanup_copy _ _ _ _) as [g2 |] eqn:Hc; [| done].
    split; [by exists w1, g1, d1, g2 |]. repeat split; try done.
    intros src edges. by apply batch_update_unlocked.
Qed.

(** C5 as stated fails: the query below raises in round one, and afterwards
    the graph is unlocked and accepts a batch. *)
Lemma ingest_open_after_failed_resumable_query :
  match connected_components 10 true Demo.edge2_broken.1 Demo.edge2_broken.2 with
  | (w', g', r) =>
      r = Threw NoGoodBucketException
      ∧ update_locked g' = false
      ∧ (batch_update 0 [1] g').2 = Returned ()
  end.
Proof. vm_compute. by repeat split. Qed.

(** ** The snapshot of a resumable query *)

Section snapshot_facts.
Context `{ops : SupernodeOps}.

Lemma plan_step_new_reps query st i st' :
  plan_step query st i = Some st' →
  pl_new_reps st' =
    pl_new_reps st ++ (if decide ((query_at query i).2 = FAIL) then [i] else []).
Proof.
  unfold plan_step. destruct (query_at query i) as [[x y] []]; simpl.
  - destruct (DSU.get_parent _ _ x) as [[a p1] |]; simpl; [| done].
    destruct (DSU.get_parent _ p1 y) as [[b p2] |]; simpl; [| done].
    case_decide; intros [= <-]; simpl; [by rewrite app_nil_r |].
    unfold union_roots. simpl. case_decide; simpl; by rewrite app_nil_r.
  - intros [= <-]. by rewrite app_nil_r.
  - by intros [= <-].
Qed.

Lemma plan_loop_new_reps query reps : ∀ st st',
  plan_loop query st reps = Some st' →
  pl_new_reps st' =
    pl_new_reps st ++ filter (λ i, (query_at query i).2 = FAIL) reps.
Proof.
  induction reps as [| i reps IH]; intros st st'; simpl.
  - intros [= <-]. by rewrite app_nil_r.
  - destruct (plan_step query st i) as [st1 |] eqn:Hs; simpl; [| done].
    intros H. rewrite (IH _ _ H), (plan_step_new_reps _ _ _ _ Hs), filter_cons.
    case_decide; by rewrite <- app_assoc.
Qed.

Lemma next_reps_NoDup n tm new_reps :
  NoDup new_reps → NoDup (next_reps n tm new_reps).
Proof.
  intros Hnd. unfold next_reps. apply NoDup_app. split; [| split].
  - by apply NoDup_filter.
  - intros a [Ha _]%list_elem_of_filter [Ha' _]%list_elem_of_filter. congruence.
  - apply NoDup_filter, NoDup_seq.
Qed.

Lemma next_reps_lt n tm new_reps a :
  (∀ b, b ∈ new_reps → b < n) → a ∈ next_reps n tm new_reps → a < n.
Proof.
  intros Hlt. unfold next_reps.
  intros [[_ Ha]%list_elem_of_filter | [_ Ha]%list_elem_of_filter]%elem_of_app.
  - by apply Hlt.
  - apply elem_of_seq in Ha. lia.
Qed.

(** The representative list that a planning pass produces from a list
    without repetitions has none, and holds vertex ids. *)
Lemma supernodes_to_merge_reps query reps g g' reps' tm :
  supernodes_to_merge query reps g = Some (g', reps', tm) →
  NoDup reps → (∀ a, a ∈ reps → a < num_nodes g) →
  NoDup reps' ∧ ∀ a, a ∈ reps' → a < num_nodes g.
Proof.
  intros (st & Hst & _ & -> & _)%supernodes_to_merge_Some Hnd Hlt.
  apply plan_loop_new_reps in Hst. simpl in Hst. split.
  - apply next_reps_NoDup. rewrite Hst. by apply NoDup_filter.
  - intros a. apply next_reps_lt. intros b. rewrite Hst.
    intros [_ Hb]%list_elem_of_filter. by apply Hlt.
Qed.

Lemma merge_into_other a bs j : ∀ sns,
  j ≠ a → (merge_into sns a bs).1 !! j = sns !! j.
Proof.
  induction bs as [| b bs IH]; intros sns Hj; simpl; [done |].
  destruct (sns !! a), (sns !! b); try done.
  destruct (sn_merge _ _) as [sa' [e |]]; simpl.
  - by rewrite list_lookup_insert_ne.
  - rewrite IH by done. by rewrite list_lookup_insert_ne.
Qed.

(** With [copying], [merge_supernodes] clones every representative before
    anything is merged into it, and nothing else. *)
Lemma merge_copies tm (s0 : list Supernode) (l : list nat) :
  ∀ sa ca ea sf cf ef,
    foldl (merge_one true tm) (sa, ca, ea) l = (sf, cf, ef) →
    NoDup l → (∀ a, a ∈ l → sa !! a = s0 !! a ∧ a < length ca) →
    ∀ i, cf !! i = if decide (i ∈ l) then Some (s0 !! i) else ca !! i.
Proof.
  induction l as [| a l IH]; intros sa ca ea sf cf ef; simpl foldl.
  - intros [= <- <- <-] _ _ i. case_decide; [set_solver | done].
  - intros Hf Hnd Hl i. apply NoDup_cons in Hnd as [Ha Hnd].
    destruct (merge_into sa a (at_ [] tm a)) as [sa' e] eqn:Hm.
    assert (∀ j, j ≠ a → sa' !! j = sa !! j) as Hoth.
    { intros j Hj. pose proof (merge_into_other a (at_ [] tm a) j sa Hj) as H.
      by rewrite Hm in H. }
    destruct (Hl a) as [Hsa Hlen]; [by left |].
    assert (∃ ea', foldl (merge_one true tm) (sa', <[a := sa !! a]> ca, ea') l
                   = (sf, cf, ef)) as [ea' Hf'].
    { destruct e; eauto. }
    rewrite (IH _ _ _ _ _ _ Hf' Hnd); last first.
    { intros b Hb. rewrite length_insert. split.
      - rewrite Hoth by set_solver. apply Hl. by right.
      - apply Hl. by right. }
    destruct (decide (i = a)) as [-> | Hia].
    + rewrite decide_False by done. rewrite decide_True by by left.
      rewrite list_lookup_insert_eq by done. by rewrite Hsa.
    + rewrite list_lookup_insert_ne by done.
      repeat case_decide; set_solver.
Qed.

Lemma merge_no_copies tm (l : list nat) :
  ∀ sa (ca : list (option Supernode)) ea sf cf ef,
    foldl (merge_one false tm) (sa, ca, ea) l = (sf, cf, ef) → cf = ca.
Proof.
  induction l as [| a l IH]; intros sa ca ea sf cf ef; simpl.
  - by intros [= <- <- <-].
  - destruct (merge_into sa a (at_ [] tm a)) as [sa' [e |]]; apply IH.
Qed.

(** Restoring from the clones. *)
Lemma restore_copies (copies : list (option Supernode)) (l : list nat) :
  ∀ sns,
    (∀ i, i ∈ l → i < length sns ∧ ∃ c, copies !! i = Some (Some c)) →
    ∀ i, foldl (restore_copy copies) sns l !! i =
         if decide (i ∈ l) then mjoin (copies !! i) else sns !! i.
Proof.
  induction l as [| a l IH]; intros sns Hl i; simpl foldl.
  - case_decide; [set_solver | done].
  - destruct (Hl a) as (Ha & c & Hc); [by left |].
    rewrite IH; last first.
    { intros j Hj. rewrite restore_copy_length. apply Hl. by right. }
    unfold restore_copy at 1. rewrite Hc.
    destruct (decide (i = a)) as [-> | Hia].
    + rewrite (decide_True (P := a ∈ a :: l)) by by left.
      case_decide; [done |].
      rewrite list_lookup_insert_eq by done. by rewrite Hc.
    + rewrite list_lookup_insert_ne by done.
      repeat case_decide; set_solver.
Qed.

End snapshot_facts.

Section snapshot_rounds.
Context `{ops : SupernodeOps}.

(** What the first round of a resumable query leaves in the locals. *)
Lemma first_round_snapshot w g w1 g1 d1 r :
  graph_wf g →
  boruvka_round true w
    (set_size (replicate (num_nodes g) 1) (set_update_locked true g))
    (init_driver true (set_update_locked true g)) = (w1, g1, d1, r) →
  dr_backed_up d1 = snapshot_ids g
  ∧ (r = Returned true → dr_first_round d1 = false)
  ∧ (copy_in_mem g = true →
     ∀ i, dr_copy d1 !! i =
          match first_round_plan g with
          | Some (sns, reps) =>
              if decide (i ∈ reps) then Some (sns !! i)
              else replicate (num_nodes g) None !! i
          | None => replicate (num_nodes g) None !! i
          end)
  ∧ (copy_in_mem g = false → r ≠ Exited →
     ∀ sns reps, first_round_plan g = Some (sns, reps) →
       files w1 !! backup_file g
       = Some (concat (map sn_write (omap (λ i, sns !! i) reps)))).
Proof.
  intros Hwf Hr.
  apply boruvka_round_cases in Hr as (sns & query & err & Hs & Hcases).
  unfold snapshot_ids, first_round_plan. simpl in Hs, Hcases. rewrite Hs.
  destruct Hcases as
    [(e & -> & -> & -> & -> & ->)
    | [(-> & Hp & -> & -> & -> & ->)
      | (-> & g2 & reps & tm & Hp & Hrest)]].
  - simpl. split; [done |]. split; [done |].
    split; [intros Hc i; by rewrite Hc | by intros _ _ ? ? [=]].
  - rewrite Hp. simpl. split; [done |]. split; [done |].
    split; [intros Hc i; by rewrite Hc | by intros _ _ ? ? [=]].
  - rewrite Hp.
    pose proof (sample_supernodes_length (supernodes g)
                  (replicate (num_nodes g) (0, 0, ZERO)) (seq 0 (num_nodes g)))
      as Hlen.
    rewrite Hs in Hlen. simpl in Hlen.
    pose proof Hp as Hreps.
    apply supernodes_to_merge_reps in Hreps as [Hnd Hlt]; simpl;
      [| apply NoDup_seq | intros a Ha%elem_of_seq; lia].
    apply supernodes_to_merge_Some in Hp as (st & _ & Hg2 & _ & _).
    assert (supernodes g2 = sns ∧ copy_in_mem g2 = copy_in_mem g
            ∧ backup_file g2 = backup_file g) as (Hs2 & Hc2 & Hb2) by by subst g2.
    destruct Hwf as (Hsl & _).
    simpl in Hrest. rewrite Hc2 in Hrest.
    destruct Hrest as
      [(Hb & _ & -> & -> & -> & ->)
      | (Hw & sns2 & copies & err2 & Hm & -> & Hend)].
    + simpl. split; [done |]. split; [done |].
      split; [intros Hc; by rewrite Hc in Hb | by intros _ []].
    + assert (dr_backed_up d1 = reps ∧ dr_copy d1 = copies
              ∧ (r = Returned true → dr_first_round d1 = false))
        as (Hbu & Hcp & Hfr).
      { destruct Hend as [(e & _ & -> & ->) | (_ & -> & ->)]; by repeat split. }
      rewrite Hbu, Hcp. split; [done |]. split; [done |]. split.
      * intros Hc i. unfold merge_supernodes in Hm. rewrite Hc2, Hc, Hs2 in Hm.
        simpl in Hm. rewrite (merge_copies _ sns _ _ _ _ _ _ _ Hm Hnd); [done |].
        intros a Ha. split; [done |]. rewrite length_replicate. by apply Hlt.
      * intros Hc _ sns' reps' [= <- <-]. rewrite Hc in Hw. simpl in Hw.
        unfold backup_to_disk in Hw. destruct (read_only w); [done |].
        injection Hw as <-. simpl. rewrite Hb2, Hs2. apply lookup_insert_eq.
Qed.

(** After round one the snapshot is not touched again. *)
Lemma later_round_snapshot mk w g d w' g' d' r :
  dr_first_round d = false →
  boruvka_round mk w g d = (w', g', d', r) →
  dr_first_round d' = false ∧ dr_backed_up d' = dr_backed_up d
  ∧ dr_copy d' = dr_copy d ∧ w' = w.
Proof.
  intros Hfr (sns & query & err & Hs & Hcases)%boruvka_round_cases.
  simpl in Hcases. rewrite Hfr, andb_false_r in Hcases. simpl in Hcases.
  destruct Hcases as
    [(e & -> & -> & -> & -> & ->)
    | [(-> & Hp & -> & -> & -> & ->)
      | (-> & g2 & reps & tm & Hp & Hrest)]]; try done.
  destruct Hrest as
    [([=] & _)
    | ([= <-] & sns2 & copies & err2 & Hm & -> & Hend)].
  unfold merge_supernodes in Hm. simpl in Hm.
  apply merge_no_copies in Hm as ->.
  destruct Hend as [(e & _ & -> & ->) | (_ & -> & ->)]; by repeat split.
Qed.

Lemma later_rounds_snapshot fuel mk w g d w' g' d' r :
  dr_first_round d = false →
  boruvka_loop fuel mk w g d = (w', g', d', r) →
  dr_backed_up d' = dr_backed_up d ∧ dr_copy d' = dr_copy d ∧ w' = w.
Proof.
  intros Hfr Hloop.
  apply (boruvka_loop_invariant
           (λ w1 _ d1, dr_first_round d1 = false
                       ∧ dr_backed_up d1 = dr_backed_up d
                       ∧ dr_copy d1 = dr_copy d ∧ w1 = w)) in Hloop;
    [by destruct Hloop as (_ & ? & ? & ?) | | done].
  intros w1 g1 d1 w2 g2 d2 r1 (Hf1 & Hb1 & Hc1 & ->) Hr.
  apply later_round_snapshot in Hr as (? & ? & ? & ->); [| done].
  repeat split; congruence.
Qed.

End snapshot_rounds.

Section snapshot_query.
Context `{ops : SupernodeOps}.

Lemma finish_query_cases mk w g d r w' g' d' r' :
  finish_query mk (w, g, d, r) = (w', g', d', r') →
  w' = w ∧ d' = d
  ∧ match r' with
    | Returned ret =>
        r = Returned ()
        ∧ ∃ p', components (num_nodes g) (parent g) = Some (p', ret)
                ∧ cleanup_copy mk w (set_parent p' g) d = Some g'
    | Threw e => r = Threw e ∧ cleanup_copy mk w g d = Some g'
    | OutOfFuel => r = OutOfFuel ∧ g' = g
    | _ => True
    end
  ∧ (r = Exited → r' = Exited).
Proof.
  unfold finish_query. destruct r as [[] | e | | |].
  - destruct (components _ _) as [[p' ret] |] eqn:Hc; [| by intros [= <- <- <- <-]].
    destruct (cleanup_copy _ _ _ _) as [g2 |] eqn:Hcl; intros [= <- <- <- <-];
      [| done].
    repeat split; try done. by exists p'.
  - destruct (cleanup_copy _ _ _ _) as [g2 |] eqn:Hcl; by intros [= <- <- <- <-].
  - by intros [= <- <- <- <-].
  - by intros [= <- <- <- <-].
  - by intros [= <- <- <- <-].
Qed.

(** The locals at the end of a resumable query, and the state that
    [cleanup_copy] was applied to. *)
Lemma emulation_snapshot fuel w g :
  graph_wf g →
  match boruvka_emulation (S fuel) true w g with
  | (w1, g1, d1, r) =>
      dr_backed_up d1 = snapshot_ids g
      ∧ (copy_in_mem g = true →
         ∀ i, dr_copy d1 !! i =
              match first_round_plan g with
              | Some (sns, reps) =>
                  if decide (i ∈ reps) then Some (sns !! i)
                  else replicate (num_nodes g) None !! i
              | None => replicate (num_nodes g) None !! i
              end)
      ∧ (copy_in_mem g = false → r ≠ Exited →
         ∀ sns reps, first_round_plan g = Some (sns, reps) →
           files w1 !! backup_file g
           = Some (concat (map sn_write (omap (λ i, sns !! i) reps))))
      ∧ match r with
        | Returned _ | Threw _ =>
            ∃ g_exit, graph_wf g_exit ∧ num_nodes g_exit = num_nodes g
                      ∧ seed g_exit = seed g
                      ∧ copy_in_mem g_exit = copy_in_mem g
                      ∧ backup_file g_exit = backup_file g
                      ∧ cleanup_copy true w1 g_exit d1 = Some g1
        | _ => True
        end
  end.
Proof.
  intros Hwf. unfold boruvka_emulation.
  change (num_nodes (set_update_locked true g)) with (num_nodes g).
  set (g0 := set_size (replicate (num_nodes g) 1) (set_update_locked true g)).
  set (d0 := init_driver true (set_update_locked true g)).
  assert (graph_wf g0) as Hwf0.
  { destruct Hwf as (? & ? & ? & ?). repeat split; simpl; try done.
    by rewrite length_replicate. }
  destruct (boruvka_loop (S fuel) true w g0 d0) as [[[w2 g2] d2] r2] eqn:Hloop.
  pose proof (boruvka_loop_wf _ _ _ _ _ _ _ _ _ Hwf0 Hloop) as [Hwf2 Hn2].
  pose proof (boruvka_loop_frame _ _ _ _ _ _ _ _ _ Hloop)
    as [(_ & Hsd2 & _ & Hc2 & Hb2) _].
  simpl in Hn2, Hsd2, Hc2, Hb2.
  assert (dr_backed_up d2 = snapshot_ids g
          ∧ (copy_in_mem g = true →
             ∀ i, dr_copy d2 !! i =
                  match first_round_plan g with
                  | Some (sns, reps) =>
                      if decide (i ∈ reps) then Some (sns !! i)
                      else replicate (num_nodes g) None !! i
                  | None => replicate (num_nodes g) None !! i
                  end)
          ∧ (copy_in_mem g = false → r2 ≠ Exited →
             ∀ sns reps, first_round_plan g = Some (sns, reps) →
               files w2 !! backup_file g
               = Some (concat (map sn_write (omap (λ i, sns !! i) reps)))))
    as (Ha & Hb & Hc).
  { simpl in Hloop.
    destruct (boruvka_round true w g0 d0) as [[[w1 g1] d1] r1] eqn:Hr1.
    apply first_round_snapshot in Hr1 as (Ha & Hfr & Hb & Hc); [| done].
    destruct r1 as [[] | e | | |];
      try (injection Hloop as <- <- <- <-; split; [done |]; split; [done |];
           intros Hcim Hne; by apply Hc).
    apply later_rounds_snapshot in Hloop as (-> & -> & ->); [| by apply Hfr].
    split; [done |]. split; [done |]. intros Hcim _. by apply Hc. }
  destruct (finish_query true (w2, g2, d2, r2)) as [[[w3 g3] d3] r3] eqn:Hfin.
  apply finish_query_cases in Hfin as (-> & -> & Hfin & Hex).
  split; [done |]. split; [done |]. split.
  { intros Hcim Hr3. apply Hc; [done |]. intros ->. by apply Hr3, Hex. }
  destruct r3 as [ret | e | | |]; try done.
  - destruct Hfin as (-> & p' & Hcomp & Hcl).
    exists (set_parent p' g2). repeat split; try done.
    + by destruct Hwf2 as (? & _).
    + destruct Hwf2 as (_ & Hpl & _ & Hpw).
      destruct (components_spec _ _ Hpl Hpw) as (p'' & sets & Hc' & [Hlen _] & _).
      simpl. congruence.
    + by destruct Hwf2 as (_ & _ & ? & _).
    + destruct Hwf2 as (_ & Hpl & _ & Hpw).
      destruct (components_spec _ _ Hpl Hpw) as (p'' & sets & Hc' & Hk & _).
      simpl. eapply roots_kept_wf; [| exact Hpw]. congruence.
  - destruct Hfin as (-> & Hcl). by exists g2.
Qed.

End snapshot_query.

(** C4, as the code has it.  On a resumable query the snapshot covers
    exactly the representative list that the planning pass of round one
    produces (its retries and its merge targets), not the list [[0, N)] the
    query starts from.  It is taken before the first merge: in memory, the
    slots of [copy_supernodes] that hold a clone are exactly those ids, and
    the clone is the supernode as sampled in round one; on disk, the backup
    file holds the records of those supernodes in the order of the list.
    Later rounds never change the list, the clones or the file, and
    [cleanup_copy] restores from that same ordered list. *)
Theorem snapshot_is_first_planned_list `{ops : SupernodeOps} fuel w g :
  graph_wf g →
  match boruvka_emulation (S fuel) true w g with
  | (w1, g1, d1, r) =>
      dr_backed_up d1 = snapshot_ids g
      ∧ (copy_in_mem g = true →
         ∀ i c, dr_copy d1 !! i = Some (Some c) ↔
                ∃ sns reps, first_round_plan g = Some (sns, reps)
                            ∧ i ∈ reps ∧ sns !! i = Some c)
      ∧ (copy_in_mem g = false → r ≠ Exited →
         ∀ sns reps, first_round_plan g = Some (sns, reps) →
           files w1 !! backup_file g
           = Some (concat (map sn_write (omap (λ i, sns !! i) reps))))
      ∧ match r with
        | Returned _ | Threw _ =>
            ∃ g_exit, cleanup_copy true w1 g_exit d1 = Some g1
        | _ => True
        end
  end.
Proof.
  intros Hwf. pose proof (emulation_snapshot fuel w g Hwf) as H.
  destruct (boruvka_emulation _ _ _ _) as [[[w1 g1] d1] r].
  destruct H as (Ha & Hb & Hc & Hd).
  split; [done |]. split; [| split; [done |]].
  - intros Hcim i c. rewrite (Hb Hcim).
    destruct (first_round_plan g) as [[sns reps] |].
    + case_decide.
      * split; [intros [= ?]; by exists sns, reps |].
        intros (? & ? & [= <- <-] & _ & ->). done.
      * split.
        -- intros Hl. apply lookup_replicate in Hl as [[=] _].
        -- intros (? & ? & [= <- <-] & ? & _). done.
    + split.
      * intros Hl. apply lookup_replicate in Hl as [[=] _].
      * by intros (? & ? & [=] & _).
  - destruct r; try done; destruct Hd as (g_exit & _ & _ & _ & _ & _ & ?); eauto.
Qed.

Lemma snapshot_is_first_planned_list_witness :
  match boruvka_emulation 10 true Demo.path4.1 Demo.path4.2 with
  | (w1, g1, d1, r) =>
      dr_backed_up d1 = snapshot_ids Demo.path4.2
      ∧ (copy_in_mem Demo.path4.2 = true →
         ∀ i c, dr_copy d1 !! i = Some (Some c) ↔
                ∃ sns reps, first_round_plan Demo.path4.2 = Some (sns, reps)
                            ∧ i ∈ reps ∧ sns !! i = Some c)
      ∧ (copy_in_mem Demo.path4.2 = false → r ≠ Exited →
         ∀ sns reps, first_round_plan Demo.path4.2 = Some (sns, reps) →
           files w1 !! backup_file Demo.path4.2
           = Some (concat (map (sn_write (SupernodeOps := Sketches.ops Sketches.ideal))
                               (omap (λ i, sns !! i) reps))))
      ∧ match r with
        | Returned _ | Threw _ =>
            ∃ g_exit, cleanup_copy true w1 g_exit d1 = Some g1
        | _ => True
        end
  end.
Proof.
  apply (snapshot_is_first_planned_list 9 Demo.path4.1 Demo.path4.2).
  repeat split; reflexivity.
Defined.

(** C4 as stated fails: the query on the path [0 - 1 - 2 - 3] starts from
    the representatives [0, 1, 2, 3], and snapshots the supernodes of [0]
    and [2] only. *)
Lemma snapshot_smaller_than_initial_representatives :
  match boruvka_emulation 10 true Demo.path4.1 Demo.path4.2 with
  | (_, _, d1, r) =>
      (∃ ret, r = Returned ret)
      ∧ dr_reps (init_driver true Demo.path4.2) = [0; 1; 2; 3]
      ∧ dr_backed_up d1 = [0; 2]
      ∧ dr_copy d1 !! 1 = Some None
      ∧ dr_copy d1 !! 3 = Some None
  end.
Proof. vm_compute. repeat split; eauto. Qed.

(** ** [cleanup_copy] on the ways out of [boruvka_emulation] *)

Section cleanup_facts.
Context `{ops : SupernodeOps}.

(** Reading back, in the same order, the records of the supernodes [s0] at
    [ids], when the record of a supernode [s] reads back as [stored s]. *)
Lemma restore_fold n sd (stored : Supernode → Supernode)
    (s0 : list Supernode) ids : ∀ sa rest,
  (∀ i, i ∈ ids →
        i < length sa
        ∧ ∃ s, s0 !! i = Some s
               ∧ ∀ rest', sn_read n sd (sn_write s ++ rest') = (stored s, rest')) →
  ∃ sf,
    foldl (restore_one n sd)
          (sa, concat (map sn_write (omap (λ i, s0 !! i) ids)) ++ rest) ids
    = (sf, rest)
    ∧ length sf = length sa
    ∧ (∀ i, i ∈ ids → sf !! i = stored <$> s0 !! i)
    ∧ (∀ i, i ∉ ids → sf !! i = sa !! i).
Proof.
  induction ids as [| a ids IH]; intros sa rest Hids.
  - exists sa. split_and!; try done. intros i Hi. by apply elem_of_nil in Hi.
  - destruct (Hids a) as (Ha & s & Hs & Hread); [by left |].
    cbn [omap list_omap]. rewrite Hs. cbn [map concat foldl].
    rewrite <- app_assoc. unfold restore_one at 2. cbn [fst snd].
    rewrite Hread.
    destruct (IH (<[a := stored s]> sa) rest) as (sf & Hf & Hlen & Hin & Hout).
    { intros i Hi. rewrite length_insert. apply Hids. by right. }
    exists sf. rewrite length_insert in Hlen. split_and!; try done.
    + intros i [-> | Hi]%elem_of_cons; [| by apply Hin].
      destruct (decide (a ∈ ids)) as [Hin' | Hnin]; [by apply Hin |].
      rewrite (Hout a Hnin), Hs. by apply list_lookup_insert_eq.
    + intros i Hi. apply not_elem_of_cons in Hi as [Hia Hi].
      rewrite (Hout i Hi). by apply list_lookup_insert_ne.
Qed.

(** The supernodes and the list that round one of a query plans with. *)
Lemma first_round_plan_Some g sns reps :
  graph_wf g → first_round_plan g = Some (sns, reps) →
  length sns = num_nodes g ∧ NoDup reps ∧ ∀ i, i ∈ reps → i < num_nodes g.
Proof.
  intros (Hsl & _) Hplan. unfold first_round_plan in Hplan.
  pose proof (sample_supernodes_length (supernodes g)
                (replicate (num_nodes g) (0, 0, ZERO))
                (seq 0 (num_nodes g))) as Hlen.
  destruct (sample_supernodes _ _ _) as [[sns' query] [e |]]; [done |].
  destruct (supernodes_to_merge _ _ _) as [[[g2 reps'] tm] |] eqn:Hp; [| done].
  injection Hplan as -> ->. simpl in Hlen.
  apply supernodes_to_merge_reps in Hp as [Hnd Hlt]; simpl;
    [| apply NoDup_seq | intros a Ha'%elem_of_seq; lia].
  split; [congruence |]. by split.
Qed.

(** The locals and the backup file when the loop of a resumable query has
    ended, whichever way. *)
Lemma loop_snapshot fuel w g w1 g1 d1 r1 :
  graph_wf g →
  boruvka_loop (S fuel) true w
    (set_size (replicate (num_nodes g) 1) (set_update_locked true g))
    (init_driver true (set_update_locked true g)) = (w1, g1, d1, r1) →
  dr_backed_up d1 = snapshot_ids g
  ∧ (copy_in_mem g = true →
     ∀ i, dr_copy d1 !! i =
          match first_round_plan g with
          | Some (sns, reps) =>
              if decide (i ∈ reps) then Some (sns !! i)
              else replicate (num_nodes g) None !! i
          | None => replicate (num_nodes g) None !! i
          end)
  ∧ (copy_in_mem g = false → r1 ≠ Exited →
     ∀ sns reps, first_round_plan g = Some (sns, reps) →
       files w1 !! backup_file g
       = Some (concat (map sn_write (omap (λ i, sns !! i) reps)))).
Proof.
  intros Hwf Hloop. simpl in Hloop.
  change (num_nodes (set_update_locked true g)) with (num_nodes g) in Hloop.
  destruct (boruvka_round true w _ _) as [[[w2 g2] d2] r2] eqn:Hr.
  apply first_round_snapshot in Hr as (Ha & Hfr & Hb & Hc); [| done].
  destruct r2 as [[] | e | | |];
    try (injection Hloop as <- <- <- <-; split; [done |]; split; [done |];
         intros Hcim Hne; by apply Hc).
  apply later_rounds_snapshot in Hloop as (-> & -> & ->); [| by apply Hfr].
  split; [done |]. split; [done |]. intros Hcim _. by apply Hc.
Qed.

(** What [cleanup_copy] does to the state [g_exit] that the loop of a query
    on [g] left. *)
Lemma cleanup_copy_restores mk (stored : Supernode → Supernode)
    w1 g g_exit d1 :
  graph_wf g →
  length (supernodes g_exit) = num_nodes g →
  num_nodes g_exit = num_nodes g → seed g_exit = seed g →
  copy_in_mem g_exit = copy_in_mem g → backup_file g_exit = backup_file g →
  (mk = true → dr_backed_up d1 = snapshot_ids g) →
  (mk = true → copy_in_mem g = true →
   ∀ i, dr_copy d1 !! i =
        match first_round_plan g with
        | Some (sns, reps) =>
            if decide (i ∈ reps) then Some (sns !! i)
            else replicate (num_nodes g) None !! i
        | None => replicate (num_nodes g) None !! i
        end) →
  (mk = true → copy_in_mem g = false →
   ∀ sns reps, first_round_plan g = Some (sns, reps) →
     files w1 !! backup_file g
     = Some (concat (map sn_write (omap (λ i, sns !! i) reps)))) →
  (copy_in_mem g = false →
   ∀ sns reps i s rest,
     first_round_plan g = Some (sns, reps) → i ∈ reps → sns !! i = Some s →
     sn_read (num_nodes g) (seed g) (sn_write s ++ rest) = (stored s, rest)) →
  match cleanup_copy mk w1 g_exit d1 with
  | Some g' => snapshot_restored mk stored g g_exit g'
  | None => mk = true ∧ copy_in_mem g = false
            ∧ files w1 !! backup_file g = None
            ∧ first_round_plan g = None
  end.
Proof.
  intros Hwf Hlx Hnx Hsx Hcx Hbx Hbu Hcp Hfile Hread.
  unfold cleanup_copy, snapshot_restored. destruct mk.
  2: { split; [by destruct g_exit |]. intros i.
       destruct (first_round_plan g) as [[sns reps] |]; [| done].
       rewrite decide_False; [done | by intros [[=] _]]. }
  specialize (Hbu eq_refl). specialize (Hcp eq_refl). specialize (Hfile eq_refl).
  rewrite Hcx. destruct (copy_in_mem g) eqn:Hcim.
  - specialize (Hcp eq_refl). split; [done |]. intros i. simpl.
    rewrite Hbu. unfold snapshot_ids.
    destruct (first_round_plan g) as [[sns reps] |] eqn:Hplan; [| done].
    destruct (first_round_plan_Some _ _ _ Hwf Hplan) as (Hls & _ & Hlt).
    rewrite restore_copies.
    + case_decide as Hi.
      * rewrite decide_True by done. specialize (Hcp i).
        rewrite decide_True in Hcp by done. by rewrite Hcp.
      * rewrite decide_False; [done | by intros [_ ?]].
    + intros j Hj. split; [rewrite Hlx; by apply Hlt |].
      specialize (Hcp j). rewrite decide_True in Hcp by done.
      destruct (lookup_lt_is_Some_2 sns j) as [c Hc];
        [rewrite Hls; by apply Hlt |].
      exists c. by rewrite Hcp, Hc.
  - specialize (Hfile eq_refl). specialize (Hread eq_refl).
    unfold restore_from_disk. rewrite Hbx, Hbu, Hnx, Hsx. unfold snapshot_ids.
    destruct (first_round_plan g) as [[sns reps] |] eqn:Hplan.
    + rewrite (Hfile sns reps eq_refl).
      destruct (first_round_plan_Some _ _ _ Hwf Hplan) as (Hls & _ & Hlt).
      destruct (restore_fold (num_nodes g) (seed g) stored sns reps
                  (supernodes g_exit) []) as (sf & Hf & _ & Hin & Hout).
      { intros i Hi. split; [rewrite Hlx; by apply Hlt |].
        destruct (lookup_lt_is_Some_2 sns i) as [s Hs];
          [rewrite Hls; by apply Hlt |].
        exists s. split; [done |]. intros rest. by eapply Hread. }
      rewrite app_nil_r in Hf. rewrite Hf. split; [done |]. intros i. simpl.
      case_decide as Hi.
      * apply Hin. by destruct Hi.
      * apply Hout. intros ?. by apply Hi.
    + destruct (files w1 !! backup_file g) as [bs |]; [| by split_and!].
      by split.
Qed.

End cleanup_facts.

(** C6. Whichever way the loop of [boruvka_emulation] ends, by its test or
    by an exception, [cleanup_copy] runs on the state the loop left, before
    the list is returned or the exception rethrown.  With [make_copy], it
    puts every supernode of the snapshot list back as round one sampled it
    (the clone, or what the record in the backup file keeps of it) and
    leaves the others as the loop left them; without [make_copy] it
    changes nothing.  The one path on which it cannot restore is an
    exception in the first sampling pass of a query that snapshots to a
    disk without a backup file: nothing has been backed up then, and
    [restore_from_disk] ends the process.  On every other way out of the
    loop (the process ended, or the loop cut off) no cleanup runs. *)
Theorem cleanup_on_return_and_on_exception `{ops : SupernodeOps}
    fuel make_copy (stored : Supernode → Supernode) w g :
  graph_wf g →
  (copy_in_mem g = false →
   ∀ sns reps i s rest,
     first_round_plan g = Some (sns, reps) → i ∈ reps → sns !! i = Some s →
     sn_read (num_nodes g) (seed g) (sn_write s ++ rest) = (stored s, rest)) →
  match boruvka_loop fuel make_copy w
          (set_size (replicate (num_nodes g) 1) (set_update_locked true g))
          (init_driver make_copy (set_update_locked true g)) with
  | (w1, g1, d1, Returned _) =>
      ∃ p' ret g',
        components (num_nodes g1) (parent g1) = Some (p', ret)
        ∧ cleanup_copy make_copy w1 (set_parent p' g1) d1 = Some g'
        ∧ snapshot_restored make_copy stored g (set_parent p' g1) g'
        ∧ boruvka_emulation fuel make_copy w g = (w1, g', d1, Returned ret)
  | (w1, g1, d1, Threw e) =>
      (∃ g', cleanup_copy make_copy w1 g1 d1 = Some g'
             ∧ snapshot_restored make_copy stored g g1 g'
             ∧ boruvka_emulation fuel make_copy w g = (w1, g', d1, Threw e))
      ∨ (make_copy = true ∧ copy_in_mem g = false
         ∧ files w1 !! backup_file g = None
         ∧ first_round_plan g = None
         ∧ cleanup_copy make_copy w1 g1 d1 = None
         ∧ boruvka_emulation fuel make_copy w g = (w1, g1, d1, Exited))
  | (w1, g1, d1, _) =>
      (boruvka_emulation fuel make_copy w g).1 = (w1, g1, d1)
  end.
Proof.
  intros Hwf Hread.
  destruct (boruvka_loop _ _ _ _ _) as [[[w1 g1] d1] r1] eqn:Hloop.
  assert (graph_wf (set_size (replicate (num_nodes g) 1)
                      (set_update_locked true g))) as Hwf0.
  { destruct Hwf as (? & ? & ? & ?). repeat split; simpl; try done.
    by rewrite length_replicate. }
  pose proof (boruvka_loop_wf _ _ _ _ _ _ _ _ _ Hwf0 Hloop) as [Hwf1 Hn1].
  pose proof (boruvka_loop_frame _ _ _ _ _ _ _ _ _ Hloop)
    as [(_ & Hs1 & _ & Hc1 & Hb1) _].
  simpl in Hn1, Hs1, Hc1, Hb1.
  assert (r1 ≠ OutOfFuel →
          (make_copy = true → dr_backed_up d1 = snapshot_ids g)
          ∧ (make_copy = true → copy_in_mem g = true →
             ∀ i, dr_copy d1 !! i =
                  match first_round_plan g with
                  | Some (sns, reps) =>
                      if decide (i ∈ reps) then Some (sns !! i)
                      else replicate (num_nodes g) None !! i
                  | None => replicate (num_nodes g) None !! i
                  end)
          ∧ (make_copy = true → copy_in_mem g = false → r1 ≠ Exited →
             ∀ sns reps, first_round_plan g = Some (sns, reps) →
               files w1 !! backup_file g
               = Some (concat (map sn_write (omap (λ i, sns !! i) reps)))))
    as Hsnap.
  { intros Hr1. destruct make_copy; [| done]. destruct fuel as [| fuel].
    - by injection Hloop as <- <- <- <-.
    - destruct (loop_snapshot _ _ _ _ _ _ _ Hwf Hloop) as (? & ? & ?).
      by split_and!. }
  unfold boruvka_emulation.
  change (num_nodes (set_update_locked true g)) with (num_nodes g).
  rewrite Hloop. unfold finish_query.
  destruct r1 as [[] | e | | |]; try done;
    destruct Hsnap as (Hbu & Hcp & Hfile); try done.
  - destruct Hwf1 as (Hsl & Hpl & _ & Hpw).
    destruct (components_spec (num_nodes g1) (parent g1) Hpl Hpw)
      as (p' & ret & Hcomp & _).
    rewrite Hcomp.
    pose proof (cleanup_copy_restores make_copy stored w1 g (set_parent p' g1) d1
                  Hwf ltac:(simpl; congruence) Hn1 Hs1 Hc1 Hb1 Hbu Hcp
                  ltac:(intros ? ?; by apply Hfile) Hread) as Hcl.
    destruct (boruvka_emulation_returns _ _ _ _ _ _ _ _ Hwf Hloop)
      as (_ & _ & p'' & ret'' & g' & Hcomp' & Hcl' & _).
    rewrite Hcomp in Hcomp'. injection Hcomp' as <- <-.
    rewrite Hcl' in Hcl. rewrite Hcl'. by exists p', ret, g'.
  - destruct Hwf1 as (Hsl & _).
    pose proof (cleanup_copy_restores make_copy stored w1 g g1 d1
                  Hwf ltac:(congruence) Hn1 Hs1 Hc1 Hb1 Hbu Hcp
                  ltac:(intros ? ?; by apply Hfile) Hread) as Hcl.
    destruct (cleanup_copy make_copy w1 g1 d1) as [g' |].
    + left. by exists g'.
    + right. destruct Hcl as (? & ? & ? & ?). by split_and!.
Qed.

Lemma cleanup_on_return_and_on_exception_witness :
  (* in memory, the loop ends by its test *)
  match boruvka_loop 10 true Demo.path4.1
          (set_size (replicate 4 1) (set_update_locked true Demo.path4.2))
          (init_driver true (set_update_locked true Demo.path4.2)) with
  | (w1, g1, d1, Returned _) =>
      ∃ p' ret g',
        components (num_nodes g1) (parent g1) = Some (p', ret)
        ∧ cleanup_copy true w1 (set_parent p' g1) d1 = Some g'
        ∧ snapshot_restored true id Demo.path4.2 (set_parent p' g1) g'
        ∧ boruvka_emulation 10 true Demo.path4.1 Demo.path4.2
          = (w1, g', d1, Returned ret)
  | (w1, g1, d1, Threw e) =>
      (∃ g', cleanup_copy true w1 g1 d1 = Some g'
             ∧ snapshot_restored true id Demo.path4.2 g1 g'
             ∧ boruvka_emulation 10 true Demo.path4.1 Demo.path4.2
               = (w1, g', d1, Threw e))
      ∨ (true = true ∧ copy_in_mem Demo.path4.2 = false
         ∧ files w1 !! backup_file Demo.path4.2 = None
         ∧ first_round_plan Demo.path4.2 = None
         ∧ cleanup_copy true w1 g1 d1 = None
         ∧ boruvka_emulation 10 true Demo.path4.1 Demo.path4.2
           = (w1, g1, d1, Exited))
  | (w1, g1, d1, _) =>
      (boruvka_emulation 10 true Demo.path4.1 Demo.path4.2).1 = (w1, g1, d1)
  end
  (* on disk, the loop ends by an exception in round two *)
  ∧ match boruvka_loop 10 true Demo.path4_late_disk.1
            (set_size (replicate 4 1)
               (set_update_locked true Demo.path4_late_disk.2))
            (init_driver true (set_update_locked true Demo.path4_late_disk.2)) with
    | (w1, g1, d1, Returned _) =>
        ∃ p' ret g',
          components (num_nodes g1) (parent g1) = Some (p', ret)
          ∧ cleanup_copy true w1 (set_parent p' g1) d1 = Some g'
          ∧ snapshot_restored true sn_reset_query_state
              Demo.path4_late_disk.2 (set_parent p' g1) g'
          ∧ boruvka_emulation 10 true
              Demo.path4_late_disk.1 Demo.path4_late_disk.2
            = (w1, g', d1, Returned ret)
    | (w1, g1, d1, Threw e) =>
        (∃ g', cleanup_copy true w1 g1 d1 = Some g'
               ∧ snapshot_restored true sn_reset_query_state
                   Demo.path4_late_disk.2 g1 g'
               ∧ boruvka_emulation 10 true
                   Demo.path4_late_disk.1 Demo.path4_late_disk.2
                 = (w1, g', d1, Threw e))
        ∨ (true = true ∧ copy_in_mem Demo.path4_late_disk.2 = false
           ∧ files w1 !! backup_file Demo.path4_late_disk.2 = None
           ∧ first_round_plan Demo.path4_late_disk.2 = None
           ∧ cleanup_copy true w1 g1 d1 = None
           ∧ boruvka_emulation 10 true
               Demo.path4_late_disk.1 Demo.path4_late_disk.2
             = (w1, g1, d1, Exited))
    | (w1, g1, d1, _) =>
        (boruvka_emulation 10 true
           Demo.path4_late_disk.1 Demo.path4_late_disk.2).1 = (w1, g1, d1)
    end.
Proof.
  split.
  - apply (cleanup_on_return_and_on_exception 10 true id
             Demo.path4.1 Demo.path4.2).
    + repeat split; reflexivity.
    + intros [=].
  - apply (cleanup_on_return_and_on_exception 10 true
             sn_reset_query_state
             Demo.path4_late_disk.1 Demo.path4_late_disk.2).
    + repeat split; reflexivity.
    + intros _ sns reps i s rest Hplan Hi Hs.
      vm_compute in Hplan. injection Hplan as <- <-.
      apply elem_of_cons in Hi as [-> | Hi];
        [| apply elem_of_cons in Hi as [-> | Hi];
           [| by apply elem_of_nil in Hi]];
        injection Hs as <-; reflexivity.
Defined.

(** The query on [Demo.path4_late_disk], run: round one plans the snapshot
    list [[0; 2]] and merges, round two raises; the loop leaves the merged
    supernodes [0] and [2], and [cleanup_copy] puts back the ones that
    round one backed up. *)
Example restored_after_exception_on_disk :
  match boruvka_loop 10 true Demo.path4_late_disk.1
          (set_size (replicate 4 1)
             (set_update_locked true Demo.path4_late_disk.2))
          (init_driver true (set_update_locked true Demo.path4_late_disk.2)),
        boruvka_emulation 10 true
          Demo.path4_late_disk.1 Demo.path4_late_disk.2 with
  | (_, g1, d1, r1), (_, g', _, r) =>
      r1 = Threw NoGoodBucketException ∧ r = Threw NoGoodBucketException
      ∧ dr_backed_up d1 = [0; 2]
      ∧ supernodes g1 !! 0 = Some (Sketches.mkSn 4 7 [2%Z] 2)
      ∧ supernodes g' !! 0 = Some (Sketches.mkSn 4 7 [0%Z] 0)
      ∧ supernodes g1 !! 2 = Some (Sketches.mkSn 4 7 [2%Z] 2)
      ∧ supernodes g' !! 2 = Some (Sketches.mkSn 4 7 [5%Z; 2%Z] 0)
      ∧ supernodes g' !! 1 = supernodes g1 !! 1
      ∧ supernodes g' !! 3 = supernodes g1 !! 3
  end.
Proof. vm_compute. by repeat split. Qed.

(** ** Termination of the driver loop *)

Section termination.
Context `{ops : SupernodeOps}.
Variable left : Supernode → nat.
Hypothesis sample_consumes :
  ∀ s s' q, sn_sample s = (s', inr q) → left s' < left s.
Hypothesis merge_keeps :
  ∀ a b a', sn_merge a b = (a', None) → left a' ≤ left a.

Lemma work_left_insert sns r s s' :
  sns !! r = Some s →
  work_left left (<[r := s']> sns) + left s = work_left left sns + left s'.
Proof.
  unfold work_left. revert r. induction sns as [| x sns IH]; intros [| r];
    simpl; try done.
  - intros [= ->]. lia.
  - intros Hr. specialize (IH r Hr). unfold fmap in IH. lia.
Qed.

Lemma sample_supernodes_work reps : ∀ sns query err sns' query',
  foldl sample_one (sns, query, err) reps = (sns', query', None) →
  (∀ r, r ∈ reps → r < length sns) →
  err = None ∧ work_left left sns' + length reps ≤ work_left left sns.
Proof.
  induction reps as [| r reps IH]; intros sns query err sns' query'; simpl.
  - intros [= <- <- ->] _. split; [done | lia].
  - intros Hf Hlt.
    destruct (lookup_lt_is_Some_2 sns r) as [s Hs]; [apply Hlt; by left |].
    rewrite Hs in Hf.
    destruct (sn_sample s) as [s' [e | q]] eqn:Hsmp.
    + apply IH in Hf as [[=] _].
      intros r' Hr'. rewrite length_insert. apply Hlt. by right.
    + apply IH in Hf as [-> Hw]; last first.
      { intros r' Hr'. rewrite length_insert. apply Hlt. by right. }
      split; [done |].
      pose proof (work_left_insert sns r s s' Hs).
      pose proof (sample_consumes _ _ _ Hsmp). lia.
Qed.

Lemma merge_into_work a bs : ∀ sns sns',
  merge_into sns a bs = (sns', None) → work_left left sns' ≤ work_left left sns.
Proof.
  induction bs as [| b bs IH]; intros sns sns'; simpl.
  - by intros [= <-].
  - destruct (sns !! a) as [sa |] eqn:Ha; [| by intros [= <-]].
    destruct (sns !! b) as [sb |]; [| by intros [= <-]].
    destruct (sn_merge sa sb) as [sa' [e |]] eqn:Hm; [done |].
    intros Hrec%IH.
    pose proof (work_left_insert sns a sa sa' Ha).
    pose proof (merge_keeps _ _ _ Hm). lia.
Qed.

Lemma merge_supernodes_work copying tm reps : ∀ sns copies err sns' copies',
  foldl (merge_one copying tm) (sns, copies, err) reps = (sns', copies', None) →
  err = None ∧ work_left left sns' ≤ work_left left sns.
Proof.
  induction reps as [| a reps IH]; intros sns copies err sns' copies'; simpl.
  - by intros [= <- <- ->].
  - destruct (merge_into sns a (at_ [] tm a)) as [sns1 [e |]] eqn:Hm.
    + by intros [[=] _]%IH.
    + intros [-> Hw]%IH. split; [done |].
      apply merge_into_work in Hm. lia.
Qed.

Lemma plan_loop_unmodified query reps : ∀ st st',
  plan_loop query st reps = Some st' →
  pl_modified st = false → pl_modified st' = true → reps ≠ [].
Proof. destruct reps; [intros st st' [= <-]; congruence | done]. Qed.

(** A round that asks for another one has used up work. *)
Lemma boruvka_round_progress mk w g d w' g' d' :
  graph_wf g → NoDup (dr_reps d) → (∀ r, r ∈ dr_reps d → r < num_nodes g) →
  boruvka_round mk w g d = (w', g', d', Returned true) →
  NoDup (dr_reps d') ∧ (∀ r, r ∈ dr_reps d' → r < num_nodes g')
  ∧ work_left left (supernodes g') < work_left left (supernodes g).
Proof.
  intros Hwf Hnd Hlt Hr.
  pose proof (boruvka_round_wf _ _ _ _ _ _ _ _ Hwf Hr) as [_ Hn].
  apply boruvka_round_cases in Hr as (sns & query & err & Hs & Hcases).
  simpl in Hcases.
  destruct Hcases as
    [(e & _ & [=] & _)
    | [(_ & _ & [=] & _)
      | (-> & g1 & reps & tm & Hp & Hrest)]].
  destruct Hrest as
    [(_ & _ & [=] & _)
    | (_ & sns2 & copies & err2 & Hm & -> & Hend)].
  destruct Hend as [(e & _ & [=] & _) | (-> & [= Hmod] & ->)].
  simpl. destruct Hwf as (Hsl & _).
  apply sample_supernodes_work in Hs as [_ Hw1]; [| intros r Hr; rewrite Hsl; auto].
  pose proof Hp as Hreps.
  apply supernodes_to_merge_reps in Hreps as [Hnd' Hlt']; [| done..].
  apply supernodes_to_merge_Some in Hp as (st & Hst & Hg1 & _ & _).
  assert (dr_reps d ≠ []) as Hne.
  { eapply plan_loop_unmodified; [exact Hst | done |]. by subst g1. }
  assert (supernodes g1 = sns) as Hs1 by by subst g1.
  unfold merge_supernodes in Hm. rewrite Hs1 in Hm.
  apply merge_supernodes_work in Hm as [_ Hw2].
  simpl in Hn, Hlt'. split; [done |]. split; [by rewrite Hn |].
  destruct (dr_reps d); [done |]. simpl in Hw1. lia.
Qed.

Lemma boruvka_loop_terminates mk fuel : ∀ w g d,
  graph_wf g → NoDup (dr_reps d) → (∀ r, r ∈ dr_reps d → r < num_nodes g) →
  work_left left (supernodes g) < fuel →
  (boruvka_loop fuel mk w g d).2 ≠ OutOfFuel.
Proof.
  induction fuel as [| fuel IH]; intros w g d Hwf Hnd Hlt Hfuel; [lia |].
  simpl. destruct (boruvka_round mk w g d) as [[[w1 g1] d1] r1] eqn:Hr.
  destruct r1 as [[] | | | |]; try done.
  - pose proof (boruvka_round_wf _ _ _ _ _ _ _ _ Hwf Hr) as [Hwf1 _].
    apply boruvka_round_progress in Hr as (? & ? & ?); try done.
    apply IH; try done. lia.
  - exfalso.
    apply boruvka_round_cases in Hr as (? & ? & ? & _ & Hcases).
    destruct Hcases as
      [(? & _ & [=] & _)
      | [(_ & _ & [=] & _)
        | (_ & ? & ? & ? & _ & [(_ & _ & [=] & _)
                               | (_ & ? & ? & ? & _ & _ & [(? & _ & [=] & _)
                                                           | (_ & [=] & _)])])]].
Qed.

End termination.

(** C7, as the code has it.  A representative that samples [FAIL] is kept
    for the next round and sets [modified], whether or not its supernode
    has levels left; the driver never drops an exhausted supernode.  The
    loop ends, by a round with [modified == false] or by an exception, after
    at most one round more than there are unused sketch levels, provided
    that every [sample()] that returns has consumed a level (so that
    [sample()] on an exhausted supernode raises instead of returning
    [FAIL]) and that [merge] does not give levels back. *)
Theorem driver_loop_terminates `{ops : SupernodeOps}
    (left : Supernode → nat) fuel make_copy w g :
  (∀ s s' q, sn_sample s = (s', inr q) → left s' < left s) →
  (∀ a b a', sn_merge a b = (a', None) → left a' ≤ left a) →
  graph_wf g →
  work_left left (supernodes g) < fuel →
  (boruvka_emulation fuel make_copy w g).2 ≠ OutOfFuel.
Proof.
  intros Hsample Hmerge Hwf Hfuel. unfold boruvka_emulation.
  change (num_nodes (set_update_locked true g)) with (num_nodes g).
  pose proof (boruvka_loop_terminates left Hsample Hmerge make_copy fuel w
                (set_size (replicate (num_nodes g) 1) (set_update_locked true g))
                (init_driver make_copy (set_update_locked true g))) as H.
  destruct (boruvka_loop _ _ _ _ _) as [[[w1 g1] d1] r1].
  assert (r1 ≠ OutOfFuel) as Hr1.
  { apply H; simpl; try done.
    - destruct Hwf as (? & ? & ? & ?). repeat split; simpl; try done.
      by rewrite length_replicate.
    - apply NoDup_seq.
    - intros r Hr%elem_of_seq. lia. }
  unfold finish_query. destruct r1 as [[] | e | | |]; try done.
  - destruct (components _ _) as [[p' ret] |]; [| done].
    by destruct (cleanup_copy _ _ _ _).
  - by destruct (cleanup_copy _ _ _ _).
Qed.

Lemma driver_loop_terminates_witness :
  (boruvka_emulation 17 true Demo.path4_strict.1 Demo.path4_strict.2).2
  ≠ OutOfFuel.
Proof.
  apply (driver_loop_terminates (ops := Sketches.ops Sketches.strict)
           (Sketches.levels_left Sketches.strict) 17 true
           Demo.path4_strict.1 Demo.path4_strict.2).
  - intros s s' q. unfold sn_sample, Sketches.ops, Sketches.sample,
      Sketches.levels_left. simpl.
    case_decide; [done |]. destruct (Sketches.s_vec s); intros [= <- _]; simpl; lia.
  - intros a b a' [= <-]. unfold Sketches.levels_left. simpl. lia.
  - repeat split; reflexivity.
  - vm_compute. lia.
Defined.

(** A loop whose every round asks for another one runs out of any fuel. *)
Lemma boruvka_loop_diverges `{ops : SupernodeOps} mk (s : World * Graph * driver) :
  (∀ k, let s' := after_rounds mk k s in
        (boruvka_round mk s'.1.1 s'.1.2 s'.2).2 = Returned true) →
  ∀ fuel, (boruvka_loop fuel mk s.1.1 s.1.2 s.2).2 = OutOfFuel.
Proof.
  intros Hk fuel. revert s Hk. induction fuel as [| fuel IH]; intros [[w g] d] Hk;
    [done |].
  simpl. pose proof (Hk 0) as H0. simpl in H0.
  destruct (boruvka_round mk w g d) as [[[w1 g1] d1] r1] eqn:Hr.
  simpl in H0. subst r1.
  assert (next_round mk (w, g, d) = (w1, g1, d1)) as Hnext.
  { unfold next_round. simpl. by rewrite Hr. }
  apply (IH (w1, g1, d1)). intros k. specialize (Hk (S k)).
  unfold after_rounds in *. rewrite Nat.iter_succ_r, Hnext in Hk. exact Hk.
Qed.

Lemma after_rounds_fixed `{ops : SupernodeOps} mk n (s : World * Graph * driver) :
  next_round mk (after_rounds mk n s) = after_rounds mk n s →
  ∀ k, after_rounds mk (n + k) s = after_rounds mk n s.
Proof.
  intros Hfix. induction k as [| k IH]; [by rewrite Nat.add_0_r |].
  rewrite Nat.add_succ_r. unfold after_rounds in *.
  change (Nat.iter (S (n + k)) (next_round mk) s)
    with (next_round mk (Nat.iter (n + k) (next_round mk) s)).
  by rewrite IH.
Qed.

(** C7 as stated fails.  Two vertices and the edge [(0,1)], on sketches
    that are inconclusive at every level: both representatives sample
    [FAIL] in every round, after three rounds their supernodes are
    exhausted and go on returning [FAIL], and they stay in the
    representative list; no round ends with [modified == false]. *)
Lemma exhausted_supernodes_keep_loop_alive :
  never_returns false Demo.edge2_failing.1 Demo.edge2_failing.2.
Proof.
  intros fuel. unfold connected_components, boruvka_emulation.
  change (negb false) with true. cbv iota.
  set (w0 := drain Demo.edge2_failing.1).
  set (g0 := set_size _ _). set (d0 := init_driver _ _).
  assert (∀ k, let s' := after_rounds false k (w0, g0, d0) in
               (boruvka_round false s'.1.1 s'.1.2 s'.2).2 = Returned true) as Hk.
  { pose proof (after_rounds_fixed false 3 (w0, g0, d0)) as Hfix.
    intros [| [| [| k]]]; [vm_compute; reflexivity ..|].
    change (S (S (S k))) with (3 + k). rewrite Hfix; vm_compute; reflexivity. }
  pose proof (boruvka_loop_diverges false (w0, g0, d0) Hk fuel) as H.
  simpl in H.
  destruct (boruvka_loop fuel false w0 g0 d0) as [[[w1 g1] d1] r1].
  simpl in H. by subst r1.
Qed.

(** ** The binary graph format *)

Section binary_facts.
Import Bin.
Local Open Scope Z_scope.

Lemma Z_of_byte_of_Z z : Z_of_byte (byte_of_Z z) = z `mod` 256.
Proof.
  unfold Z_of_byte, byte_of_Z.
  assert (0 ≤ z `mod` 256 < 256) as Hr by (apply Z.mod_pos_bound; lia).
  destruct (Byte.of_N (Z.to_N (z `mod` 256))) as [b |] eqn:Hb; simpl.
  - apply Byte.to_of_N in Hb. rewrite Hb. lia.
  - apply Byte.of_N_None_iff in Hb. lia.
Qed.

Lemma decode_encode_le (w : nat) : ∀ x,
  0 ≤ x < 256 ^ Z.of_nat w → decode_le (encode_le w x) = x.
Proof.
  induction w as [| w IH]; intros x Hx; simpl.
  - simpl in Hx. lia.
  - rewrite Z_of_byte_of_Z.
    rewrite Nat2Z.inj_succ, Z.pow_succ_r in Hx by lia.
    rewrite IH.
    + pose proof (Z.div_mod x 256). lia.
    + split; [apply Z.div_pos; lia |].
      apply Z.div_lt_upper_bound; lia.
Qed.

Lemma length_encode_le (w : nat) x : length (encode_le w x) = w.
Proof. revert x. induction w; intros x; simpl; [done | by rewrite IHw]. Qed.

Lemma read_le_encode (w : nat) x rest :
  0 ≤ x < 256 ^ Z.of_nat w →
  read_le w (encode_le w x ++ rest) = Some (x, rest).
Proof.
  intros Hx. unfold read_le.
  rewrite decide_True by (rewrite length_app, length_encode_le; lia).
  rewrite take_app_length', drop_app_length'
    by (symmetry; apply length_encode_le).
  by rewrite decode_encode_le.
Qed.

End binary_facts.

Section reload.
Context `{ops : SupernodeOps}.
Variables node_bytes vec_bytes : nat.

(** A query reads neither [size] nor [update_locked] nor [modified]: it
    overwrites them before it uses them. *)
Lemma connected_components_fresh_fields fuel cont w n sd sns p sz ul md cim bf :
  (connected_components fuel cont w (mkGraph n sd sns p sz ul md cim bf)).2
  = (connected_components fuel cont w
       (mkGraph n sd sns p (replicate n 1) false false cim bf)).2.
Proof. destruct fuel; [by destruct cont | ]. reflexivity. Qed.

Lemma connected_components_drain fuel cont (w : World) (g : Graph) :
  connected_components fuel cont w g = connected_components fuel cont (drain w) g.
Proof. reflexivity. Qed.

Lemma drain_after_reload (w : World) fs :
  open_graph w = true →
  drain (set_open_graph true
           (set_workers_paused false
              (set_failure_factor (failure_factor w)
                 (destroy (set_files fs (drain w))))))
  = drain (set_files fs (drain w)).
Proof. destruct w. simpl. intros ->. reflexivity. Qed.

(** What [write_binary] writes, the loading constructor reads. *)
Lemma load_written path (w : World) (g : Graph) :
  read_only w = false →
  length (supernodes g) = num_nodes g →
  (0 ≤ seed g < 256 ^ 8)%Z →
  (Z.of_nat (num_nodes g) < 256 ^ Z.of_nat node_bytes)%Z →
  (0 ≤ failure_factor w < 256 ^ Z.of_nat vec_bytes)%Z →
  read_supernodes (num_nodes g) (seed g) (num_nodes g)
    (concat (map sn_write (supernodes g))) = supernodes g →
  let w1 := write_binary node_bytes vec_bytes path w g in
  w1 = set_files (<[path := graph_bytes node_bytes vec_bytes (drain w) g]> (files w))
                 (drain w)
  ∧ load_binary node_bytes vec_bytes path (destroy w1)
    = (set_open_graph true
         (set_workers_paused false
            (set_failure_factor (failure_factor w) (destroy w1))),
       Returned (mkGraph (num_nodes g) (seed g) (supernodes g)
                         (DSU.identity (num_nodes g))
                         (replicate (num_nodes g) 1) false false
                         (conf_copy_in_mem w) (backup_path w))).
Proof.
  intros Hro Hlen Hsd Hn Hff Hrec w1.
  assert (w1 = set_files
                 (<[path := graph_bytes node_bytes vec_bytes (drain w) g]> (files w))
                 (drain w)) as Hw1.
  { subst w1. unfold write_binary, write_file. simpl. by rewrite Hro. }
  split; [done |]. rewrite Hw1. unfold load_binary, destroy.
  cbn [open_graph set_open_graph set_files files].
  rewrite lookup_insert_eq. unfold graph_bytes.
  cbn [seed num_nodes failure_factor drain set_workers_paused supernodes].
  rewrite read_le_encode by done.
  rewrite read_le_encode by lia.
  rewrite read_le_encode by done.
  rewrite take_ge by lia. rewrite Nat2Z.id, Hrec. reflexivity.
Qed.

End reload.

(** C8, as the code has it.  For every graph [G] whose disjoint-set
    forest is in its initial state (no in-place query has run on it) and
    whose supernode records read back as its supernodes, [write_binary]
    writes the seed, the vertex count, the sketch failure factor and the
    supernodes in vertex-id order, and the engine constructed from that file
    answers [connected_components] exactly as [G] does. *)
Theorem reloaded_engine_answers_alike `{ops : SupernodeOps}
    node_bytes vec_bytes path fuel cont (w : World) (g : Graph) :
  open_graph w = true →
  read_only w = false →
  graph_wf g →
  parent g = DSU.identity (num_nodes g) →
  (0 ≤ seed g < 256 ^ 8)%Z →
  (Z.of_nat (num_nodes g) < 256 ^ Z.of_nat node_bytes)%Z →
  (0 ≤ failure_factor w < 256 ^ Z.of_nat vec_bytes)%Z →
  copy_in_mem g = conf_copy_in_mem w →
  backup_file g = backup_path w →
  read_supernodes (num_nodes g) (seed g) (num_nodes g)
    (concat (map sn_write (supernodes g))) = supernodes g →
  let w1 := write_binary node_bytes vec_bytes path w g in
  files w1 !! path
  = Some (Bin.encode_le 8 (seed g)
          ++ Bin.encode_le node_bytes (Z.of_nat (num_nodes g))
          ++ Bin.encode_le vec_bytes (failure_factor w)
          ++ concat (map sn_write (supernodes g)))
  ∧ ∃ w2 h,
      load_binary node_bytes vec_bytes path (destroy w1) = (w2, Returned h)
      ∧ num_nodes h = num_nodes g ∧ seed h = seed g
      ∧ supernodes h = supernodes g
      ∧ (connected_components fuel cont w2 h).2
        = (connected_components fuel cont w1 g).2.
Proof.
  intros Hopen Hro Hwf Hp Hsd Hn Hff Hcim Hbf Hrec w1.
  destruct Hwf as (Hlen & _).
  destruct (load_written node_bytes vec_bytes path w g Hro Hlen Hsd Hn Hff Hrec)
    as [Hw1 Hload].
  fold w1 in Hw1, Hload. split.
  { rewrite Hw1. cbn [files set_files]. rewrite lookup_insert_eq.
    unfold graph_bytes. cbn [failure_factor drain set_workers_paused].
    by rewrite take_ge by lia. }
  eexists _, _. split; [exact Hload |]. simpl.
  repeat (split; [done |]).
  rewrite (connected_components_drain fuel cont w1).
  rewrite connected_components_drain. rewrite Hw1.
  rewrite drain_after_reload by done.
  destruct g as [n sd sns p sz ul md cim bf]. simpl in Hp, Hcim, Hbf.
  subst p cim bf. cbn [num_nodes seed supernodes].
  symmetry. apply connected_components_fresh_fields.
Qed.

Lemma reloaded_engine_answers_alike_witness :
  let w1 := write_binary 4 8 "/tmp/graph.bin" Demo.path4.1 Demo.path4.2 in
  files w1 !! "/tmp/graph.bin"
  = Some (Bin.encode_le 8 (seed Demo.path4.2)
          ++ Bin.encode_le 4 (Z.of_nat (num_nodes Demo.path4.2))
          ++ Bin.encode_le 8 (failure_factor Demo.path4.1)
          ++ concat (map sn_write (supernodes Demo.path4.2)))
  ∧ ∃ w2 h,
      load_binary 4 8 "/tmp/graph.bin" (destroy w1) = (w2, Returned h)
      ∧ num_nodes h = num_nodes Demo.path4.2 ∧ seed h = seed Demo.path4.2
      ∧ supernodes h = supernodes Demo.path4.2
      ∧ (connected_components 10 false w2 h).2
        = (connected_components 10 false w1 Demo.path4.2).2.
Proof.
  apply (reloaded_engine_answers_alike 4 8 "/tmp/graph.bin" 10 false
           Demo.path4.1 Demo.path4.2).
  - reflexivity.
  - reflexivity.
  - repeat split; reflexivity.
  - reflexivity.
  - vm_compute. split; [by intros [=] | reflexivity].
  - vm_compute. reflexivity.
  - vm_compute. split; [by intros [=] | reflexivity].
  - reflexivity.
  - reflexivity.
  - vm_compute. reflexivity.
Defined.

(** C8 as stated fails for a graph that has been queried in place.  Five
    vertices, edges [(0,1)], [(3,4)], [(0,3)], [(2,4)], sketches that never
    fail.  After a non-resumable query the graph [G] holds merged
    supernodes and the forest of its one component; a second query on [G]
    returns that component, while the engine loaded from [G]'s file, whose
    forest starts as the identity, returns [{0,1,3,4}] and [{2}]. *)
Lemma reload_after_in_place_query_differs :
  match connected_components 20 false Demo.cross5.1 Demo.cross5.2 with
  | (w0, g, r0) =>
      let w1 := write_binary 4 8 "/tmp/graph.bin" w0 g in
      match load_binary 4 8 "/tmp/graph.bin" (destroy w1) with
      | (w2, Returned h) =>
          r0 = Returned [list_to_set [0; 1; 2; 3; 4]]
          ∧ supernodes h = map sn_reset_query_state (supernodes g)
          ∧ (connected_components 20 false w1 g).2
            = Returned [list_to_set [0; 1; 2; 3; 4]]
          ∧ (connected_components 20 false w2 h).2
            = Returned [list_to_set [0; 1; 3; 4]; list_to_set [2]]
      | _ => False
      end
  end.
Proof. vm_compute. repeat split; reflexivity. Qed.

(** ** Every state that the facade reaches is well formed *)

Section reachable.
Context `{ops : SupernodeOps}.
Variables node_bytes vec_bytes : nat.

Lemma identity_graph_wf n sd sns ul md cim bf :
  length sns = n →
  graph_wf (mkGraph n sd sns (DSU.identity n) (replicate n 1) ul md cim bf).
Proof.
  intros Hlen. repeat split; simpl; try done.
  - unfold DSU.identity. by rewrite length_seq.
  - by rewrite length_replicate.
  - apply dsu_wf_identity.
Qed.

Lemma new_graph_wf n sd w w' g :
  new_graph n sd w = (w', Returned g) → graph_wf g.
Proof.
  unfold new_graph. destruct (open_graph w); [done |].
  intros [= _ <-]. apply identity_graph_wf. by rewrite length_replicate.
Qed.

Lemma length_read_supernodes n sd count : ∀ bs,
  length (read_supernodes n sd count bs) = count.
Proof.
  induction count as [| count IH]; intros bs; simpl; [done |].
  destruct (sn_read n sd bs) as [s rest]. simpl. by rewrite IH.
Qed.

Lemma load_binary_wf path w w' g :
  load_binary node_bytes vec_bytes path w = (w', Returned g) → graph_wf g.
Proof.
  unfold load_binary. destruct (open_graph w); [done |].
  destruct (files w !! path) as [bs |]; [| done].
  destruct (Bin.read_le 8 bs) as [[sd bs1] |]; [| done].
  destruct (Bin.read_le node_bytes bs1) as [[n bs2] |]; [| done].
  destruct (Bin.read_le vec_bytes bs2) as [[ff bs3] |]; [| done].
  intros [= _ <-]. apply identity_graph_wf, length_read_supernodes.
Qed.

Lemma batch_update_wf src edges g :
  graph_wf g → graph_wf (batch_update src edges g).1.
Proof.
  intros Hwf. unfold batch_update. destruct (update_locked g); [done |].
  destruct (supernodes g !! src); [| done]. simpl.
  destruct Hwf as (? & ? & ? & ?). repeat split; simpl; try done.
  by rewrite length_insert.
Qed.

Lemma boruvka_emulation_always_wf fuel mk w g :
  graph_wf g → graph_wf (boruvka_emulation fuel mk w g).1.1.2.
Proof.
  intros Hwf. unfold boruvka_emulation, finish_query.
  destruct (boruvka_loop _ _ _ _ _) as [[[w1 g1] d1] r1] eqn:Hloop.
  apply boruvka_loop_wf in Hloop as [Hwf1 Hn1]; last first.
  { destruct Hwf as (? & ? & ? & ?). repeat split; simpl; try done.
    by rewrite length_replicate. }
  destruct r1 as [[] | e | | |]; try done.
  - destruct Hwf1 as (Hsl & Hpl & Hzl & Hpw).
    destruct (components_spec (num_nodes g1) (parent g1) Hpl Hpw)
      as (p' & sets & -> & [Hlen Hk] & _ & _).
    assert (graph_wf (set_parent p' g1)) as Hwf2.
    { repeat split; simpl; try done; [congruence |].
      eapply roots_kept_wf; [| exact Hpw]. by split. }
    destruct (cleanup_copy _ _ _ _) as [g2 |] eqn:Hc; [| done].
    pose proof (cleanup_copy_length _ _ _ _ _ Hc) as Hl2.
    apply cleanup_copy_fields in Hc as [sns ->].
    destruct Hwf2 as (? & ? & ? & ?). simpl in *.
    repeat split; simpl; congruence.
  - destruct (cleanup_copy _ _ _ _) as [g2 |] eqn:Hc; [| done].
    pose proof (cleanup_copy_length _ _ _ _ _ Hc) as Hl2.
    apply cleanup_copy_fields in Hc as [sns ->]. simpl in *.
    destruct Hwf1 as (? & ? & ? & ?). repeat split; simpl; congruence.
Qed.

Lemma connected_components_wf fuel cont w g :
  graph_wf g → graph_wf (connected_components fuel cont w g).1.2.
Proof.
  intros Hwf. unfold connected_components.
  pose proof (boruvka_emulation_always_wf fuel (negb (negb cont)) (drain w) g Hwf)
    as Hwf1.
  destruct cont; simpl in *;
    destruct (boruvka_emulation _ _ _ _) as [[[w1 g1] d1] r1]; simpl in *;
    [| done].
  assert (graph_wf (set_update_locked false
                      (foldl reset_one g1 (seq 0 (num_nodes g1))))) as Hreset.
  { destruct Hwf1 as (Hs & Hp & Hz & _).
    destruct (reset_all g1 (num_nodes g1) Hs Hp Hz) as (Hp' & Hz' & Hs' & Hn' & _).
    repeat split; simpl; rewrite ?Hp', ?Hz', ?Hs', ?Hn'.
    - by rewrite length_map.
    - unfold DSU.identity. by rewrite length_seq.
    - by rewrite length_replicate.
    - apply dsu_wf_identity. }
  by destruct r1.
Qed.

(** The invariant that the partition, snapshot and termination theorems
    assume holds after every sequence of calls on a constructed graph. *)
Lemma run_calls_wf calls : ∀ wg,
  graph_wf wg.2 →
  graph_wf (foldl (run_call node_bytes vec_bytes) wg calls).2.
Proof.
  induction calls as [| c calls IH]; intros [w g] Hwf; simpl; [done |].
  apply IH. destruct c as [src edges | fuel cont | filename]; simpl in *.
  - by apply batch_update_wf.
  - pose proof (connected_components_wf fuel cont w g Hwf) as H.
    by destruct (connected_components fuel cont w g) as [[w1 g1] r1].
  - done.
Qed.

End reachable.

(** ** [get_parent]: the root, path compression, idempotence *)

Section forest_queries.
Import DSU.
Implicit Types (p : list nat) (v r : nat).

Lemma get_parent_length fuel : ∀ p v r p',
  get_parent fuel p v = Some (r, p') → length p' = length p.
Proof. intros p v r p' [_ [? _]]%get_parent_Some. done. Qed.

(** What the writes of [get_parent] leave in the array. *)
Lemma get_parent_entries fuel : ∀ p v r p',
  get_parent fuel p v = Some (r, p') →
  p' !! v = Some r
  ∧ ∀ w, p' !! w = p !! w ∨ (w ≠ r ∧ p' !! w = Some r ∧ root_of p w r).
Proof.
  induction fuel as [| fuel IH]; intros p v r p' Hg; [done |].
  pose proof (get_parent_Some _ _ _ _ _ Hg) as [Hroot _].
  simpl in Hg. destruct (p !! v) as [u |] eqn:Hv; [| done].
  destruct (decide (u = v)) as [-> | Hne].
  - injection Hg as <- <-. split; [done | by left].
  - destruct (get_parent fuel p u) as [[r1 p1] |] eqn:Hu; [| done].
    injection Hg as <- <-.
    pose proof (get_parent_length _ _ _ _ _ Hu) as Hlen.
    destruct (IH _ _ _ _ Hu) as [_ Hw].
    assert (v < length p1) as Hvl by (rewrite Hlen; by eapply lookup_lt_Some).
    split; [by apply list_lookup_insert_eq |].
    intros w. destruct (decide (w = v)) as [-> | Hwv].
    + destruct (decide (v = r1)) as [-> | Hvr].
      * destruct Hroot as [k Hd]. apply dist_root_is_root in Hd. congruence.
      * right. split; [done |]. split; [by apply list_lookup_insert_eq | done].
    + rewrite list_lookup_insert_ne by done.
      destruct (Hw w) as [? | (? & ? & [k Hd])]; [by left | right].
      split; [done |]. split; [done |]. by exists k.
Qed.

End forest_queries.

(** X1. [get_parent(node)] returns exactly when the chain of [parent]
    links from [node] reaches a vertex that is its own parent, and then it
    returns that vertex: whatever the recursion depth, a returned value is
    the root above [node]; a recursion depth of [num_nodes] is enough
    whenever there is such a root; and without one (an index outside the
    array, or a cycle) no depth gives a result. *)
Theorem get_parent_returns_the_root (p : list nat) (v : nat) :
  (∀ fuel r p', DSU.get_parent fuel p v = Some (r, p') → DSU.root_of p v r)
  ∧ (∀ r, DSU.root_of p v r →
          ∃ p', DSU.get_parent (length p) p v = Some (r, p'))
  ∧ ((∀ r, ¬ DSU.root_of p v r) → ∀ fuel, DSU.get_parent fuel p v = None).
Proof.
  split; [| split].
  - intros fuel r p' Hg. by apply get_parent_Some in Hg as [? _].
  - intros r [k Hd].
    destruct (get_parent_dist _ _ _ _ (length p) Hd) as (p' & ? & _);
      [by eapply dist_bound | eauto].
  - intros Hno fuel. destruct (DSU.get_parent fuel p v) as [[r p'] |] eqn:Hg; [| done].
    apply get_parent_Some in Hg as [Hr _]. by destruct (Hno r).
Qed.

(** X2. The writes of [get_parent]: the array keeps its length, [node]
    points at the returned root afterwards, the root is still its own
    parent, every entry is either unchanged or was redirected to that root
    (and then belongs to a vertex below it), and every vertex keeps the
    root it had. *)
Theorem get_parent_compresses_path fuel (p : list nat) v r p' :
  DSU.get_parent fuel p v = Some (r, p') →
  length p' = length p
  ∧ p' !! v = Some r
  ∧ p' !! r = Some r
  ∧ (∀ w, p' !! w = p !! w
          ∨ (w ≠ r ∧ p' !! w = Some r ∧ DSU.root_of p w r))
  ∧ (∀ w rw, DSU.root_of p w rw → DSU.root_of p' w rw).
Proof.
  intros Hg. pose proof (get_parent_Some _ _ _ _ _ Hg) as [[k Hd] [Hlen Hk]].
  destruct (get_parent_entries _ _ _ _ _ Hg) as [Hv Hw].
  split; [done |]. split; [done |]. split; [| split; [done | done]].
  destruct (Hk v r) as [k' Hd']; [by exists k |].
  by eapply dist_root_is_root.
Qed.

Lemma get_parent_compresses_path_witness :
  let p' := [0; 0; 0; 0] in
  length p' = length [0; 0; 1; 2]
  ∧ p' !! 3 = Some 0
  ∧ p' !! 0 = Some 0
  ∧ (∀ w, p' !! w = [0; 0; 1; 2] !! w
          ∨ (w ≠ 0 ∧ p' !! w = Some 0 ∧ DSU.root_of [0; 0; 1; 2] w 0))
  ∧ (∀ w rw, DSU.root_of [0; 0; 1; 2] w rw → DSU.root_of p' w rw).
Proof. apply (get_parent_compresses_path 4 [0; 0; 1; 2] 3 0). reflexivity. Defined.

(** X3. A second [get_parent(node)] right after the first returns the
    same root and writes nothing new: the array it leaves is the array it
    found. *)
Theorem get_parent_again_changes_nothing fuel (p : list nat) v r p' :
  DSU.get_parent fuel p v = Some (r, p') →
  DSU.get_parent (length p') p' v = Some (r, p').
Proof.
  intros Hg. pose proof (get_parent_Some _ _ _ _ _ Hg) as [[k Hd] [_ Hk]].
  destruct (get_parent_entries _ _ _ _ _ Hg) as [Hv _].
  assert (p' !! r = Some r) as Hr.
  { destruct (Hk v r) as [k' Hd']; [by exists k |]. by eapply dist_root_is_root. }
  pose proof (lookup_lt_Some _ _ _ Hv) as Hvl.
  pose proof (lookup_lt_Some _ _ _ Hr) as Hrl.
  destruct (decide (v = r)) as [-> | Hne].
  - destruct (length p') as [| n]; [lia |]. simpl. rewrite Hr.
    by rewrite decide_True.
  - destruct (length p') as [| [| n]] eqn:Hl; [lia | lia |].
    cbn [DSU.get_parent]. rewrite Hv, decide_False by done. rewrite Hr.
    rewrite decide_True by done. by rewrite list_insert_id.
Qed.

Lemma get_parent_again_changes_nothing_witness :
  DSU.get_parent 4 [0; 0; 0; 0] 3 = Some (0, [0; 0; 0; 0]).
Proof.
  apply (get_parent_again_changes_nothing 4 [0; 0; 1; 2] 3 0 [0; 0; 0; 0]).
  reflexivity.
Defined.

(** ** Ingest *)

(** X4. [generate_delta_node] turns every neighbour [edge] of [src] into
    the index [pairing_fn(min(src, edge), max(src, edge))], one update per
    list element and in list order; hence the edge [{u, v}] gives the same
    update whether it is reported at [u] or at [v]. *)
Theorem generate_delta_node_is_nondirectional `{ops : SupernodeOps}
    (node_n : nat) (node_seed : Z) (src : nat) (edges : list nat) :
  generate_delta_node node_n node_seed src edges
  = sn_delta node_n node_seed
      (map (λ edge, pairing_fn (src `min` edge) (src `max` edge)) edges)
  ∧ ∀ u v, generate_delta_node node_n node_seed u [v]
           = generate_delta_node node_n node_seed v [u].
Proof.
  split.
  - unfold generate_delta_node. f_equal. apply map_ext. intros edge.
    case_decide.
    + by rewrite Nat.min_l, Nat.max_r by lia.
    + by rewrite Nat.min_r, Nat.max_l by lia.
  - intros u v. unfold generate_delta_node. simpl.
    repeat case_decide; try done; try lia.
    by replace u with v by lia.
Qed.

Section ingest_facts.
Context `{ops : SupernodeOps}.

Lemma batch_update_result src edges g :
  batch_update src edges g =
    if update_locked g then (g, Threw UpdateLockedException)
    else match supernodes g !! src with
         | None => (g, Undefined)
         | Some s =>
             (set_supernodes
                (<[src := sn_apply_delta s
                            (generate_delta_node (sn_n s) (sn_seed s) src edges)]>
                   (supernodes g)) g, Returned ())
         end.
Proof. reflexivity. Qed.

End ingest_facts.

(** X5. Two calls of [batch_update] for different source vertices
    commute: applied in either order they leave the same graph, and each
    ends the way it ends on its own (applied, refused by the lock, or out of
    range).  A batch touches the supernode of its source only. *)
Theorem batches_for_distinct_nodes_commute `{ops : SupernodeOps}
    a ea b eb (g : Graph) :
  a ≠ b →
  (batch_update a ea (batch_update b eb g).1).1
  = (batch_update b eb (batch_update a ea g).1).1
  ∧ (batch_update a ea (batch_update b eb g).1).2 = (batch_update a ea g).2
  ∧ (batch_update b eb (batch_update a ea g).1).2 = (batch_update b eb g).2.
Proof.
  intros Hab. rewrite !batch_update_result.
  destruct (update_locked g) eqn:Hl; simpl; [by rewrite Hl |].
  destruct (supernodes g !! a) as [sa |] eqn:Ha;
    destruct (supernodes g !! b) as [sb |] eqn:Hb; simpl;
    rewrite ?Hl, ?list_lookup_insert_ne, ?Ha, ?Hb by done; simpl; try done.
  split; [| done]. unfold set_supernodes. simpl. f_equal.
  by apply list_insert_insert_ne.
Qed.

Lemma batches_for_distinct_nodes_commute_witness :
  (batch_update 0 [1] (batch_update 1 [0; 2] Demo.path4.2).1).1
  = (batch_update 1 [0; 2] (batch_update 0 [1] Demo.path4.2).1).1
  ∧ (batch_update 0 [1] (batch_update 1 [0; 2] Demo.path4.2).1).2
    = (batch_update 0 [1] Demo.path4.2).2
  ∧ (batch_update 1 [0; 2] (batch_update 0 [1] Demo.path4.2).1).2
    = (batch_update 1 [0; 2] Demo.path4.2).2.
Proof. apply (batches_for_distinct_nodes_commute 0 [1] 1 [0; 2] Demo.path4.2). lia. Defined.

(** ** The merge lists of a planning pass *)

Section merge_lists.
Import DSU.

Lemma root_was_root (p p' : list nat) b :
  roots_kept p p' → dsu_wf p = true → p' !! b = Some b → p !! b = Some b.
Proof.
  intros Hk Hwf Hb.
  assert (root_of p' b b) as Hr by (exists 0; by constructor).
  apply (roots_kept_back _ _ _ _ Hk Hwf) in Hr as [k Hd].
  by eapply dist_root_is_root.
Qed.

Lemma root_of_root (p : list nat) a r : p !! a = Some a → root_of p a r → r = a.
Proof.
  intros Ha Hr. eapply root_of_functional; [exact Hr |]. exists 0. by constructor.
Qed.

Lemma compress_merge_inv p0 p2 st :
  merge_inv p0 st → roots_kept (pl_parent st) p2 → dsu_wf (pl_parent st) = true →
  merge_inv p0 (mkPlan p2 (pl_size st) (pl_modified st) (pl_to_merge st)
                       (pl_new_reps st)).
Proof.
  intros (Hmem & Hnd & Hdem & Hroots) Hk Hwf. split_and!; simpl.
  - intros a b Hb. destruct (Hmem a b Hb) as (Hr & ? & ?).
    split_and!; try done. by apply Hk.
  - done.
  - intros b Hb0 Hb. apply Hdem; [done |]. intros Hb'. apply Hb.
    by eapply is_root_kept.
  - intros b Hb. apply Hroots. by eapply root_was_root.
Qed.

Lemma union_merge_inv n p0 a b st :
  plan_inv n st → merge_inv p0 st → a ≠ b →
  pl_parent st !! a = Some a → pl_parent st !! b = Some b →
  merge_inv p0 (union_roots a b st).
Proof.
  intros [Hpl Hwf Hsl Htl Htr] (Hmem & Hnd & Hdem & Hroots) Hab Ha Hb.
  assert (a < n) by (rewrite <- Hpl; by eapply lookup_lt_Some).
  assert (b < n) by (rewrite <- Hpl; by eapply lookup_lt_Some).
  destruct (union_roots_fields a b st)
    as (Hp & _ & Hbig & Hsmall & Hoth & _ & _ & _); [done | lia | lia |].
  set (big := if decide (at_ 0 (pl_size st) a < at_ 0 (pl_size st) b) then b else a) in *.
  set (small := if decide (at_ 0 (pl_size st) a < at_ 0 (pl_size st) b) then a else b) in *.
  assert (pl_parent st !! big = Some big ∧ pl_parent st !! small = Some small
          ∧ big ≠ small) as (Hbr & Hsr & Hne).
  { subst big small. by case_decide. }
  clearbody big small.
  assert (∀ w rw, root_of (pl_parent st) w rw →
                  root_of (pl_parent (union_roots a b st)) w
                          (if decide (rw = small) then big else rw)) as Hlink.
  { intros w rw Hw. rewrite Hp. by apply link_roots. }
  assert (∀ c, c ∈ at_ [] (pl_to_merge st) big ++ small :: at_ [] (pl_to_merge st) small →
               root_of (pl_parent (union_roots a b st)) c big ∧ c ≠ big
               ∧ p0 !! c = Some c) as Hnew.
  { intros c [Hc | [-> | Hc]%elem_of_cons]%elem_of_app.
    - destruct (Hmem _ _ Hc) as (Hr & ? & ?). split_and!; try done.
      apply Hlink in Hr. by rewrite decide_False in Hr.
    - split_and!; [| done | by apply Hroots].
      assert (root_of (pl_parent st) small small) as Hr by (exists 0; by constructor).
      apply Hlink in Hr. by rewrite decide_True in Hr.
    - destruct (Hmem _ _ Hc) as (Hr & ? & ?). split_and!; [| | done].
      + apply Hlink in Hr. by rewrite decide_True in Hr.
      + intros ->. by apply root_of_root in Hr. }
  split_and!.
  - intros x c Hc. destruct (decide (x = small)) as [-> | Hxs].
    { rewrite Hsmall in Hc. by apply elem_of_nil in Hc. }
    destruct (decide (x = big)) as [-> | Hxb].
    { rewrite Hbig in Hc. by apply Hnew. }
    rewrite Hoth in Hc by done. destruct (Hmem _ _ Hc) as (Hr & ? & ?).
    split_and!; try done. apply Hlink in Hr. by rewrite decide_False in Hr.
  - intros x. destruct (decide (x = small)) as [-> | Hxs].
    { rewrite Hsmall. apply NoDup_nil_2. }
    destruct (decide (x = big)) as [-> | Hxb]; [| rewrite Hoth by done; apply Hnd].
    rewrite Hbig. apply NoDup_app. split_and!; [apply Hnd | |].
    + intros c Hc [-> | Hc']%elem_of_cons.
      * destruct (Hmem _ _ Hc) as (Hr & _). by apply root_of_root in Hr.
      * destruct (Hmem _ _ Hc) as (Hr & _). destruct (Hmem _ _ Hc') as (Hr' & _).
        by pose proof (root_of_functional _ _ _ _ Hr Hr').
    + apply NoDup_cons. split; [| apply Hnd].
      intros Hc. by destruct (Hmem _ _ Hc) as (_ & ? & _).
  - intros c Hc0 Hc. destruct (decide (c = small)) as [-> | Hcs].
    { exists big. rewrite Hbig. apply elem_of_app. right. by left. }
    rewrite Hp, list_lookup_insert_ne in Hc by done.
    destruct (Hdem c Hc0 Hc) as [x Hx].
    destruct (decide (x = small)) as [-> | Hxs].
    { exists big. rewrite Hbig. apply elem_of_app. right. by right. }
    destruct (decide (x = big)) as [-> | Hxb].
    { exists big. rewrite Hbig. apply elem_of_app. by left. }
    exists x. by rewrite Hoth.
  - intros c. rewrite Hp. destruct (decide (c = small)) as [-> | Hcs].
    + rewrite list_lookup_insert_eq by (by eapply lookup_lt_Some). congruence.
    + rewrite list_lookup_insert_ne by done. apply Hroots.
Qed.

Lemma plan_step_merge_inv n p0 query st i st' :
  plan_inv n st → merge_inv p0 st → plan_step query st i = Some st' →
  merge_inv p0 st'.
Proof.
  intros Hinv Hm. unfold plan_step.
  destruct (query_at query i) as [[x y] []]; simpl.
  - destruct (get_parent _ _ x) as [[a p1] |] eqn:Hx; simpl; [| done].
    destruct (get_parent _ p1 y) as [[b p2] |] eqn:Hy; simpl; [| done].
    apply get_parent_Some in Hx as [Hra Hk1].
    apply get_parent_Some in Hy as [Hrb Hk2].
    pose proof (roots_kept_trans _ _ _ Hk1 Hk2) as Hk.
    set (st2 := mkPlan p2 (pl_size st) (pl_modified st) (pl_to_merge st)
                       (pl_new_reps st)).
    assert (plan_inv n st2) as Hinv2.
    { destruct Hinv as [Hpl Hwf Hsl Htl Htr]. split; simpl; try done.
      - destruct Hk. congruence.
      - by eapply roots_kept_wf.
      - intros c Hc. eapply is_root_kept; eauto. }
    assert (merge_inv p0 st2) as Hm2.
    { apply compress_merge_inv; [done | done | by destruct Hinv]. }
    case_decide; intros [= <-]; [done |].
    eapply union_merge_inv; try done; simpl.
    + destruct Hra as [k Hd]. apply dist_root_is_root in Hd.
      eapply is_root_kept; [exact Hk | exact Hd].
    + destruct Hrb as [k Hd]. apply dist_root_is_root in Hd.
      eapply is_root_kept; [exact Hk2 | exact Hd].
  - by intros [= <-].
  - by intros [= <-].
Qed.

Lemma plan_loop_merge_inv n p0 query reps : ∀ st st',
  plan_inv n st → merge_inv p0 st → plan_loop query st reps = Some st' →
  merge_inv p0 st'.
Proof.
  induction reps as [| i reps IH]; intros st st' Hinv Hm; simpl.
  - by intros [= <-].
  - destruct (plan_step query st i) as [st1 |] eqn:Hs; simpl; [| done].
    apply IH; [by eapply plan_step_inv | by eapply plan_step_merge_inv].
Qed.

Lemma initial_merge_inv (p : list nat) sz md n :
  merge_inv p (mkPlan p sz md (replicate n []) []).
Proof.
  split_and!; simpl.
  - intros a b. rewrite replicate_at. by intros ?%elem_of_nil.
  - intros a. rewrite replicate_at. apply NoDup_nil_2.
  - done.
  - done.
Qed.

(** The merge lists that a planning pass returns. *)
Lemma supernodes_to_merge_lists `{ops : SupernodeOps} query reps
    (g g' : Graph) reps' tm :
  graph_wf g →
  supernodes_to_merge query reps g = Some (g', reps', tm) →
  ∃ st, plan_inv (num_nodes g) st ∧ merge_inv (parent g) st
        ∧ pl_parent st = parent g' ∧ pl_to_merge st = tm.
Proof.
  intros Hwf (st & Hst & -> & _ & ->)%supernodes_to_merge_Some.
  exists st. split_and!; try done.
  - eapply plan_loop_inv; [| exact Hst]. by apply initial_plan_inv.
  - eapply plan_loop_merge_inv; [| | exact Hst].
    + by apply initial_plan_inv.
    + apply initial_merge_inv.
Qed.

End merge_lists.

(** X6. The merge lists that [supernodes_to_merge] returns.  A vertex
    [b] in [to_merge[a]] differs from [a], was a root when the pass began,
    has [a] as its root now, and has an empty list of its own; [a] is a
    root; no list names a vertex twice and no vertex is in two lists (so
    no supernode is merged twice); and every root that the pass demoted is
    in some list. *)
Theorem merge_lists_hold_the_absorbed_roots `{ops : SupernodeOps}
    query reps (g g' : Graph) reps' to_merge :
  graph_wf g →
  supernodes_to_merge query reps g = Some (g', reps', to_merge) →
  (∀ a b, b ∈ at_ [] to_merge a →
          b ≠ a ∧ parent g' !! a = Some a ∧ DSU.root_of (parent g') b a
          ∧ parent g !! b = Some b ∧ at_ [] to_merge b = [])
  ∧ (∀ a, NoDup (at_ [] to_merge a))
  ∧ (∀ a1 a2 b, b ∈ at_ [] to_merge a1 → b ∈ at_ [] to_merge a2 → a1 = a2)
  ∧ (∀ b, parent g !! b = Some b →
          parent g' !! b = Some b ∨ ∃ a, b ∈ at_ [] to_merge a).
Proof.
  intros Hwf Hplan.
  destruct (supernodes_to_merge_lists _ _ _ _ _ _ Hwf Hplan)
    as (st & [_ _ _ _ Htr] & (Hmem & Hnd & Hdem & _) & Hp & <-).
  rewrite <- Hp. split_and!; [| done | |].
  - intros a b Hb. destruct (Hmem a b Hb) as (Hr & Hne & Hb0).
    assert (pl_parent st !! a = Some a) as Ha.
    { apply Htr. intros Hnil. rewrite Hnil in Hb. by apply elem_of_nil in Hb. }
    split_and!; try done.
    destruct (at_ [] (pl_to_merge st) b) as [| c l] eqn:Hl; [done |].
    destruct Hne. symmetry. eapply root_of_root; [| exact Hr].
    apply Htr. by rewrite Hl.
  - intros a1 a2 b H1 H2. destruct (Hmem _ _ H1) as (Hr1 & _).
    destruct (Hmem _ _ H2) as (Hr2 & _). by eapply root_of_functional.
  - intros b Hb0. destruct (decide (pl_parent st !! b = Some b)); [by left |].
    right. by apply Hdem.
Qed.

Lemma merge_lists_hold_the_absorbed_roots_witness :
  let to_merge := [[1]; []; [3]; []] in
  let p := [0; 1; 2; 3] in
  let p' := [0; 0; 2; 2] in
  (∀ a b, b ∈ at_ [] to_merge a →
          b ≠ a ∧ p' !! a = Some a ∧ DSU.root_of p' b a
          ∧ p !! b = Some b ∧ at_ [] to_merge b = [])
  ∧ (∀ a, NoDup (at_ [] to_merge a))
  ∧ (∀ a1 a2 b, b ∈ at_ [] to_merge a1 → b ∈ at_ [] to_merge a2 → a1 = a2)
  ∧ (∀ b, p !! b = Some b → p' !! b = Some b ∨ ∃ a, b ∈ at_ [] to_merge a).
Proof.
  apply (merge_lists_hold_the_absorbed_roots
           [((0, 1), GOOD); ((0, 1), GOOD); ((2, 3), GOOD); ((2, 3), GOOD)]
           [0; 1; 2; 3] Demo.path4.2
           (set_modified true
              (set_size [2; 1; 2; 1] (set_parent [0; 0; 2; 2] Demo.path4.2)))
           [0; 2] [[1]; []; [3]; []]).
  - repeat split; reflexivity.
  - reflexivity.
Defined.

(** ** The classes of the forest through a planning pass *)

Section classes.
Import DSU.

Lemma same_root_kept (p p' : list nat) u v :
  roots_kept p p' → same_root p u v → same_root p' u v.
Proof. intros [_ Hk] (r & Hu & Hv). exists r. split; by apply Hk. Qed.

Lemma same_root_back (p p' : list nat) u v :
  roots_kept p p' → dsu_wf p = true → same_root p' u v → same_root p u v.
Proof.
  intros Hk Hwf (r & Hu & Hv). exists r. split; by eapply roots_kept_back.
Qed.

Lemma same_root_link (p : list nat) a b u v :
  p !! a = Some a → p !! b = Some b → a ≠ b →
  same_root p u v → same_root (<[b := a]> p) u v.
Proof.
  intros Ha Hb Hab (r & Hu & Hv). eexists. split; by apply link_roots.
Qed.

(** The classes after hanging the root [b] below the root [a]. *)
Lemma same_root_link_back (p : list nat) a b u v :
  dsu_wf p = true → p !! a = Some a → p !! b = Some b → a ≠ b →
  same_root (<[b := a]> p) u v →
  same_root p u v
  ∨ (root_of p u a ∧ root_of p v b) ∨ (root_of p u b ∧ root_of p v a).
Proof.
  intros Hwf Ha Hb Hab (r & Hu & Hv). rewrite dsu_wf_spec in Hwf.
  assert (∀ w, root_of (<[b := a]> p) w r →
               ∃ rw, root_of p w rw ∧ r = if decide (rw = b) then a else rw)
    as Hsrc.
  { intros w Hw. destruct (Hwf w) as [rw Hrw].
    { destruct Hw as [k Hd]. apply dist_lt in Hd. by rewrite length_insert in Hd. }
    exists rw. split; [done |].
    eapply root_of_functional; [exact Hw | by apply link_roots]. }
  destruct (Hsrc u Hu) as (ru & Hru & Heu). destruct (Hsrc v Hv) as (rv & Hrv & Hev).
  destruct (decide (ru = rv)) as [-> | Hne]; [left; by exists rv |].
  right. repeat case_decide; subst; try done; [left | right]; done.
Qed.

Lemma plan_step_classes n query st i st' :
  plan_inv n st → plan_step query st i = Some st' →
  (∀ u v, same_root (pl_parent st) u v → same_root (pl_parent st') u v)
  ∧ (∀ x y, query_at query i = ((x, y), GOOD) → same_root (pl_parent st') x y)
  ∧ (∀ u v, same_root (pl_parent st') u v →
            same_root (pl_parent st) u v
            ∨ ∃ x y, query_at query i = ((x, y), GOOD)
                     ∧ ((same_root (pl_parent st) u x ∧ same_root (pl_parent st) y v)
                        ∨ (same_root (pl_parent st) u y
                           ∧ same_root (pl_parent st) x v))).
Proof.
  intros [Hpl Hwf Hsl Htl Htr]. unfold plan_step.
  destruct (query_at query i) as [[x y] []] eqn:Hq; simpl.
  - destruct (get_parent _ _ x) as [[a p1] |] eqn:Hx; simpl; [| done].
    destruct (get_parent _ p1 y) as [[b p2] |] eqn:Hy; simpl; [| done].
    apply get_parent_Some in Hx as [Hra Hk1].
    apply get_parent_Some in Hy as [Hrb Hk2].
    pose proof (roots_kept_trans _ _ _ Hk1 Hk2) as Hk.
    pose proof (roots_kept_wf _ _ Hk Hwf) as Hwf2.
    assert (root_of p2 x a) as Hxa by (by apply Hk).
    assert (root_of p2 y b) as Hyb by (by apply Hk2).
    assert (root_of (pl_parent st) y b) as Hyb0.
    { eapply roots_kept_back; [exact Hk1 | done | done]. }
    case_decide as Hab; intros [= <-]; simpl.
    + subst b. split_and!.
      * intros u v. by apply same_root_kept.
      * intros ? ? [= <- <-]. by exists a.
      * intros u v Huv. left. by eapply same_root_back.
    + assert (p2 !! a = Some a ∧ p2 !! b = Some b) as [Ha2 Hb2].
      { destruct Hxa as [? ?], Hyb as [? ?]. split; by eapply dist_root_is_root. }
      assert (∃ big small,
                pl_parent (union_roots a b
                             (mkPlan p2 (pl_size st) (pl_modified st)
                                     (pl_to_merge st) (pl_new_reps st)))
                = <[small := big]> p2
                ∧ p2 !! big = Some big ∧ p2 !! small = Some small ∧ big ≠ small
                ∧ ((big = a ∧ small = b) ∨ (big = b ∧ small = a)))
        as (big & small & -> & Hbr & Hsr & Hne & Hcase).
      { unfold union_roots. simpl. case_decide; simpl.
        - exists b, a. split_and!; try done. by right.
        - exists a, b. split_and!; try done. by left. }
      split_and!.
      * intros u v Huv. apply same_root_link; try done. by eapply same_root_kept.
      * intros ? ? [= <- <-]. exists big.
        pose proof (link_roots _ _ _ Hbr Hsr Hne _ _ Hxa) as Hx'.
        pose proof (link_roots _ _ _ Hbr Hsr Hne _ _ Hyb) as Hy'.
        destruct Hcase as [[-> ->] | [-> ->]];
          repeat case_decide; subst; try done.
      * intros u v Huv.
        apply same_root_link_back in Huv as [Huv | Huv]; try done.
        { left. by eapply same_root_back. }
        right. exists x, y. split; [done |].
        assert (∀ w r, root_of p2 w r → root_of (pl_parent st) w r) as Hback.
        { intros w r. by apply roots_kept_back. }
        destruct Hcase as [[-> ->] | [-> ->]];
          destruct Huv as [[Hu Hv] | [Hu Hv]];
          [left | right | right | left]; split; eexists; split; eauto.
  - intros [= <-]. split_and!; [done | by intros ? ? [=] | by left].
  - intros [= <-]. simpl. split_and!; [done | by intros ? ? [=] | by left].
Qed.

Lemma plan_loop_classes n query reps : ∀ st st',
  plan_inv n st → plan_loop query st reps = Some st' →
  (∀ u v, same_root (pl_parent st) u v → same_root (pl_parent st') u v)
  ∧ (∀ i x y, i ∈ reps → query_at query i = ((x, y), GOOD) →
              same_root (pl_parent st') x y)
  ∧ (∀ R : relation nat, Equivalence R →
       (∀ u v, same_root (pl_parent st) u v → R u v) →
       (∀ i x y, i ∈ reps → query_at query i = ((x, y), GOOD) → R x y) →
       ∀ u v, same_root (pl_parent st') u v → R u v).
Proof.
  induction reps as [| i reps IH]; intros st st' Hinv; simpl.
  - intros [= <-]. split_and!; [done | | by auto].
    intros i x y Hi. by apply elem_of_nil in Hi.
  - destruct (plan_step query st i) as [st1 |] eqn:Hs; simpl; [| done].
    intros Hloop.
    destruct (plan_step_classes _ _ _ _ _ Hinv Hs) as (Hfwd & Hjoin & Hback).
    destruct (IH _ _ (plan_step_inv _ _ _ _ _ Hinv Hs) Hloop)
      as (Hfwd' & Hjoin' & Hback').
    split_and!.
    + auto.
    + intros j x y [-> | Hj]%elem_of_cons Hq; [by apply Hfwd', Hjoin | eauto].
    + intros R HR Hold Hedges u v Huv.
      apply (Hback' R HR); [| | done].
      * intros u' v' Huv'.
        destruct (Hback _ _ Huv') as [? | (x & y & Hq & Hcases)]; [by apply Hold |].
        assert (R x y) as Hxy by (apply (Hedges i); [by left | done]).
        destruct Hcases as [[? ?] | [? ?]].
        -- transitivity x; [by apply Hold |]. transitivity y; [done | by apply Hold].
        -- transitivity y; [by apply Hold |]. transitivity x; [by symmetry | by apply Hold].
      * intros j x y Hj. apply Hedges. by right.
Qed.

End classes.

(** X7. What [supernodes_to_merge] does to the classes of the forest.
    It never splits a class; the two endpoints of every edge sampled [GOOD]
    by a representative end in one class; and it joins nothing else: any
    equivalence relation that contains the old classes and the sampled
    edges contains the new classes. *)
Theorem planning_merges_exactly_along_samples `{ops : SupernodeOps}
    query reps (g g' : Graph) reps' to_merge :
  graph_wf g →
  supernodes_to_merge query reps g = Some (g', reps', to_merge) →
  (∀ u v, same_root (parent g) u v → same_root (parent g') u v)
  ∧ (∀ i x y, i ∈ reps → query_at query i = ((x, y), GOOD) →
              same_root (parent g') x y)
  ∧ (∀ R : relation nat, Equivalence R →
       (∀ u v, same_root (parent g) u v → R u v) →
       (∀ i x y, i ∈ reps → query_at query i = ((x, y), GOOD) → R x y) →
       ∀ u v, same_root (parent g') u v → R u v).
Proof.
  intros Hwf (st & Hst & -> & _ & _)%supernodes_to_merge_Some.
  apply (plan_loop_classes _ _ _ _ _ (initial_plan_inv g Hwf) Hst).
Qed.

Lemma planning_merges_exactly_along_samples_witness :
  let p := [0; 1; 2; 3] in
  let p' := [0; 0; 2; 2] in
  let query := [((0, 1), GOOD); ((0, 1), GOOD); ((2, 3), GOOD); ((2, 3), GOOD)] in
  (∀ u v, same_root p u v → same_root p' u v)
  ∧ (∀ i x y, i ∈ [0; 1; 2; 3] → query_at query i = ((x, y), GOOD) →
              same_root p' x y)
  ∧ (∀ R : relation nat, Equivalence R →
       (∀ u v, same_root p u v → R u v) →
       (∀ i x y, i ∈ [0; 1; 2; 3] → query_at query i = ((x, y), GOOD) → R x y) →
       ∀ u v, same_root p' u v → R u v).
Proof.
  apply (planning_merges_exactly_along_samples
           [((0, 1), GOOD); ((0, 1), GOOD); ((2, 3), GOOD); ((2, 3), GOOD)]
           [0; 1; 2; 3] Demo.path4.2
           (set_modified true
              (set_size [2; 1; 2; 1] (set_parent [0; 0; 2; 2] Demo.path4.2)))
           [0; 2] [[1]; []; [3]; []]).
  - repeat split; reflexivity.
  - reflexivity.
Defined.

(** ** The representatives of the next round *)

(** X8. The representative list that [supernodes_to_merge] returns, in
    closed form: the representatives that sampled [FAIL] and have an empty
    merge list, in the order of the list that came in, followed by every
    vertex with a non-empty merge list in ascending order.  A vertex with
    a non-empty merge list is a vertex id and a root; and the list has no
    repetition when the one that came in has none. *)
Theorem next_representatives_are_retries_then_targets `{ops : SupernodeOps}
    query reps (g g' : Graph) reps' to_merge :
  graph_wf g →
  supernodes_to_merge query reps g = Some (g', reps', to_merge) →
  reps' = filter (λ a, (query_at query a).2 = FAIL ∧ at_ [] to_merge a = []) reps
          ++ filter (λ a, at_ [] to_merge a ≠ []) (seq 0 (num_nodes g))
  ∧ (∀ a, at_ [] to_merge a ≠ [] → a < num_nodes g ∧ parent g' !! a = Some a)
  ∧ (NoDup reps → NoDup reps').
Proof.
  intros Hwf Hplan. pose proof Hplan as Hplan'.
  apply supernodes_to_merge_Some in Hplan' as (st & Hst & -> & -> & ->).
  pose proof (plan_loop_inv _ _ _ _ _ (initial_plan_inv g Hwf) Hst)
    as [Hpl _ _ Htl Htr].
  pose proof (plan_loop_new_reps _ _ _ _ Hst) as Hnr. simpl in Hnr.
  split_and!.
  - unfold next_reps. rewrite Hnr, list_filter_filter. f_equal.
    + apply list_filter_iff. intros a.
      destruct (at_ [] (pl_to_merge st) a); simpl; split; intros [? ?]; done.
    + apply list_filter_iff. intros a. by destruct (at_ [] (pl_to_merge st) a).
  - intros a Ha. pose proof (Htr a Ha) as Hroot. split; [| done].
    simpl in Hpl. rewrite <- Hpl. by eapply lookup_lt_Some.
  - intros Hnd. apply next_reps_NoDup. rewrite Hnr. by apply NoDup_filter.
Qed.

Lemma next_representatives_are_retries_then_targets_witness :
  let query := [((0, 1), GOOD); ((0, 0), FAIL); ((1, 2), GOOD); ((0, 0), FAIL)] in
  let to_merge := [[1; 2]; []; []; []] in
  [3; 1; 0]
  = filter (λ a, (query_at query a).2 = FAIL ∧ at_ [] to_merge a = []) [0; 3; 1; 2]
    ++ filter (λ a, at_ [] to_merge a ≠ []) (seq 0 4)
  ∧ (∀ a, at_ [] to_merge a ≠ [] → a < 4 ∧ [0; 0; 0; 3] !! a = Some a)
  ∧ (NoDup [0; 3; 1; 2] → NoDup [3; 1; 0]).
Proof.
  apply (next_representatives_are_retries_then_targets
           [((0, 1), GOOD); ((0, 0), FAIL); ((1, 2), GOOD); ((0, 0), FAIL)]
           [0; 3; 1; 2] Demo.path4.2
           (set_modified true
              (set_size [3; 1; 1; 1] (set_parent [0; 0; 0; 3] Demo.path4.2)))
           [3; 1; 0] [[1; 2]; []; []; []]).
  - repeat split; reflexivity.
  - reflexivity.
Defined.

(** ** When the driver loop goes on *)

Section loop_test.
Context `{ops : SupernodeOps}.

(** [modified] is set exactly when a retry was queued or a merge planned. *)
Lemma plan_step_modified n query st i st' :
  plan_inv n st → plan_step query st i = Some st' →
  (pl_modified st = true ↔
     pl_new_reps st ≠ [] ∨ ∃ a, at_ [] (pl_to_merge st) a ≠ []) →
  (pl_modified st' = true ↔
     pl_new_reps st' ≠ [] ∨ ∃ a, at_ [] (pl_to_merge st') a ≠ []).
Proof.
  intros Hinv Hs Hm. pose proof Hs as Hs'. revert Hs'. unfold plan_step.
  destruct (query_at query i) as [[x y] []]; simpl.
  - destruct (DSU.get_parent _ _ x) as [[a p1] |] eqn:Hx; simpl; [| done].
    destruct (DSU.get_parent _ p1 y) as [[b p2] |] eqn:Hy; simpl; [| done].
    case_decide as Hab; intros [= <-]; simpl; [done |].
    apply get_parent_Some in Hx as [[ka Hda] Hk1].
    apply get_parent_Some in Hy as [[kb Hdb] Hk2].
    destruct Hinv as [Hpl _ _ Htl _].
    assert (a < n ∧ b < n) as [Ha Hb].
    { destruct Hk1 as [Hl1 _]. apply dist_root_lt in Hda, Hdb. lia. }
    destruct (union_roots_fields a b
                (mkPlan p2 (pl_size st) (pl_modified st) (pl_to_merge st)
                        (pl_new_reps st)))
      as (_ & _ & Hbig & _ & _ & _ & Hmod & _); [done | simpl; lia | simpl; lia |].
    rewrite Hmod. split; [intros _ | done]. right. eexists. rewrite Hbig.
    intros Heq. symmetry in Heq. by apply app_cons_not_nil in Heq.
  - by intros [= <-].
  - intros [= <-]. simpl. split; [intros _ | done]. left.
    by destruct (pl_new_reps st).
Qed.

Lemma plan_loop_modified n query reps : ∀ st st',
  plan_inv n st → plan_loop query st reps = Some st' →
  (pl_modified st = true ↔
     pl_new_reps st ≠ [] ∨ ∃ a, at_ [] (pl_to_merge st) a ≠ []) →
  (pl_modified st' = true ↔
     pl_new_reps st' ≠ [] ∨ ∃ a, at_ [] (pl_to_merge st') a ≠ []).
Proof.
  induction reps as [| i reps IH]; intros st st' Hinv; simpl.
  - by intros [= <-].
  - destruct (plan_step query st i) as [st1 |] eqn:Hs; simpl; [| done].
    intros Hloop Hm. eapply IH; [| exact Hloop |].
    + by eapply plan_step_inv.
    + by eapply plan_step_modified.
Qed.

Lemma next_reps_nil n tm new_reps :
  length tm = n →
  next_reps n tm new_reps = [] ↔ new_reps = [] ∧ ∀ a, at_ [] tm a = [].
Proof.
  intros Hlen. unfold next_reps. split.
  - intros [Hretry Htargets]%app_eq_nil.
    assert (∀ a, at_ [] tm a = []) as Hall.
    { intros a. destruct (at_ [] tm a) as [| c l] eqn:Ha; [done |].
      assert (a ∈ filter (λ a, nonempty (at_ [] tm a) = true) (seq 0 n)) as Hin.
      { apply list_elem_of_filter. split; [by rewrite Ha |].
        apply elem_of_seq. split; [lia |]. simpl.
        destruct (decide (a < n)); [done |].
        unfold at_ in Ha. rewrite lookup_ge_None_2 in Ha by lia. done. }
      rewrite Htargets in Hin. by apply elem_of_nil in Hin. }
    split; [| done]. destruct new_reps as [| c l]; [done |].
    assert (c ∈ filter (λ a, nonempty (at_ [] tm a) = false) (c :: l)) as Hin.
    { apply list_elem_of_filter. split; [by rewrite Hall | by left]. }
    rewrite Hretry in Hin. by apply elem_of_nil in Hin.
  - intros [-> Hall]. rewrite filter_nil. simpl.
    induction (seq 0 n) as [| a l IH]; [done |].
    rewrite filter_cons, decide_False; [done |]. by rewrite Hall.
Qed.

Lemma supernodes_to_merge_modified query reps (g g' : Graph) reps' tm :
  graph_wf g → modified g = false →
  supernodes_to_merge query reps g = Some (g', reps', tm) →
  modified g' = true ↔ reps' ≠ [].
Proof.
  intros Hwf Hmod (st & Hst & -> & -> & _)%supernodes_to_merge_Some. simpl.
  pose proof (plan_loop_inv _ _ _ _ _ (initial_plan_inv g Hwf) Hst) as [_ _ _ Htl _].
  rewrite (next_reps_nil _ _ _ Htl).
  assert (pl_modified st = true ↔
            pl_new_reps st ≠ [] ∨ ∃ a, at_ [] (pl_to_merge st) a ≠ []) as Hiff.
  { apply (plan_loop_modified _ _ _ _ _ (initial_plan_inv g Hwf) Hst).
    simpl. rewrite Hmod. split; [done |]. intros [? | [a Ha]]; [done |].
    by rewrite replicate_at in Ha. }
  split.
  - intros [Hnr | [a Ha]]%Hiff [Hnil Hall]; [done | by apply Ha].
  - intros Hne. destruct (pl_modified st); [done |]. destruct Hne. split.
    + destruct (pl_new_reps st) as [| c l]; [done |].
      assert (false = true) as [=]. apply Hiff. by left.
    + intros a. destruct (at_ [] (pl_to_merge st) a) as [| c l] eqn:Ha; [done |].
      assert (false = true) as [=]. apply Hiff. right. exists a. by rewrite Ha.
Qed.

Lemma boruvka_round_reps mk w (g : Graph) d w' g' d' b :
  graph_wf g → boruvka_round mk w g d = (w', g', d', Returned b) →
  b = true ↔ dr_reps d' ≠ [].
Proof.
  intros Hwf Hr.
  apply boruvka_round_cases in Hr as (sns & query & err & Hs & Hcases).
  simpl in Hcases.
  destruct Hcases as
    [(e & _ & [=] & _)
    | [(_ & _ & [=] & _)
      | (-> & g1 & reps & tm & Hp & Hrest)]].
  destruct Hrest as
    [(_ & _ & [=] & _)
    | (_ & sns2 & copies & err2 & Hm & -> & Hend)].
  destruct Hend as [(e & _ & [=] & _) | (-> & [= ->] & ->)]. simpl.
  eapply supernodes_to_merge_modified; [| | exact Hp]; [| done].
  pose proof (sample_supernodes_length (supernodes g) (dr_query d) (dr_reps d))
    as Hlen.
  rewrite Hs in Hlen. simpl in Hlen.
  destruct Hwf as (? & ? & ? & ?). repeat split; simpl; try done. congruence.
Qed.

Lemma boruvka_loop_reps mk fuel : ∀ w (g : Graph) d w' g' d' u,
  graph_wf g → boruvka_loop fuel mk w g d = (w', g', d', Returned u) →
  dr_reps d' = [].
Proof.
  induction fuel as [| fuel IH]; intros w g d w' g' d' u Hwf; simpl; [done |].
  destruct (boruvka_round mk w g d) as [[[w1 g1] d1] r1] eqn:Hr.
  destruct r1 as [[] | | | |]; try done.
  - apply IH. by destruct (boruvka_round_wf _ _ _ _ _ _ _ _ Hwf Hr).
  - intros [= <- <- <- <-].
    pose proof (boruvka_round_reps _ _ _ _ _ _ _ _ Hwf Hr) as Hb.
    destruct (dr_reps d1) as [| c l]; [done |].
    assert (false = true) as [=]. by apply Hb.
Qed.

End loop_test.

(** X9. The test of the [do ... while (modified)] loop.  A round that
    completes leaves [modified] set exactly when it leaves a representative
    for the next round (a retry or a merge target); so when the loop ends
    normally the representative list is empty. *)
Theorem loop_runs_while_representatives_remain `{ops : SupernodeOps}
    fuel make_copy w (g : Graph) d :
  graph_wf g →
  match boruvka_round make_copy w g d with
  | (_, _, d', Returned again) => again = true ↔ dr_reps d' ≠ []
  | _ => True
  end
  ∧ match boruvka_loop fuel make_copy w g d with
    | (_, _, d', Returned _) => dr_reps d' = []
    | _ => True
    end.
Proof.
  intros Hwf. split.
  - destruct (boruvka_round make_copy w g d) as [[[w1 g1] d1] [b | | | |]] eqn:Hr;
      try done.
    by eapply boruvka_round_reps.
  - destruct (boruvka_loop fuel make_copy w g d) as [[[w1 g1] d1] [u | | | |]] eqn:Hl;
      try done.
    by eapply boruvka_loop_reps.
Qed.

Lemma loop_runs_while_representatives_remain_witness :
  let g := set_size [1; 1; 1; 1] (set_update_locked true Demo.path4.2) in
  let d := init_driver true Demo.path4.2 in
  match boruvka_round true Demo.path4.1 g d with
  | (_, _, d', Returned again) => again = true ↔ dr_reps d' ≠ []
  | _ => True
  end
  ∧ match boruvka_loop 10 true Demo.path4.1 g d with
    | (_, _, d', Returned _) => dr_reps d' = []
    | _ => True
    end.
Proof.
  apply (loop_runs_while_representatives_remain 10 true Demo.path4.1
           (set_size [1; 1; 1; 1] (set_update_locked true Demo.path4.2))
           (init_driver true Demo.path4.2)).
  repeat split; reflexivity.
Defined.

(** ** The [size] array *)

Section sizes.
Context `{ops : SupernodeOps}.
Import DSU.

Lemma class_size_kept (p p' : list nat) r :
  roots_kept p p' → dsu_wf p = true → class_size p' r = class_size p r.
Proof.
  intros Hk Hwf. unfold class_size.
  replace (seq 0 (length p')) with (seq 0 (length p)) by (by destruct Hk as [-> _]).
  f_equal. apply list_filter_iff. intros v.
  by rewrite (find_roots_kept p p' v Hk Hwf).
Qed.

Lemma find_link (p : list nat) a b v :
  dsu_wf p = true → p !! a = Some a → p !! b = Some b → a ≠ b →
  find (length (<[b := a]> p)) (<[b := a]> p) v
  = (λ r, if decide (r = b) then a else r) <$> find (length p) p v.
Proof.
  intros Hwf Ha Hb Hab. destruct (decide (v < length p)) as [Hv | Hv].
  - rewrite dsu_wf_spec in Hwf. destruct (Hwf v Hv) as [r Hr].
    rewrite (proj2 (find_root_of p v r) Hr). simpl.
    apply find_root_of. by apply link_roots.
  - rewrite !find_out_of_range; [done | lia | rewrite length_insert; lia].
Qed.

(** Counting after two values of [f] have been identified. *)
Lemma count_merged (f : nat → option nat) (a b : nat) (l : list nat) :
  a ≠ b →
  let f' v := (λ r, if decide (r = b) then a else r) <$> f v in
  length (filter (λ v, f' v = Some a) l)
  = length (filter (λ v, f v = Some a) l) + length (filter (λ v, f v = Some b) l)
  ∧ ∀ r, r ≠ a → r ≠ b →
         length (filter (λ v, f' v = Some r) l)
         = length (filter (λ v, f v = Some r) l).
Proof.
  intros Hab f'. subst f'. induction l as [| v l [IHa IHr]]; [done |].
  split.
  - rewrite !filter_cons. destruct (f v) as [r |] eqn:Hv; simpl.
    + repeat case_decide; simplify_eq; simpl; lia.
    + repeat case_decide; simplify_eq; simpl; lia.
  - intros r Hra Hrb. specialize (IHr r Hra Hrb).
    rewrite !filter_cons. destruct (f v) as [r' |] eqn:Hv; simpl.
    + repeat case_decide; simplify_eq; simpl; lia.
    + repeat case_decide; simplify_eq; simpl; lia.
Qed.

Lemma class_size_link (p : list nat) a b :
  dsu_wf p = true → p !! a = Some a → p !! b = Some b → a ≠ b →
  class_size (<[b := a]> p) a = class_size p a + class_size p b
  ∧ ∀ r, r ≠ a → r ≠ b → class_size (<[b := a]> p) r = class_size p r.
Proof.
  intros Hwf Ha Hb Hab. unfold class_size.
  destruct (count_merged (find (length p) p) a b (seq 0 (length p)) Hab)
    as [Hca Hcr].
  rewrite length_insert. split.
  - rewrite <- Hca. f_equal. apply list_filter_iff. intros v.
    rewrite <- (length_insert p b a) at 1. by rewrite find_link.
  - intros r Hra Hrb. rewrite <- Hcr by done. f_equal.
    apply list_filter_iff. intros v.
    rewrite <- (length_insert p b a) at 1. by rewrite find_link.
Qed.

Lemma plan_step_sizes n query st i st' :
  plan_inv n st → plan_step query st i = Some st' →
  sizes_exact (pl_parent st) (pl_size st) →
  sizes_exact (pl_parent st') (pl_size st').
Proof.
  intros [Hpl Hwf Hsl Htl Htr] Hs Hsz. revert Hs. unfold plan_step.
  destruct (query_at query i) as [[x y] []]; simpl.
  - destruct (get_parent _ _ x) as [[a p1] |] eqn:Hx; simpl; [| done].
    destruct (get_parent _ p1 y) as [[b p2] |] eqn:Hy; simpl; [| done].
    apply get_parent_Some in Hx as [[ka Hda] Hk1].
    apply get_parent_Some in Hy as [[kb Hdb] Hk2].
    pose proof (roots_kept_trans _ _ _ Hk1 Hk2) as Hk.
    pose proof (roots_kept_wf _ _ Hk Hwf) as Hwf2.
    assert (sizes_exact p2 (pl_size st)) as Hsz2.
    { intros r Hr. rewrite (class_size_kept _ _ r Hk Hwf). apply Hsz.
      by eapply root_was_root. }
    case_decide as Hab; intros [= <-]; [done |].
    assert (p2 !! a = Some a ∧ p2 !! b = Some b) as [Ha2 Hb2].
    { split.
      - eapply is_root_kept; [exact Hk | by eapply dist_root_is_root].
      - eapply is_root_kept; [exact Hk2 | by eapply dist_root_is_root]. }
    assert (a < n ∧ b < n) as [Han Hbn].
    { destruct Hk as [Hl _]. rewrite <- Hpl, <- Hl.
      split; by eapply lookup_lt_Some. }
    destruct (union_roots_fields a b
                (mkPlan p2 (pl_size st) (pl_modified st) (pl_to_merge st)
                        (pl_new_reps st)))
      as (Hp & Hs & _); [done | simpl; lia | simpl; lia |].
    simpl in Hp, Hs. rewrite Hp, Hs. clear Hp Hs.
    set (big := if decide (at_ 0 (pl_size st) a < at_ 0 (pl_size st) b) then b else a).
    set (small := if decide (at_ 0 (pl_size st) a < at_ 0 (pl_size st) b) then a else b).
    assert (p2 !! big = Some big ∧ p2 !! small = Some small ∧ big ≠ small
            ∧ big < n) as (Hbr & Hsr & Hne & Hbl).
    { subst big small. by case_decide. }
    clearbody big small.
    destruct (class_size_link p2 big small Hwf2 Hbr Hsr Hne) as [Hcb Hcr].
    intros r Hr. destruct (decide (r = small)) as [-> | Hrs].
    { rewrite list_lookup_insert_eq in Hr by (by eapply lookup_lt_Some).
      congruence. }
    rewrite list_lookup_insert_ne in Hr by done.
    destruct (decide (r = big)) as [-> | Hrb].
    + rewrite at_insert_eq by lia. rewrite Hcb. by rewrite !Hsz2.
    + rewrite at_insert_ne by done. rewrite Hcr by done. by apply Hsz2.
  - by intros [= <-].
  - by intros [= <-].
Qed.

Lemma plan_loop_sizes n query reps : ∀ st st',
  plan_inv n st → plan_loop query st reps = Some st' →
  sizes_exact (pl_parent st) (pl_size st) →
  sizes_exact (pl_parent st') (pl_size st').
Proof.
  induction reps as [| i reps IH]; intros st st' Hinv; simpl.
  - by intros [= <-].
  - destruct (plan_step query st i) as [st1 |] eqn:Hs; simpl; [| done].
    intros Hloop Hsz. eapply IH; [| exact Hloop |].
    + by eapply plan_step_inv.
    + by eapply plan_step_sizes.
Qed.

Lemma boruvka_round_sizes mk w (g : Graph) d w' g' d' r :
  graph_wf g → sizes_exact (parent g) (size g) →
  boruvka_round mk w g d = (w', g', d', r) →
  sizes_exact (parent g') (size g').
Proof.
  intros Hwf Hsz (sns & query & err & Hs & Hcases)%boruvka_round_cases.
  simpl in Hcases.
  destruct Hcases as
    [(e & -> & -> & -> & -> & ->)
    | [(-> & Hp & -> & -> & -> & ->)
      | (-> & g1 & reps & tm & Hp & Hrest)]]; try done.
  assert (sizes_exact (parent g1) (size g1)) as Hsz1.
  { apply supernodes_to_merge_Some in Hp as (st & Hst & -> & _ & _). simpl in *.
    eapply plan_loop_sizes; [| exact Hst | done].
    destruct Hwf as (? & ? & ? & ?). split; simpl; try done.
    - by rewrite length_replicate.
    - intros a. by rewrite replicate_at. }
  destruct Hrest as
    [(_ & _ & -> & -> & -> & ->)
    | (_ & sns2 & copies & err2 & _ & -> & _)]; done.
Qed.

Lemma count_eq (r a n : nat) :
  length (filter (λ v, v = r) (seq a n)) = if decide (a ≤ r < a + n) then 1 else 0.
Proof.
  revert a. induction n as [| n IH]; intros a; simpl.
  - case_decide; [lia | done].
  - rewrite filter_cons. specialize (IH (S a)).
    repeat case_decide; simpl; rewrite ?IH; repeat case_decide; lia.
Qed.

Lemma identity_sizes n : sizes_exact (identity n) (replicate n 1).
Proof.
  intros r Hr. pose proof (lookup_lt_Some _ _ _ Hr) as Hlt.
  unfold identity in *. rewrite length_seq in Hlt.
  unfold at_. rewrite lookup_replicate_2 by done. simpl.
  unfold class_size. rewrite length_seq.
  rewrite (list_filter_iff _ (λ v, v = r)).
  - rewrite count_eq. by rewrite decide_True by lia.
  - intros v. destruct (decide (v < n)) as [Hv | Hv].
    + assert (find (length (seq 0 n)) (seq 0 n) v = Some v) as Hf.
      { apply find_root_of. exists 0. constructor. by rewrite lookup_seq_lt. }
      rewrite length_seq in Hf. rewrite Hf. split; congruence.
    + rewrite find_out_of_range by (rewrite length_seq; lia).
      split; [done | lia].
Qed.

Lemma boruvka_emulation_sizes fuel mk w (g : Graph) :
  graph_wf g → parent g = identity (num_nodes g) →
  sizes_exact (parent (boruvka_emulation fuel mk w g).1.1.2)
              (size (boruvka_emulation fuel mk w g).1.1.2).
Proof.
  intros Hwf Hid. unfold boruvka_emulation.
  change (num_nodes (set_update_locked true g)) with (num_nodes g).
  set (g0 := set_size _ _).
  assert (graph_wf g0 ∧ sizes_exact (parent g0) (size g0)) as H0.
  { split.
    - destruct Hwf as (? & ? & ? & ?). repeat split; simpl; try done.
      by rewrite length_replicate.
    - simpl. rewrite Hid. apply identity_sizes. }
  destruct (boruvka_loop fuel mk w g0 _) as [[[w1 g1] d1] r1] eqn:Hloop.
  apply (boruvka_loop_invariant
           (λ _ g2 _, graph_wf g2 ∧ sizes_exact (parent g2) (size g2)))
    in Hloop as [Hwf1 Hsz1]; [| | done].
  2: { intros w2 g2 d2 w3 g3 d3 r2 [Hwf2 Hsz2] Hr. split.
       - by destruct (boruvka_round_wf _ _ _ _ _ _ _ _ Hwf2 Hr).
       - by eapply boruvka_round_sizes. }
  unfold finish_query. destruct r1 as [[] | e | | |]; try done.
  - destruct Hwf1 as (_ & Hpl & _ & Hpw).
    destruct (components_spec _ _ Hpl Hpw) as (p' & sets & -> & Hk & _ & _).
    assert (sizes_exact p' (size g1)) as Hsz2.
    { intros r Hr. rewrite (class_size_kept _ _ r Hk Hpw). apply Hsz1.
      by eapply root_was_root. }
    destruct (cleanup_copy _ _ _ _) as [g2 |] eqn:Hc; [| done].
    by apply cleanup_copy_fields in Hc as [sns ->].
  - destruct (cleanup_copy _ _ _ _) as [g2 |] eqn:Hc; [| done].
    by apply cleanup_copy_fields in Hc as [sns ->].
Qed.

End sizes.

(** ** The two parallel loops, slot by slot *)

Section parallel_loops.
Context `{ops : SupernodeOps}.

(** The loop of [sample_supernodes] over representatives without
    repetition, started from any accumulator. *)
Lemma sample_fold reps : ∀ sa qa ea sf qf ef,
  foldl sample_one (sa, qa, ea) reps = (sf, qf, ef) →
  NoDup reps → length qa = length sa →
  (length sf = length sa ∧ length qf = length qa)
  ∧ (∀ i, i ∉ reps → sf !! i = sa !! i ∧ qf !! i = qa !! i)
  ∧ (∀ r s, r ∈ reps → sa !! r = Some s →
       sf !! r = Some (sn_sample s).1
       ∧ qf !! r = match (sn_sample s).2 with
                   | inr q => Some q
                   | inl _ => qa !! r
                   end)
  ∧ (ef = None ↔
       ea = None ∧ ∀ r s, r ∈ reps → sa !! r = Some s →
                          ∃ q, (sn_sample s).2 = inr q)
  ∧ (∀ e, ef = Some e →
       ea = Some e ∨ ∃ r s, r ∈ reps ∧ sa !! r = Some s
                            ∧ (sn_sample s).2 = inl e).
Proof.
  induction reps as [| r reps IH]; intros sa qa ea sf qf ef; simpl foldl.
  - intros [= <- <- <-] _ _. split_and!; try done.
    + intros r s Hr. by apply elem_of_nil in Hr.
    + split; [intros ->; split; [done |] | by intros [? _]].
      intros r s Hr. by apply elem_of_nil in Hr.
    + intros e ->. by left.
  - intros Hf [Hr Hnd]%NoDup_cons Hlen. unfold query_t in *.
    change (sample_one (sa, qa, ea) r)
      with (match sa !! r with
            | None => (sa, qa, ea)
            | Some s =>
                match sn_sample s with
                | (s', inl e) => (<[r := s']> sa, qa, Some e)
                | (s', inr q) => (<[r := s']> sa, <[r := q]> qa, ea)
                end
            end) in Hf.
    destruct (sa !! r) as [s |] eqn:Hs.
    + destruct (sn_sample s) as [s' res] eqn:Hsmp.
      set (qa1 := match res with inr q => <[r := q]> qa | inl _ => qa end).
      set (ea1 := match res with inl e => Some e | inr _ => ea end).
      assert (foldl sample_one (<[r := s']> sa, qa1, ea1) reps = (sf, qf, ef))
        as Hf1 by (subst qa1 ea1; by destruct res).
      assert (length qa1 = length qa) as Hlq
        by (subst qa1; destruct res; by rewrite ?length_insert).
      apply IH in Hf1 as ((Hls & Hlqf) & Hout & Hin & Herr & Hexn);
        [| done | by rewrite Hlq, length_insert].
      rewrite length_insert in Hls.
      assert (∀ r', r' ∈ reps → <[r := s']> sa !! r' = sa !! r') as Hsame.
      { intros r' Hr'. apply list_lookup_insert_ne. by intros ->. }
      assert (∀ i, i ≠ r → qa1 !! i = qa !! i) as Hqsame.
      { intros i Hi. subst qa1. destruct res; [done |].
        by apply list_lookup_insert_ne. }
      split_and!.
      * done.
      * congruence.
      * intros i Hi. apply not_elem_of_cons in Hi as [Hir Hi].
        destruct (Hout i Hi) as [Hsf Hqf]. split.
        -- etrans; [exact Hsf |]. by apply list_lookup_insert_ne.
        -- etrans; [exact Hqf |]. by apply Hqsame.
      * intros r' s0 [-> | Hr']%elem_of_cons Hs0.
        -- assert (s0 = s) as -> by congruence. rewrite Hsmp. cbn [fst snd].
           destruct (Hout r Hr) as [Hsf Hqf]. split.
           ++ etrans; [exact Hsf |]. apply list_lookup_insert_eq.
              by eapply lookup_lt_Some.
           ++ etrans; [exact Hqf |]. subst qa1. destruct res; [done |].
              apply list_lookup_insert_eq. rewrite Hlen. by eapply lookup_lt_Some.
        -- destruct (Hin r' s0 Hr') as [Hsf Hqf]; [by rewrite Hsame |].
           split; [done |]. etrans; [exact Hqf |].
           destruct (sn_sample s0).2; [| done].
           apply Hqsame. by intros ->.
      * rewrite Herr. subst ea1. split.
        -- intros [Hea Hall]. destruct res as [e | q]; [done |]. split; [done |].
           intros r' s0 [-> | Hr']%elem_of_cons Hs0.
           ++ assert (s0 = s) as -> by congruence. rewrite Hsmp. by exists q.
           ++ apply (Hall r'); [done | by rewrite Hsame].
        -- intros [-> Hall]. destruct (Hall r s) as [q Hq]; [by left | done |].
           rewrite Hsmp in Hq. simpl in Hq. subst res. split; [done |].
           intros r' s0 Hr' Hs0. apply (Hall r'); [by right |].
           by rewrite <- Hsame.
      * intros e He. destruct (Hexn e He) as [Hea | (r' & s0 & Hr' & Hs0 & He')].
        -- subst ea1. destruct res as [e' | q]; [| by left].
           right. exists r, s. split_and!; [by left | done |].
           rewrite Hsmp. simpl. congruence.
        -- right. exists r', s0. split_and!; [by right | | done].
           by rewrite <- Hsame.
    + apply IH in Hf as ((Hls & Hlqf) & Hout & Hin & Herr & Hexn); [| done | done].
      split_and!.
      * done.
      * done.
      * intros i Hi. apply not_elem_of_cons in Hi as [_ Hi]. by apply Hout.
      * intros r' s0 [-> | Hr']%elem_of_cons Hs0; [congruence | by apply Hin].
      * rewrite Herr. split; intros [Hea Hall]; (split; [done |]).
        -- intros r' s0 [-> | Hr']%elem_of_cons Hs0; [congruence | eauto].
        -- intros r' s0 Hr'. apply Hall. by right.
      * intros e He. destruct (Hexn e He) as [? | (r' & s0 & Hr' & ? & ?)];
          [by left | right].
        exists r', s0. split_and!; [by right | done | done].
Qed.

(** [merge_into] reads the slot of its target and the slots of its sources,
    and no other. *)
Lemma merge_into_agree a bs : ∀ s1 s2 : list Supernode,
  s1 !! a = s2 !! a → (∀ b, b ∈ bs → s1 !! b = s2 !! b) →
  (merge_into s1 a bs).1 !! a = (merge_into s2 a bs).1 !! a
  ∧ (merge_into s1 a bs).2 = (merge_into s2 a bs).2.
Proof.
  induction bs as [| b bs IH]; intros s1 s2 Ha Hbs; simpl; [done |].
  rewrite <- Ha, <- (Hbs b) by (by left).
  destruct (s1 !! a) as [sa |] eqn:Ha1; [| simpl; split; congruence].
  destruct (s1 !! b) as [sb |] eqn:Hb1; [| simpl; split; congruence].
  assert (a < length s1 ∧ a < length s2) as [Hl1 Hl2].
  { split; eapply lookup_lt_Some; [exact Ha1 | by rewrite <- Ha]. }
  destruct (sn_merge sa sb) as [sa' [e |]]; simpl.
  - by rewrite !list_lookup_insert_eq.
  - apply IH.
    + by rewrite !list_lookup_insert_eq.
    + intros b' Hb'. destruct (decide (b' = a)) as [-> | Hne].
      * by rewrite !list_lookup_insert_eq.
      * rewrite !list_lookup_insert_ne by done. apply Hbs. by right.
Qed.

(** The loop of [merge_supernodes] over targets without repetition whose
    sources are no targets, started from any accumulator that agrees with
    [s0] on the slots still to be read. *)
Lemma merge_fold copying tm (s0 : list Supernode) l : ∀ sa ca ea sf cf ef,
  foldl (merge_one copying tm) (sa, ca, ea) l = (sf, cf, ef) →
  NoDup l →
  (∀ a b, a ∈ l → b ∈ at_ [] tm a → at_ [] tm b = []) →
  (∀ i, i ∈ l ∨ at_ [] tm i = [] → sa !! i = s0 !! i) →
  (∀ i, i ∈ l → sf !! i = (merge_into s0 i (at_ [] tm i)).1 !! i)
  ∧ (∀ i, i ∉ l → sf !! i = sa !! i)
  ∧ (ef = None ↔
       ea = None ∧ ∀ a, a ∈ l → (merge_into s0 a (at_ [] tm a)).2 = None)
  ∧ length cf = length ca
  ∧ (∀ i, i ∉ l → cf !! i = ca !! i)
  ∧ (∀ i, i ∈ l →
       cf !! i = if copying
                 then (if decide (i < length ca) then Some (s0 !! i) else None)
                 else ca !! i).
Proof.
  induction l as [| a l IH]; intros sa ca ea sf cf ef; simpl foldl.
  - intros [= <- <- <-] _ _ _. split_and!; try done.
    + intros i Hi. by apply elem_of_nil in Hi.
    + split; [intros ->; split; [done |] | by intros [? _]].
      intros a Ha. by apply elem_of_nil in Ha.
    + intros i Hi. by apply elem_of_nil in Hi.
  - intros Hf [Ha Hnd]%NoDup_cons Hsrc Hagree.
    change (merge_one copying tm (sa, ca, ea) a)
      with (match merge_into sa a (at_ [] tm a) with
            | (sns', Some e) =>
                (sns', if copying then <[a := sa !! a]> ca else ca, Some e)
            | (sns', None) =>
                (sns', if copying then <[a := sa !! a]> ca else ca, ea)
            end) in Hf.
    destruct (merge_into_agree a (at_ [] tm a) sa s0) as [Hslot Herr0].
    { apply Hagree. left. by left. }
    { intros b Hb. apply Hagree. right. apply (Hsrc a); [by left | done]. }
    pose proof (λ j, merge_into_other a (at_ [] tm a) j sa) as Hoth.
    assert (at_ [] tm a = [] → (merge_into sa a (at_ [] tm a)).1 = sa) as Hidle
      by (by intros ->).
    destruct (merge_into sa a (at_ [] tm a)) as [sns' e]. simpl in *.
    set (ca1 := if copying then <[a := sa !! a]> ca else ca) in *.
    set (ea1 := match e with Some e => Some e | None => ea end).
    assert (foldl (merge_one copying tm) (sns', ca1, ea1) l = (sf, cf, ef))
      as Hf1 by (subst ea1; by destruct e).
    assert (length ca1 = length ca) as Hlc
      by (subst ca1; destruct copying; by rewrite ?length_insert).
    apply IH in Hf1 as (Hin & Hout & Herr & Hlcf & Hcout & Hcin); [| done | |].
    2: { intros a' b Ha'. apply Hsrc. by right. }
    2: { intros i Hi. destruct (decide (i = a)) as [-> | Hia].
         - destruct Hi as [? | Hnil]; [done |].
           rewrite (Hidle Hnil). apply Hagree. by right.
         - rewrite Hoth by done. apply Hagree.
           destruct Hi as [? | ?]; [left; by right | by right]. }
    split_and!.
    + intros i [-> | Hi]%elem_of_cons; [| by apply Hin].
      by rewrite (Hout a Ha).
    + intros i Hi. apply not_elem_of_cons in Hi as [Hia Hi].
      rewrite (Hout i Hi). by apply Hoth.
    + rewrite Herr. subst ea1. split.
      * intros [He Hall]. destruct e; [done |]. split; [done |].
        intros a' [-> | ?]%elem_of_cons; [by rewrite <- Herr0 | by apply Hall].
      * intros [-> Hall]. pose proof (Hall a) as Hea. rewrite <- Herr0 in Hea.
        rewrite Hea by (by left). split; [done |].
        intros a' Ha'. apply Hall. by right.
    + congruence.
    + intros i Hi. apply not_elem_of_cons in Hi as [Hia Hi].
      rewrite (Hcout i Hi). subst ca1. destruct copying; [| done].
      by apply list_lookup_insert_ne.
    + intros i [-> | Hi]%elem_of_cons.
      * rewrite (Hcout a Ha). subst ca1. destruct copying; [| done].
        case_decide.
        -- rewrite list_lookup_insert_eq by done. f_equal. apply Hagree.
           left. by left.
        -- apply lookup_ge_None_2. rewrite length_insert. lia.
      * rewrite (Hcin i Hi), Hlc. subst ca1. by destruct copying.
Qed.

End parallel_loops.

Section loop_orders.
Context `{ops : SupernodeOps}.

(** After a planning pass no source of a merge is a target. *)
Lemma planned_sources_are_idle query reps (g g' : Graph) reps' tm a b :
  graph_wf g → supernodes_to_merge query reps g = Some (g', reps', tm) →
  b ∈ at_ [] tm a → at_ [] tm b = [].
Proof.
  intros Hwf Hplan Hb.
  destruct (supernodes_to_merge_lists _ _ _ _ _ _ Hwf Hplan)
    as (st & [_ _ _ _ Htr] & (Hmem & _) & _ & <-).
  destruct (Hmem a b Hb) as (Hr & Hne & _).
  destruct (at_ [] (pl_to_merge st) b) as [| c l] eqn:Hl; [done |].
  destruct Hne. symmetry. eapply root_of_root; [| exact Hr].
  apply Htr. by rewrite Hl.
Qed.

Lemma planned_reps_NoDup query reps (g g' : Graph) reps' tm :
  NoDup reps → supernodes_to_merge query reps g = Some (g', reps', tm) →
  NoDup reps'.
Proof.
  intros Hnd (st & Hst & _ & -> & _)%supernodes_to_merge_Some.
  apply plan_loop_new_reps in Hst. simpl in Hst.
  apply next_reps_NoDup. rewrite Hst. by apply NoDup_filter.
Qed.

Lemma merge_supernodes_perm copies tm mk (g : Graph) l l' :
  NoDup l → l' ≡ₚ l →
  (∀ a b, a ∈ l → b ∈ at_ [] tm a → at_ [] tm b = []) →
  (merge_supernodes copies l' tm mk g).1 = (merge_supernodes copies l tm mk g).1
  ∧ ((merge_supernodes copies l' tm mk g).2 = None
     ↔ (merge_supernodes copies l tm mk g).2 = None).
Proof.
  intros Hnd Hperm Hsrc. unfold merge_supernodes.
  assert (NoDup l') as Hnd' by (by rewrite Hperm).
  set (f := merge_one (mk && copy_in_mem g) tm).
  destruct (foldl f (supernodes g, copies, None) l') as [[s1 c1] e1] eqn:H1.
  destruct (foldl f (supernodes g, copies, None) l) as [[s2 c2] e2] eqn:H2.
  apply (merge_fold _ _ (supernodes g)) in H1
    as (Hin1 & Hout1 & Herr1 & Hlc1 & Hcout1 & Hcin1); [| done | | done].
  2: { intros a b Ha. apply Hsrc. by rewrite <- Hperm. }
  apply (merge_fold _ _ (supernodes g)) in H2
    as (Hin2 & Hout2 & Herr2 & Hlc2 & Hcout2 & Hcin2); [| done..].
  simpl. split.
  - f_equal; apply list_eq; intros i.
    + destruct (decide (i ∈ l)) as [Hi | Hi].
      * rewrite (Hin2 i Hi). apply Hin1. by rewrite Hperm.
      * rewrite (Hout2 i Hi). apply Hout1. by rewrite Hperm.
    + destruct (decide (i ∈ l)) as [Hi | Hi].
      * rewrite (Hcin2 i Hi). apply Hcin1. by rewrite Hperm.
      * rewrite (Hcout2 i Hi). apply Hcout1. by rewrite Hperm.
  - rewrite Herr1, Herr2. split; intros [_ Hall]; (split; [done |]);
      intros a Ha; apply Hall; first [by rewrite Hperm | by rewrite <- Hperm].
Qed.

End loop_orders.

(** X10. [sample_supernodes] on a representative list without repetition:
    the arrays keep their lengths; the slots of [supernodes] and [query]
    outside the list are untouched; for every representative [r], the
    supernode at [r] is the one [sample()] left and [query[r]] is its
    result (or the old entry when that call raised); and an exception is
    reported exactly when one of the calls raised, and is then the exception
    of one of them. *)
Theorem sample_supernodes_samples_each_representative `{ops : SupernodeOps}
    sns query reps :
  NoDup reps → length query = length sns →
  match sample_supernodes sns query reps with
  | (sns', query', err) =>
      (length sns' = length sns ∧ length query' = length query)
      ∧ (∀ i, i ∉ reps → sns' !! i = sns !! i ∧ query' !! i = query !! i)
      ∧ (∀ r s, r ∈ reps → sns !! r = Some s →
           sns' !! r = Some (sn_sample s).1
           ∧ query' !! r = match (sn_sample s).2 with
                           | inr q => Some q
                           | inl _ => query !! r
                           end)
      ∧ (err = None ↔
           ∀ r s, r ∈ reps → sns !! r = Some s → ∃ q, (sn_sample s).2 = inr q)
      ∧ (∀ e, err = Some e →
           ∃ r s, r ∈ reps ∧ sns !! r = Some s ∧ (sn_sample s).2 = inl e)
  end.
Proof.
  intros Hnd Hlen. unfold sample_supernodes.
  destruct (foldl sample_one (sns, query, None) reps) as [[sf qf] ef] eqn:Hf.
  apply sample_fold in Hf as (Hl & Hout & Hin & Herr & Hexn); [| done..].
  split_and!; try done.
  - by destruct Hl.
  - by destruct Hl.
  - rewrite Herr. split; [by intros [_ ?] | by split].
  - intros e He. by destruct (Hexn e He) as [? | ?].
Qed.

Lemma sample_supernodes_samples_each_representative_witness :
  match sample_supernodes (supernodes Demo.path4.2)
          (replicate 4 ((0, 0), ZERO)) [0; 2] with
  | (sns', query', err) =>
      (length sns' = length (supernodes Demo.path4.2)
       ∧ length query' = length (replicate 4 ((0, 0), ZERO)))
      ∧ (∀ i, i ∉ [0; 2] → sns' !! i = supernodes Demo.path4.2 !! i
                            ∧ query' !! i = replicate 4 ((0, 0), ZERO) !! i)
      ∧ (∀ r s, r ∈ [0; 2] → supernodes Demo.path4.2 !! r = Some s →
           sns' !! r = Some (sn_sample s).1
           ∧ query' !! r = match (sn_sample s).2 with
                           | inr q => Some q
                           | inl _ => replicate 4 ((0, 0), ZERO) !! r
                           end)
      ∧ (err = None ↔
           ∀ r s, r ∈ [0; 2] → supernodes Demo.path4.2 !! r = Some s →
                  ∃ q, (sn_sample s).2 = inr q)
      ∧ (∀ e, err = Some e →
           ∃ r s, r ∈ [0; 2] ∧ supernodes Demo.path4.2 !! r = Some s
                  ∧ (sn_sample s).2 = inl e)
  end.
Proof.
  apply (sample_supernodes_samples_each_representative
           (supernodes Demo.path4.2) (replicate 4 ((0, 0), ZERO)) [0; 2]).
  - apply NoDup_cons. split; [by intros [=]%list_elem_of_singleton |].
    apply NoDup_singleton.
  - reflexivity.
Defined.

(** X11. The loop of [sample_supernodes] is an OpenMP parallel loop.  The
    order in which the representatives are taken does not matter: every
    permutation of a list without repetition leaves the same [supernodes]
    and [query] arrays, and raises for the same inputs. *)
Theorem sampling_order_is_irrelevant `{ops : SupernodeOps}
    sns query reps reps' :
  NoDup reps → reps' ≡ₚ reps → length query = length sns →
  (sample_supernodes sns query reps').1 = (sample_supernodes sns query reps).1
  ∧ ((sample_supernodes sns query reps').2 = None
     ↔ (sample_supernodes sns query reps).2 = None).
Proof.
  intros Hnd Hperm Hlen. unfold sample_supernodes.
  assert (NoDup reps') as Hnd' by (by rewrite Hperm).
  destruct (foldl sample_one (sns, query, None) reps') as [[s1 q1] e1] eqn:H1.
  destruct (foldl sample_one (sns, query, None) reps) as [[s2 q2] e2] eqn:H2.
  apply sample_fold in H1 as ((Hl1 & Hq1) & Hout1 & Hin1 & Herr1 & _); [| done..].
  apply sample_fold in H2 as ((Hl2 & Hq2) & Hout2 & Hin2 & Herr2 & _); [| done..].
  unfold query_t in *. simpl. split.
  - f_equal; apply list_eq; intros i.
    + destruct (decide (i ∈ reps)) as [Hi | Hi].
      * destruct (sns !! i) as [s |] eqn:Hs.
        -- destruct (Hin2 i s Hi Hs) as [-> _].
           by destruct (Hin1 i s) as [-> _]; [by rewrite Hperm | |].
        -- apply lookup_ge_None in Hs.
           rewrite !lookup_ge_None_2; [done | lia | lia].
      * destruct (Hout2 i Hi) as [-> _].
        by destruct (Hout1 i) as [-> _]; [by rewrite Hperm |].
    + destruct (decide (i ∈ reps)) as [Hi | Hi].
      * destruct (sns !! i) as [s |] eqn:Hs.
        -- destruct (Hin2 i s Hi Hs) as [_ ->].
           by destruct (Hin1 i s) as [_ ->]; [by rewrite Hperm | |].
        -- apply lookup_ge_None in Hs.
           rewrite !lookup_ge_None_2; [done | lia | lia].
      * destruct (Hout2 i Hi) as [_ ->].
        by destruct (Hout1 i) as [_ ->]; [by rewrite Hperm |].
  - rewrite Herr1, Herr2. split; intros [_ Hall]; (split; [done |]);
      intros r s Hr; apply Hall; first [by rewrite Hperm | by rewrite <- Hperm].
Qed.

Lemma sampling_order_is_irrelevant_witness :
  (sample_supernodes (supernodes Demo.path4.2) (replicate 4 ((0, 0), ZERO))
                     [2; 0; 1]).1
  = (sample_supernodes (supernodes Demo.path4.2) (replicate 4 ((0, 0), ZERO))
                       [0; 1; 2]).1
  ∧ ((sample_supernodes (supernodes Demo.path4.2) (replicate 4 ((0, 0), ZERO))
                        [2; 0; 1]).2 = None
     ↔ (sample_supernodes (supernodes Demo.path4.2) (replicate 4 ((0, 0), ZERO))
                          [0; 1; 2]).2 = None).
Proof.
  apply (sampling_order_is_irrelevant (supernodes Demo.path4.2)
           (replicate 4 ((0, 0), ZERO)) [0; 1; 2] [2; 0; 1]).
  - apply (NoDup_seq 0 3).
  - etrans; [apply Permutation_swap |]. apply perm_skip, Permutation_swap.
  - reflexivity.
Defined.

(** X12. [merge_supernodes] on targets without repetition whose sources
    have empty merge lists: the supernode of a target [a] becomes the
    result of merging, in list order, the supernodes that the sources in
    [to_merge[a]] had when the pass began; the other supernodes are
    untouched; an exception is reported exactly when one of those merges
    raises; and with copying, [copy_supernodes[a]] receives the supernode
    of [a] as it was before the pass. *)
Theorem merge_supernodes_merges_the_originals `{ops : SupernodeOps}
    copies new_reps to_merge make_copy (g : Graph) :
  NoDup new_reps →
  (∀ a b, a ∈ new_reps → b ∈ at_ [] to_merge a → at_ [] to_merge b = []) →
  match merge_supernodes copies new_reps to_merge make_copy g with
  | (sns', copies', err) =>
      (∀ a, a ∈ new_reps →
            sns' !! a = (merge_into (supernodes g) a (at_ [] to_merge a)).1 !! a)
      ∧ (∀ i, i ∉ new_reps → sns' !! i = supernodes g !! i)
      ∧ (err = None ↔
           ∀ a, a ∈ new_reps →
                (merge_into (supernodes g) a (at_ [] to_merge a)).2 = None)
      ∧ (∀ i, i ∉ new_reps → copies' !! i = copies !! i)
      ∧ (∀ a, a ∈ new_reps → a < length copies →
              copies' !! a = if make_copy && copy_in_mem g
                             then Some (supernodes g !! a) else copies !! a)
  end.
Proof.
  intros Hnd Hsrc. unfold merge_supernodes.
  destruct (foldl _ _ new_reps) as [[sf cf] ef] eqn:Hf.
  apply (merge_fold _ _ (supernodes g)) in Hf
    as (Hin & Hout & Herr & _ & Hcout & Hcin); [| done..].
  split_and!; try done.
  - rewrite Herr. split; [by intros [_ ?] | by split].
  - intros a Ha Hlt. rewrite (Hcin a Ha). by rewrite decide_True.
Qed.

Lemma merge_supernodes_merges_the_originals_witness :
  let g := Demo.path4.2 in
  let to_merge := [[1]; []; [3]; []] in
  match merge_supernodes (replicate 4 None) [0; 2] to_merge true g with
  | (sns', copies', err) =>
      (∀ a, a ∈ [0; 2] →
            sns' !! a = (merge_into (supernodes g) a (at_ [] to_merge a)).1 !! a)
      ∧ (∀ i, i ∉ [0; 2] → sns' !! i = supernodes g !! i)
      ∧ (err = None ↔
           ∀ a, a ∈ [0; 2] →
                (merge_into (supernodes g) a (at_ [] to_merge a)).2 = None)
      ∧ (∀ i, i ∉ [0; 2] → copies' !! i = replicate 4 None !! i)
      ∧ (∀ a, a ∈ [0; 2] → a < 4 →
              copies' !! a = if true && copy_in_mem g
                             then Some (supernodes g !! a)
                             else replicate 4 None !! a)
  end.
Proof.
  apply (merge_supernodes_merges_the_originals (replicate 4 None) [0; 2]
           [[1]; []; [3]; []] true Demo.path4.2).
  - apply NoDup_cons. split; [by intros [=]%list_elem_of_singleton |].
    apply NoDup_singleton.
  - intros a b [-> | [-> | []%elem_of_nil]%elem_of_cons]%elem_of_cons;
      intros [-> | []%elem_of_nil]%elem_of_cons; reflexivity.
Defined.

(** X13. The loop of [merge_supernodes] is an OpenMP parallel loop.
    After a planning pass on a representative list without repetition, the
    order in which the new representatives are taken does not matter:
    every permutation leaves the same supernodes and the same clones, and
    raises for the same inputs. *)
Theorem merge_order_is_irrelevant_after_planning `{ops : SupernodeOps}
    query reps (g g1 : Graph) reps1 to_merge copies make_copy l :
  graph_wf g → NoDup reps →
  supernodes_to_merge query reps g = Some (g1, reps1, to_merge) →
  l ≡ₚ reps1 →
  (merge_supernodes copies l to_merge make_copy g1).1
  = (merge_supernodes copies reps1 to_merge make_copy g1).1
  ∧ ((merge_supernodes copies l to_merge make_copy g1).2 = None
     ↔ (merge_supernodes copies reps1 to_merge make_copy g1).2 = None).
Proof.
  intros Hwf Hnd Hplan Hperm. apply merge_supernodes_perm; [| done |].
  - by eapply planned_reps_NoDup.
  - intros a b _. by eapply planned_sources_are_idle.
Qed.

Lemma merge_order_is_irrelevant_after_planning_witness :
  let g1 := set_modified true
              (set_size [2; 1; 2; 1] (set_parent [0; 0; 2; 2] Demo.path4.2)) in
  let to_merge := [[1]; []; [3]; []] in
  (merge_supernodes (replicate 4 None) [2; 0] to_merge true g1).1
  = (merge_supernodes (replicate 4 None) [0; 2] to_merge true g1).1
  ∧ ((merge_supernodes (replicate 4 None) [2; 0] to_merge true g1).2 = None
     ↔ (merge_supernodes (replicate 4 None) [0; 2] to_merge true g1).2 = None).
Proof.
  apply (merge_order_is_irrelevant_after_planning
           [((0, 1), GOOD); ((0, 1), GOOD); ((2, 3), GOOD); ((2, 3), GOOD)]
           [0; 1; 2; 3] Demo.path4.2
           (set_modified true
              (set_size [2; 1; 2; 1] (set_parent [0; 0; 2; 2] Demo.path4.2)))
           [0; 2] [[1]; []; [3]; []] (replicate 4 None) true [2; 0]).
  - repeat split; reflexivity.
  - apply (NoDup_seq 0 4).
  - reflexivity.
  - apply Permutation_swap.
Defined.

(** ** The backup file *)

(** X14. [backup_to_disk] followed by [restore_from_disk] with the same
    id list, on a disk that can be written, where the record of a listed
    supernode [s] reads back as [stored s] (a record does not hold all of
    a supernode: not its sampling cursor, which the supernodes that a
    query backs up have advanced).  Both calls succeed; every listed
    supernode is then [stored] of the one that was backed up, whatever
    was done to the array in between; the other supernodes are as they
    were before the restore; and nothing else of the graph changes. *)
Theorem restore_reads_back_the_backup `{ops : SupernodeOps}
    (stored : Supernode → Supernode) ids w (g g2 : Graph) :
  read_only w = false →
  (∀ i, i ∈ ids →
        ∃ s, supernodes g !! i = Some s
             ∧ ∀ rest, sn_read (num_nodes g) (seed g) (sn_write s ++ rest)
                       = (stored s, rest)) →
  num_nodes g2 = num_nodes g → seed g2 = seed g →
  backup_file g2 = backup_file g →
  length (supernodes g2) = length (supernodes g) →
  ∃ w1 g3,
    backup_to_disk ids w g = Some w1
    ∧ restore_from_disk ids w1 g2 = Some g3
    ∧ (∀ i, i ∈ ids → supernodes g3 !! i = stored <$> supernodes g !! i)
    ∧ (∀ i, i ∉ ids → supernodes g3 !! i = supernodes g2 !! i)
    ∧ g3 = set_supernodes (supernodes g3) g2.
Proof.
  intros Hro Hids Hn Hsd Hbf Hlen.
  destruct (restore_fold (num_nodes g) (seed g) stored (supernodes g) ids
              (supernodes g2) []) as (sf & Hf & _ & Hin & Hout).
  { intros i Hi. destruct (Hids i Hi) as (s & Hs & Hread). split; [| eauto].
    rewrite Hlen. by eapply lookup_lt_Some. }
  rewrite app_nil_r in Hf.
  unfold backup_to_disk, restore_from_disk. rewrite Hro.
  eexists _, (set_supernodes sf g2). split; [done |]. cbn [files set_files].
  by rewrite Hbf, lookup_insert_eq, Hn, Hsd, Hf.
Qed.

(** The graph of [Demo.path4_disk] at the two calls of a resumable query:
    [backup_to_disk] in round one, after sampling and planning, and
    [restore_from_disk] after the merge of round one. *)
Lemma restore_reads_back_the_backup_witness :
  let g := Demo.path4_disk.2 in
  let ids := snapshot_ids g in
  let g1 :=
    set_supernodes
      (sample_supernodes (supernodes g) (replicate 4 ((0, 0), ZERO)) (seq 0 4)).1.1
      g in
  let g2 :=
    (after_rounds true 1
       (Demo.path4_disk.1,
        set_size (replicate 4 1) (set_update_locked true g),
        init_driver true (set_update_locked true g))).1.2 in
  ∃ w1 g3,
    backup_to_disk ids Demo.path4_disk.1 g1 = Some w1
    ∧ restore_from_disk ids w1 g2 = Some g3
    ∧ (∀ i, i ∈ ids →
            supernodes g3 !! i = sn_reset_query_state <$> supernodes g1 !! i)
    ∧ (∀ i, i ∉ ids → supernodes g3 !! i = supernodes g2 !! i)
    ∧ g3 = set_supernodes (supernodes g3) g2.
Proof.
  apply (restore_reads_back_the_backup sn_reset_query_state
           (snapshot_ids Demo.path4_disk.2) Demo.path4_disk.1
           (set_supernodes
              (sample_supernodes (supernodes Demo.path4_disk.2)
                 (replicate 4 ((0, 0), ZERO)) (seq 0 4)).1.1
              Demo.path4_disk.2)
           (after_rounds true 1
              (Demo.path4_disk.1,
               set_size (replicate 4 1) (set_update_locked true Demo.path4_disk.2),
               init_driver true (set_update_locked true Demo.path4_disk.2))).1.2);
    try reflexivity.
  intros i Hi.
  assert (snapshot_ids Demo.path4_disk.2 = [0; 2]) as Hids by reflexivity.
  rewrite Hids in Hi. clear Hids.
  apply elem_of_cons in Hi as [Hi | Hi].
  2: apply elem_of_cons in Hi as [Hi | Hi]; [| by apply elem_of_nil in Hi].
  all: subst i.
  - exists (Sketches.mkSn 4 7 [0%Z] 1). split; [reflexivity |].
    intros rest. reflexivity.
  - exists (Sketches.mkSn 4 7 [5%Z; 2%Z] 1). split; [reflexivity |].
    intros rest. reflexivity.
Defined.

(** These two states, written out: the listed supernodes have
    been sampled when they are backed up and merged when they are
    restored. *)
Example backup_and_restore_in_round_one :
  let g := Demo.path4_disk.2 in
  let g1 :=
    set_supernodes
      (sample_supernodes (supernodes g) (replicate 4 ((0, 0), ZERO)) (seq 0 4)).1.1
      g in
  let g2 :=
    (after_rounds true 1
       (Demo.path4_disk.1,
        set_size (replicate 4 1) (set_update_locked true g),
        init_driver true (set_update_locked true g))).1.2 in
  snapshot_ids g = [0; 2]
  ∧ supernodes g1 !! 0 = Some (Sketches.mkSn 4 7 [0%Z] 1)
  ∧ supernodes g2 !! 0 = Some (Sketches.mkSn 4 7 [2%Z] 1)
  ∧ supernodes g1 !! 2 = Some (Sketches.mkSn 4 7 [5%Z; 2%Z] 1)
  ∧ supernodes g2 !! 2 = Some (Sketches.mkSn 4 7 [2%Z] 1).
Proof. vm_compute. by repeat split. Qed.

(** ** The order of the returned sets *)

Section set_order.
Import DSU.

Lemma omap_filter_index {A B} (f : A → option B) (P : A → Prop)
    `{∀ x, Decision (P x)} (l : list A) :
  (∀ x, x ∈ l → (P x ↔ is_Some (f x))) →
  length (omap f l) = length (filter P l)
  ∧ ∀ j x, filter P l !! j = Some x →
           ∃ y, omap f l !! j = Some y ∧ f x = Some y.
Proof.
  induction l as [| x l IH]; intros Hl; [done |].
  destruct IH as [IHlen IHidx]; [intros y Hy; apply Hl; by right |].
  cbn [omap list_omap]. rewrite filter_cons.
  destruct (decide (P x)) as [HP | HP].
  - destruct (proj1 (Hl x ltac:(by left)) HP) as [y Hy]. rewrite Hy.
    split; [simpl; by rewrite IHlen |].
    intros [| j] x'; simpl; [intros [= <-]; eauto | apply IHidx].
  - destruct (f x) as [y |] eqn:Hy; [| done].
    destruct HP. apply Hl; [by left | eauto].
Qed.

Lemma components_order n (p p' : list nat) sets :
  length p = n → dsu_wf p = true → components n p = Some (p', sets) →
  let roots := filter (λ r, p !! r = Some r) (seq 0 n) in
  length sets = length roots
  ∧ ∀ j r, roots !! j = Some r →
           ∃ S, sets !! j = Some S ∧ ∀ v, v ∈ S ↔ v < n ∧ root_of p v r.
Proof.
  intros Hlen Hwf Hcomp. cbv zeta.
  destruct (group_fold (seq 0 n) p ∅ Hwf) as (p1 & temp & Hf & Hk & Ht).
  { intros i Hi%elem_of_seq. lia. }
  unfold components in Hcomp. rewrite Hf in Hcomp. simpl in Hcomp.
  injection Hcomp as <- <-.
  assert (∀ r S, temp !! r = Some S →
                 ∀ v, v ∈ S ↔ v < n ∧ root_of p v r) as Hmem.
  { intros r S. rewrite Ht, lookup_empty.
    pose proof (list_elem_of_filter (λ i, find (length p) p i = Some r) (seq 0 n))
      as Hfilt.
    destruct (filter _ (seq 0 n)) as [| i js]; [done |].
    intros [= <-] v. clear Ht. set_unfold.
    rewrite <- find_root_of. specialize (Hfilt v). split.
    - intros [Hv | []]. apply Hfilt in Hv as [? [_ ?]]. done.
    - intros [? ?]. left. apply Hfilt. split; [done | lia]. }
  destruct (omap_filter_index (λ r, temp !! r) (λ r, p !! r = Some r) (seq 0 n))
    as [Hl Hidx].
  { intros r Hr%elem_of_seq. rewrite Ht, lookup_empty. split.
    - intros Hroot.
      assert (r ∈ filter (λ i, find (length p) p i = Some r) (seq 0 n)) as Hin.
      { apply list_elem_of_filter. split.
        - apply find_root_of. exists 0. by constructor.
        - apply elem_of_seq. lia. }
      destruct (filter _ (seq 0 n)) as [| i js]; [by apply elem_of_nil in Hin |].
      eauto.
    - destruct (filter _ (seq 0 n)) as [| i js] eqn:Hfl; [by intros [? [=]] |].
      intros _.
      assert (i ∈ filter (λ i, find (length p) p i = Some r) (seq 0 n)) as Hin
        by (rewrite Hfl; by left).
      apply list_elem_of_filter in Hin as [[k Hd]%find_root_of _].
      by eapply dist_root_is_root. }
  split; [done |]. intros j r Hj.
  destruct (Hidx j r Hj) as (S & HS & Hr). exists S. split; [done |].
  by apply Hmem.
Qed.

End set_order.

(** ** The returned list: order and cardinalities *)

Section returned_order.
Context `{ops : SupernodeOps}.
Import DSU.

Lemma same_roots (p p' : list nat) r :
  roots_kept p p' → dsu_wf p = true → p' !! r = Some r ↔ p !! r = Some r.
Proof.
  intros Hk Hwf. split; [by eapply root_was_root | by eapply is_root_kept].
Qed.

Lemma class_size_set (p : list nat) r (S : gset nat) :
  (∀ v, v ∈ S ↔ v < length p ∧ root_of p v r) → base.size S = class_size p r.
Proof.
  intros HS. unfold class_size.
  rewrite <- (size_list_to_set (C := gset nat)) by apply NoDup_filter, NoDup_seq.
  f_equal. apply set_eq. intros v.
  rewrite elem_of_list_to_set, list_elem_of_filter, find_root_of, elem_of_seq, HS.
  split; [intros [? ?] | intros [? [_ ?]]]; split_and!; try done; lia.
Qed.

End returned_order.

(** X15. The order of the returned list.  A query on a well-formed graph
    whose loop ends normally returns a list, with one set per root of the
    forest, in ascending order of the roots: the [j]-th set is the class
    of the [j]-th smallest root (the iteration order of the [std::map]
    keyed by [get_parent(i)]). *)
Theorem returned_sets_come_in_root_order `{ops : SupernodeOps}
    fuel make_copy w (g : Graph) :
  graph_wf g →
  (boruvka_loop fuel make_copy w
     (set_size (replicate (num_nodes g) 1) (set_update_locked true g))
     (init_driver make_copy (set_update_locked true g))).2 = Returned () →
  ∃ w' g' d' ret,
    boruvka_emulation fuel make_copy w g = (w', g', d', Returned ret)
    ∧ let roots := filter (λ r, parent g' !! r = Some r) (seq 0 (num_nodes g)) in
      length ret = length roots
      ∧ ∀ j r, roots !! j = Some r →
               ∃ S, ret !! j = Some S
                    ∧ ∀ v, v ∈ S ↔ v < num_nodes g ∧ DSU.root_of (parent g') v r.
Proof.
  intros Hwf Hloop.
  destruct (boruvka_loop _ _ _ _ _) as [[[w1 g1] d1] r1] eqn:Hl.
  simpl in Hloop. subst r1.
  destruct (boruvka_emulation_returns _ _ _ _ _ _ _ _ Hwf Hl)
    as (Hwf1 & Hn1 & p' & ret & g' & Hcomp & Hcl & Hem).
  exists w1, g', d1, ret. split; [done |]. cbv zeta.
  destruct Hwf1 as (_ & Hpl & _ & Hpw).
  destruct (components_spec (num_nodes g1) (parent g1) Hpl Hpw)
    as (p'' & sets & Hcomp' & Hk & _ & _).
  rewrite Hcomp in Hcomp'. injection Hcomp' as <- <-.
  destruct (components_order _ _ _ _ Hpl Hpw Hcomp) as [Hlen Hidx].
  apply cleanup_copy_fields in Hcl as [sns ->].
  cbn [parent set_supernodes set_parent]. rewrite <- Hn1.
  rewrite (list_filter_iff _ (λ r, parent g1 !! r = Some r));
    [| intros r; by apply same_roots].
  split; [done |]. intros j r Hj. destruct (Hidx j r Hj) as (S & HS & Hmem).
  exists S. split; [done |]. intros v. rewrite Hmem. split.
  - intros [? ?]. split; [done |]. by apply Hk.
  - intros [? ?]. split; [done |]. by eapply roots_kept_back.
Qed.

Lemma returned_sets_come_in_root_order_witness :
  ∃ w' g' d' ret,
    boruvka_emulation 10 false Demo.split4.1 Demo.split4.2
    = (w', g', d', Returned ret)
    ∧ let roots := filter (λ r, parent g' !! r = Some r) (seq 0 4) in
      length ret = length roots
      ∧ ∀ j r, roots !! j = Some r →
               ∃ S, ret !! j = Some S
                    ∧ ∀ v, v ∈ S ↔ v < 4 ∧ DSU.root_of (parent g') v r.
Proof.
  apply (returned_sets_come_in_root_order 10 false Demo.split4.1 Demo.split4.2).
  - repeat split; reflexivity.
  - reflexivity.
Defined.

(** X16. Union by size uses exact sizes.  In a query on a graph whose
    forest is the identity (a new graph, or one that a resumable query has
    reset), [size[r]] of every root [r] is the number of vertices whose
    root is [r] when the query ends, whichever way it ends (cut off after
    any number of rounds included); for a query that returns, every
    returned set has the cardinality [size[r]] of its root. *)
Theorem sizes_are_class_sizes_in_a_query `{ops : SupernodeOps}
    fuel make_copy w (g : Graph) :
  graph_wf g → parent g = DSU.identity (num_nodes g) →
  match boruvka_emulation fuel make_copy w g with
  | (_, g', _, r) =>
      sizes_exact (parent g') (size g')
      ∧ match r with
        | Returned ret =>
            ∀ j S, ret !! j = Some S →
                   ∃ r, r ∈ S ∧ parent g' !! r = Some r
                        ∧ at_ 0 (size g') r = base.size S
        | _ => True
        end
  end.
Proof.
  intros Hwf Hid.
  pose proof (boruvka_emulation_sizes fuel make_copy w g Hwf Hid) as Hsz.
  pose proof (boruvka_emulation_returned fuel make_copy w g Hwf) as Hret.
  pose proof (boruvka_emulation_wf fuel make_copy w g Hwf) as Hwf'.
  destruct (boruvka_emulation _ _ _ _) as [[[w1 g1] d1] r1]. simpl in Hsz.
  split; [done |]. destruct r1 as [ret | | | |]; try done.
  destruct Hret as (Hn & _ & Hgrp). destruct Hwf' as (_ & Hpl & _).
  intros j S Hj. destruct (Hgrp j S Hj) as (r & Hr & Hmem). exists r.
  assert (parent g1 !! r = Some r) as Hroot.
  { apply Hmem in Hr as [_ [k Hd]]. by eapply dist_root_is_root. }
  split_and!; try done. rewrite (Hsz r Hroot). symmetry. apply class_size_set.
  intros v. rewrite Hmem. by rewrite Hpl, Hn.
Qed.

Lemma sizes_are_class_sizes_in_a_query_witness :
  match boruvka_emulation 10 false Demo.split4.1 Demo.split4.2 with
  | (_, g', _, r) =>
      sizes_exact (parent g') (size g')
      ∧ match r with
        | Returned ret =>
            ∀ j S, ret !! j = Some S →
                   ∃ r, r ∈ S ∧ parent g' !! r = Some r
                        ∧ at_ 0 (size g') r = base.size S
        | _ => True
        end
  end.
Proof.
  apply (sizes_are_class_sizes_in_a_query 10 false Demo.split4.1 Demo.split4.2).
  - repeat split; reflexivity.
  - reflexivity.
Defined.

(** ** What a query does to the world *)

Section world_facts.
Context `{ops : SupernodeOps}.

Lemma set_files_id (w : World) : set_files (files w) w = w.
Proof. by destruct w. Qed.

(** A round writes at most the backup file. *)
Lemma boruvka_round_world mk w (g : Graph) d w' g' d' r :
  boruvka_round mk w g d = (w', g', d', r) →
  (∃ fs, w' = set_files fs w)
  ∧ (mk && negb (copy_in_mem g) = false → w' = w ∧ r ≠ Exited).
Proof.
  intros Hr.
  pose proof (boruvka_round_cases _ _ _ _ _ _ _ _ Hr)
    as (sns & query & err & Hs & Hcases).
  simpl in Hcases.
  assert (∃ fs, w = set_files fs w) as Hid by (exists (files w); by rewrite set_files_id).
  destruct Hcases as
    [(e & -> & -> & -> & -> & ->)
    | [(-> & Hp & -> & -> & -> & ->)
      | (-> & g1 & reps & tm & Hp & Hrest)]]; try done.
  apply supernodes_to_merge_Some in Hp as (st & _ & Hg1 & _ & _).
  assert (copy_in_mem g1 = copy_in_mem g) as Hc by by subst g1.
  rewrite Hc in Hrest.
  destruct Hrest as
    [(Hb & _ & -> & -> & -> & ->)
    | (Hw & sns2 & copies & err2 & _ & -> & Hend)].
  - split; [done |]. intros Hmk.
    apply andb_prop in Hb as [[-> _]%andb_prop Hb]. simpl in Hmk. congruence.
  - assert (r ≠ Exited) as Hne.
    { by destruct Hend as [(e & _ & -> & _) | (_ & -> & _)]. }
    destruct (mk && dr_first_round d && negb (copy_in_mem g)) eqn:Hb.
    + unfold backup_to_disk in Hw. destruct (read_only w); [done |].
      injection Hw as <-. split; [eauto |]. intros Hmk.
      apply andb_prop in Hb as [[-> _]%andb_prop Hb]. simpl in Hmk. congruence.
    + injection Hw as <-. by split.
Qed.

Lemma boruvka_loop_world fuel mk : ∀ w (g : Graph) d w' g' d' r,
  boruvka_loop fuel mk w g d = (w', g', d', r) →
  (∃ fs, w' = set_files fs w)
  ∧ (mk && negb (copy_in_mem g) = false → w' = w ∧ r ≠ Exited).
Proof.
  induction fuel as [| fuel IH]; intros w g d w' g' d' r; simpl.
  - intros [= <- <- <- <-]. split; [| done].
    exists (files w). by rewrite set_files_id.
  - destruct (boruvka_round mk w g d) as [[[w1 g1] d1] r1] eqn:Hr.
    pose proof (boruvka_round_frame _ _ _ _ _ _ _ _ Hr) as [(_ & _ & _ & Hc & _) _].
    apply boruvka_round_world in Hr as [[fs1 ->] Hno].
    destruct r1 as [[] | | | |]; try (intros [= <- <- <- <-]; split; [eauto |];
      intros Hmk; destruct (Hno Hmk); split; congruence).
    intros Hloop. apply IH in Hloop as [[fs2 ->] Hno2]. split.
    + exists fs2. by destruct w.
    + intros Hmk. destruct (Hno Hmk) as [Hw _]. rewrite Hc in Hno2.
      destruct (Hno2 Hmk) as [-> ?]. by split.
Qed.

Lemma boruvka_emulation_world fuel mk w (g : Graph) :
  match boruvka_emulation fuel mk w g with
  | (w', g', _, r) =>
      (∃ fs, w' = set_files fs w)
      ∧ (mk && negb (copy_in_mem g) = false → w' = w ∧ r ≠ Exited)
  end.
Proof.
  unfold boruvka_emulation.
  destruct (boruvka_loop _ _ _ _ _) as [[[w1 g1] d1] r1] eqn:Hloop.
  pose proof (boruvka_loop_frame _ _ _ _ _ _ _ _ _ Hloop)
    as [(_ & _ & _ & Hc & _) _].
  apply boruvka_loop_world in Hloop as [Hfs Hno]. simpl in Hc, Hno.
  destruct (finish_query mk (w1, g1, d1, r1)) as [[[w2 g2] d2] r2] eqn:Hfin.
  pose proof Hfin as Hfin'.
  apply finish_query_cases in Hfin as (-> & -> & Hcases & _).
  split; [done |]. intros Hmk. destruct (Hno Hmk) as [-> Hne]. split; [done |].
  intros ->. unfold finish_query in Hfin'.
  assert (∀ g0, copy_in_mem g0 = copy_in_mem g →
                cleanup_copy mk w g0 d1 ≠ None) as Hclean.
  { intros g0 Hg0. unfold cleanup_copy. destruct mk; [| done].
    rewrite Hg0. simpl in Hmk. by destruct (copy_in_mem g). }
  destruct r1 as [[] | e | | |]; try done.
  - destruct (components _ _) as [[p' ret] |]; [| done].
    destruct (cleanup_copy mk w (set_parent p' g1) d1) eqn:Hcl; [done |].
    by apply Hclean in Hcl.
  - destruct (cleanup_copy mk w g1 d1) eqn:Hcl; [done |].
    by apply Hclean in Hcl.
Qed.

Lemma boruvka_emulation_config fuel mk w (g : Graph) :
  match boruvka_emulation fuel mk w g with
  | (_, g', _, _) =>
      seed g' = seed g ∧ copy_in_mem g' = copy_in_mem g
      ∧ backup_file g' = backup_file g
  end.
Proof.
  unfold boruvka_emulation, finish_query.
  destruct (boruvka_loop _ _ _ _ _) as [[[w1 g1] d1] r1] eqn:Hloop.
  apply boruvka_loop_frame in Hloop as [(_ & Hs & _ & Hc & Hb) _].
  simpl in Hs, Hc, Hb.
  destruct r1 as [[] | e | | |]; try done.
  - destruct (components _ _) as [[p' sets] |]; [| done].
    destruct (cleanup_copy _ _ _ _) as [g2 |] eqn:Hcl; [| done].
    by apply cleanup_copy_fields in Hcl as [sns ->].
  - destruct (cleanup_copy _ _ _ _) as [g2 |] eqn:Hcl; [| done].
    by apply cleanup_copy_fields in Hcl as [sns ->].
Qed.

(** No call changes [open_graph], [num_nodes], [seed], [copy_in_mem] or
    [backup_file]. *)
Lemma run_call_frame nb vb (wg : World * Graph) c :
  open_graph (run_call nb vb wg c).1 = open_graph wg.1
  ∧ num_nodes (run_call nb vb wg c).2 = num_nodes wg.2
  ∧ seed (run_call nb vb wg c).2 = seed wg.2
  ∧ copy_in_mem (run_call nb vb wg c).2 = copy_in_mem wg.2
  ∧ backup_file (run_call nb vb wg c).2 = backup_file wg.2.
Proof.
  destruct wg as [w g]. destruct c as [src edges | fuel cont | path]; simpl.
  - split; [done |]. unfold batch_update. destruct (update_locked g); [done |].
    by destruct (supernodes g !! src).
  - unfold connected_components.
    pose proof (boruvka_emulation_world fuel (negb (negb cont)) (drain w) g) as Hw.
    pose proof (boruvka_emulation_frame fuel (negb (negb cont)) (drain w) g) as Hf.
    pose proof (boruvka_emulation_config fuel (negb (negb cont)) (drain w) g) as Hg.
    destruct cont; simpl in *;
      destruct (boruvka_emulation _ _ _ _) as [[[w1 g1] d1] r1];
      destruct Hw as [[fs ->] _]; destruct Hf as (_ & Hn & _);
      destruct Hg as (Hs & Hc & Hb); [| done].
    assert (let g2 := foldl reset_one g1 (seq 0 (num_nodes g1)) in
            num_nodes g2 = num_nodes g1 ∧ seed g2 = seed g1
            ∧ copy_in_mem g2 = copy_in_mem g1 ∧ backup_file g2 = backup_file g1)
      as (? & ? & ? & ?).
    { apply (foldl_invariant
               (λ g2, num_nodes g2 = num_nodes g1 ∧ seed g2 = seed g1
                      ∧ copy_in_mem g2 = copy_in_mem g1
                      ∧ backup_file g2 = backup_file g1)); [done |].
      by intros g2 i Hg2 _. }
    destruct r1; simpl; split_and!; try done; congruence.
  - split; [| done]. unfold write_binary, write_file. simpl.
    by destruct (read_only w).
Qed.

Lemma run_calls_frame nb vb calls : ∀ wg : World * Graph,
  open_graph (foldl (run_call nb vb) wg calls).1 = open_graph wg.1
  ∧ num_nodes (foldl (run_call nb vb) wg calls).2 = num_nodes wg.2
  ∧ seed (foldl (run_call nb vb) wg calls).2 = seed wg.2
  ∧ copy_in_mem (foldl (run_call nb vb) wg calls).2 = copy_in_mem wg.2
  ∧ backup_file (foldl (run_call nb vb) wg calls).2 = backup_file wg.2.
Proof.
  induction calls as [| c calls IH]; intros wg; simpl; [done |].
  destruct (IH (run_call nb vb wg c)) as (-> & -> & -> & -> & ->).
  apply run_call_frame.
Qed.

Lemma constructed_open nb vb w w1 (g : Graph) :
  (∃ n sd, new_graph n sd w = (w1, Returned g))
  ∨ (∃ path, load_binary nb vb path w = (w1, Returned g)) →
  open_graph w1 = true ∧ graph_wf g.
Proof.
  intros [(n & sd & Hnew) | (path & Hload)].
  - split; [| by eapply new_graph_wf]. unfold new_graph in Hnew.
    destruct (open_graph w); [done |]. by injection Hnew as <- _.
  - split; [| by eapply load_binary_wf]. unfold load_binary in Hload.
    destruct (open_graph w); [done |].
    destruct (files w !! path) as [bs |]; [| done].
    destruct (Bin.read_le 8 bs) as [[sd bs1] |]; [| done].
    destruct (Bin.read_le nb bs1) as [[n bs2] |]; [| done].
    destruct (Bin.read_le vb bs2) as [[ff bs3] |]; [| done].
    by injection Hload as <- _.
Qed.

(** A call other than a resumable query leaves paused workers paused. *)
Lemma run_call_keeps_pause nb vb (wg : World * Graph) c :
  resumable_query c = false →
  (workers_paused wg.1 = true ∨ ∀ src edges, c ≠ BatchUpdate src edges) →
  workers_paused (run_call nb vb wg c).1 = true.
Proof.
  destruct wg as [w g]. destruct c as [src edges | fuel [|] | path]; simpl;
    intros Hc Hp; try done.
  - destruct Hp as [? | Hp]; [done |]. by destruct (Hp src edges).
  - unfold connected_components. simpl.
    pose proof (boruvka_emulation_frame fuel false (drain w) g) as Hf.
    destruct (boruvka_emulation _ _ _ _) as [[[w1 g1] d1] r1]. simpl.
    by destruct Hf as (_ & _ & ->).
  - unfold write_binary, write_file. simpl. by destruct (read_only w).
Qed.

End world_facts.

(** X17. A non-resumable [connected_components], however it ends (by
    returning, by an exception of a supernode, or without an answer),
    leaves [update_locked] set, so that every later [batch_update] throws
    [UpdateLockedException] and changes nothing; it leaves the workers
    paused, changes nothing else outside the graph (no file is written),
    and it never ends the process. *)
Theorem in_place_query_leaves_graph_locked `{ops : SupernodeOps}
    fuel w (g : Graph) :
  match connected_components fuel false w g with
  | (w', g', r) =>
      update_locked g' = true
      ∧ (∀ src edges,
           batch_update src edges g' = (g', Threw UpdateLockedException))
      ∧ w' = set_workers_paused true w
      ∧ r ≠ Exited
  end.
Proof.
  unfold connected_components. simpl.
  pose proof (boruvka_emulation_frame fuel false (drain w) g) as Hf.
  pose proof (boruvka_emulation_world fuel false (drain w) g) as Hw.
  destruct (boruvka_emulation _ _ _ _) as [[[w1 g1] d1] r1].
  destruct Hf as (Hl & _). destruct Hw as [_ Hw]. destruct Hw as [-> Hne]; [done |].
  split_and!; try done. intros src edges. by apply batch_update_locked.
Qed.

(** X18. With [copy_in_mem] set, a query neither writes nor reads a
    backup file, and it never ends the process with [exit]: the files are
    the same afterwards. *)
Theorem in_memory_snapshot_never_touches_the_disk `{ops : SupernodeOps}
    fuel cont w (g : Graph) :
  copy_in_mem g = true →
  match connected_components fuel cont w g with
  | (w', _, r) =>
      files w' = files w ∧ read_only w' = read_only w
      ∧ open_graph w' = open_graph w ∧ r ≠ Exited
  end.
Proof.
  intros Hc. unfold connected_components.
  pose proof (boruvka_emulation_world fuel (negb (negb cont)) (drain w) g) as Hw.
  destruct cont; simpl in *;
    destruct (boruvka_emulation _ _ _ _) as [[[w1 g1] d1] r1];
    destruct Hw as [_ Hw]; (destruct Hw as [-> Hne]; [by rewrite ?Hc |]);
    [| done].
  by destruct r1.
Qed.

Lemma in_memory_snapshot_never_touches_the_disk_witness :
  match connected_components 10 true Demo.path4.1 Demo.path4.2 with
  | (w', _, r) =>
      files w' = files Demo.path4.1 ∧ read_only w' = read_only Demo.path4.1
      ∧ open_graph w' = open_graph Demo.path4.1 ∧ r ≠ Exited
  end.
Proof.
  apply (in_memory_snapshot_never_touches_the_disk 10 true
           Demo.path4.1 Demo.path4.2).
  reflexivity.
Defined.

(** X19. Only one graph at a time.  Once a constructor has returned,
    and after any sequence of [batch_update], [connected_components] and
    [write_binary] calls on the graph, both constructors throw
    [MultipleGraphsException] and change nothing; after the destructor
    has run, a graph can be constructed again. *)
Theorem one_graph_at_a_time `{ops : SupernodeOps}
    nb vb w w1 (g : Graph) calls :
  (∃ n sd, new_graph n sd w = (w1, Returned g))
  ∨ (∃ path, load_binary nb vb path w = (w1, Returned g)) →
  let w2 := (foldl (run_call nb vb) (w1, g) calls).1 in
  (∀ n sd, new_graph n sd w2 = (w2, Threw MultipleGraphsException))
  ∧ (∀ path, load_binary nb vb path w2 = (w2, Threw MultipleGraphsException))
  ∧ (∀ n sd, ∃ w3 g3, new_graph n sd (destroy w2) = (w3, Returned g3)).
Proof.
  intros [Hopen _]%constructed_open. cbv zeta.
  destruct (run_calls_frame nb vb calls (w1, g)) as [Ho _]. simpl in Ho.
  rewrite Hopen in Ho. split_and!.
  - intros n sd. unfold new_graph. by rewrite Ho.
  - intros path. unfold load_binary. by rewrite Ho.
  - intros n sd. unfold new_graph, destroy. simpl. eauto.
Qed.

Lemma one_graph_at_a_time_witness :
  let g := mkGraph (ops := Sketches.ops Sketches.ideal) 4 7
             (replicate 4 (Sketches.mkSn 4 7 [] 0)) [0; 1; 2; 3] [1; 1; 1; 1]
             false false true "/tmp/supernode_backup.data" in
  let w2 := (foldl (run_call 4 8) (Demo.path4.1, g)
               [BatchUpdate 0 [1]; Query 10 true; WriteBinary "/tmp/g.bin"]).1 in
  (∀ n sd, new_graph (ops := Sketches.ops Sketches.ideal) n sd w2
           = (w2, Threw MultipleGraphsException))
  ∧ (∀ path, load_binary (ops := Sketches.ops Sketches.ideal) 4 8 path w2
             = (w2, Threw MultipleGraphsException))
  ∧ (∀ n sd, ∃ w3 g3, new_graph (ops := Sketches.ops Sketches.ideal) n sd
                        (destroy w2) = (w3, Returned g3)).
Proof.
  apply (one_graph_at_a_time (ops := Sketches.ops Sketches.ideal) 4 8
           Demo.world Demo.path4.1).
  left. exists 4, 7%Z. reflexivity.
Defined.

(** X20. The invariant that the theorems on a query assume holds in
    every state that the public interface reaches: a graph that a
    constructor returned has arrays of [num_nodes] slots and a forest for
    [parent], and so has the graph after any sequence of [batch_update],
    [connected_components] and [write_binary] calls, whichever way they
    end; [num_nodes], [seed], [copy_in_mem] and [backup_file] never
    change. *)
Theorem constructed_graph_stays_well_formed `{ops : SupernodeOps}
    nb vb w w1 (g : Graph) calls :
  (∃ n sd, new_graph n sd w = (w1, Returned g))
  ∨ (∃ path, load_binary nb vb path w = (w1, Returned g)) →
  let g' := (foldl (run_call nb vb) (w1, g) calls).2 in
  graph_wf g'
  ∧ num_nodes g' = num_nodes g ∧ seed g' = seed g
  ∧ copy_in_mem g' = copy_in_mem g ∧ backup_file g' = backup_file g.
Proof.
  intros [_ Hwf]%constructed_open. cbv zeta. split.
  - by apply (run_calls_wf nb vb calls (w1, g)).
  - by destruct (run_calls_frame nb vb calls (w1, g)) as [_ ?].
Qed.

Lemma constructed_graph_stays_well_formed_witness :
  let g := mkGraph (ops := Sketches.ops Sketches.ideal) 4 7
             (replicate 4 (Sketches.mkSn 4 7 [] 0)) [0; 1; 2; 3] [1; 1; 1; 1]
             false false true "/tmp/supernode_backup.data" in
  let g' := (foldl (run_call 4 8) (Demo.path4.1, g)
               [BatchUpdate 0 [1]; BatchUpdate 1 [0]; Query 10 false;
                WriteBinary "/tmp/g.bin"; Query 10 true]).2 in
  graph_wf g'
  ∧ num_nodes g' = num_nodes g ∧ seed g' = seed g
  ∧ copy_in_mem g' = copy_in_mem g ∧ backup_file g' = backup_file g.
Proof.
  apply (constructed_graph_stays_well_formed (ops := Sketches.ops Sketches.ideal)
           4 8 Demo.world Demo.path4.1).
  left. exists 4, 7%Z. reflexivity.
Defined.

(** X21. [write_binary] and a non-resumable [connected_components]
    pause the workers and do not resume them: after either call the
    workers stay paused through every later call until a resumable
    [connected_components] runs. *)
Theorem workers_stay_paused_until_resumable_query `{ops : SupernodeOps}
    nb vb (wg : World * Graph) c calls :
  resumable_query c = false → (∀ src edges, c ≠ BatchUpdate src edges) →
  forallb (λ c, negb (resumable_query c)) calls = true →
  workers_paused (run_call nb vb wg c).1 = true
  ∧ workers_paused (foldl (run_call nb vb) (run_call nb vb wg c) calls).1 = true.
Proof.
  intros Hc Hnb Hcalls.
  assert (workers_paused (run_call nb vb wg c).1 = true) as Hp.
  { apply run_call_keeps_pause; [done | by right]. }
  split; [done |]. revert Hcalls Hp. generalize (run_call nb vb wg c).
  induction calls as [| c' calls IH]; intros wg'; simpl; [done |].
  intros [Hc' Hcalls]%andb_prop Hp. apply IH; [done |].
  apply run_call_keeps_pause; [by destruct (resumable_query c') | by left].
Qed.

Lemma workers_stay_paused_until_resumable_query_witness :
  workers_paused (run_call 4 8 Demo.path4 (WriteBinary "/tmp/g.bin")).1 = true
  ∧ workers_paused
      (foldl (run_call 4 8) (run_call 4 8 Demo.path4 (WriteBinary "/tmp/g.bin"))
             [BatchUpdate 0 [1]; Query 10 false]).1 = true.
Proof.
  apply (workers_stay_paused_until_resumable_query 4 8 Demo.path4
           (WriteBinary "/tmp/g.bin") [BatchUpdate 0 [1]; Query 10 false]).
  - reflexivity.
  - by intros src edges [=].
  - reflexivity.
Defined.

(** ** The resumable query against the in-place query *)

Section both_modes.
Context `{ops : SupernodeOps}.

(** Cloning does not change what is merged. *)
Lemma merge_fold_modes tm c1 c2 l : ∀ (sa : list Supernode) ca1 ca2 ea,
  (foldl (merge_one c1 tm) (sa, ca1, ea) l).1.1
  = (foldl (merge_one c2 tm) (sa, ca2, ea) l).1.1
  ∧ (foldl (merge_one c1 tm) (sa, ca1, ea) l).2
    = (foldl (merge_one c2 tm) (sa, ca2, ea) l).2.
Proof.
  induction l as [| a l IH]; intros sa ca1 ca2 ea; simpl; [done |].
  destruct (merge_into sa a (at_ [] tm a)) as [sns' [e |]]; apply IH.
Qed.

(** One round of the two modes, from the same graph and the same
    representatives. *)
Lemma boruvka_round_modes w (g : Graph) d1 d2 :
  copy_in_mem g = true →
  dr_reps d1 = dr_reps d2 → dr_query d1 = dr_query d2 →
  match boruvka_round true w g d1, boruvka_round false w g d2 with
  | (w1, g1, d1', r1), (w2, g2, d2', r2) =>
      w1 = w ∧ w2 = w ∧ g1 = g2 ∧ r1 = r2
      ∧ dr_reps d1' = dr_reps d2' ∧ dr_query d1' = dr_query d2'
  end.
Proof.
  intros Hc Hreps Hquery. unfold boruvka_round. simpl.
  rewrite Hreps, Hquery.
  destruct (sample_supernodes _ _ _) as [[sns query] [e |]]; [done |].
  destruct (supernodes_to_merge _ _ _) as [[[g1 reps] tm] |] eqn:Hp; [| done].
  assert (copy_in_mem g1 = true) as Hc1.
  { apply supernodes_to_merge_Some in Hp as (st & _ & -> & _ & _). done. }
  rewrite Hc1, andb_false_r. cbn [negb andb].
  unfold merge_supernodes.
  destruct (merge_fold_modes tm (dr_first_round d1 && true && copy_in_mem g1)
              (dr_first_round d2 && false && copy_in_mem g1) reps
              (supernodes g1) (dr_copy d1) (dr_copy d2) None) as [Hs He].
  destruct (foldl (merge_one (dr_first_round d1 && true && copy_in_mem g1) tm) _ _)
    as [[s1 c1] e1].
  destruct (foldl (merge_one (dr_first_round d2 && false && copy_in_mem g1) tm) _ _)
    as [[s2 c2] e2].
  simpl in Hs, He. subst s2 e2. by destruct e1.
Qed.

Lemma boruvka_loop_modes fuel : ∀ w (g : Graph) d1 d2,
  copy_in_mem g = true →
  dr_reps d1 = dr_reps d2 → dr_query d1 = dr_query d2 →
  match boruvka_loop fuel true w g d1, boruvka_loop fuel false w g d2 with
  | (w1, g1, d1', r1), (w2, g2, d2', r2) =>
      w1 = w ∧ w2 = w ∧ g1 = g2 ∧ r1 = r2 ∧ copy_in_mem g1 = true
  end.
Proof.
  induction fuel as [| fuel IH]; intros w g d1 d2 Hc Hreps Hquery; simpl; [done |].
  pose proof (boruvka_round_modes w g d1 d2 Hc Hreps Hquery) as Hr.
  destruct (boruvka_round true w g d1) as [[[w1 g1] d1'] r1] eqn:Hr1.
  destruct (boruvka_round false w g d2) as [[[w2 g2] d2'] r2].
  destruct Hr as (-> & -> & <- & <- & Hreps' & Hquery').
  apply boruvka_round_frame in Hr1 as [(_ & _ & _ & Hc1 & _) _].
  rewrite Hc in Hc1.
  destruct r1 as [[] | | | |]; try done. by apply IH.
Qed.

Lemma boruvka_emulation_modes fuel w (g : Graph) :
  copy_in_mem g = true →
  (boruvka_emulation fuel true w g).2 = (boruvka_emulation fuel false w g).2.
Proof.
  intros Hc. unfold boruvka_emulation.
  change (num_nodes (set_update_locked true g)) with (num_nodes g).
  pose proof (boruvka_loop_modes fuel w
                (set_size (replicate (num_nodes g) 1) (set_update_locked true g))
                (init_driver true (set_update_locked true g))
                (init_driver false (set_update_locked true g)) Hc eq_refl eq_refl)
    as Hl.
  destruct (boruvka_loop fuel true _ _ _) as [[[w1 g1] d1] r1].
  destruct (boruvka_loop fuel false _ _ _) as [[[w2 g2] d2] r2].
  destruct Hl as (-> & -> & <- & <- & Hc1).
  unfold finish_query, cleanup_copy. destruct r1 as [[] | e | | |]; try done.
  - destruct (components _ _) as [[p' ret] |]; [| done]. simpl. by rewrite Hc1.
  - by rewrite Hc1.
Qed.

End both_modes.

(** X22. With the clones in memory, the resumable and the non-resumable
    [connected_components] end alike on the same graph: one returns a list
    exactly when the other does, and it is the same list; one ends by an
    exception exactly when the other does (which exception the parallel
    loops leave in [err] is not compared); one runs for ever or runs into
    an undefined [get_parent] exactly when the other does; and neither
    ends the process.  (They differ in the state they leave behind.) *)
Theorem resumable_query_answers_like_in_place_query `{ops : SupernodeOps}
    fuel w (g : Graph) :
  copy_in_mem g = true →
  let r1 := (connected_components fuel true w g).2 in
  let r2 := (connected_components fuel false w g).2 in
  (∀ ret, r1 = Returned ret ↔ r2 = Returned ret)
  ∧ ((∃ e, r1 = Threw e) ↔ (∃ e, r2 = Threw e))
  ∧ (r1 = OutOfFuel ↔ r2 = OutOfFuel)
  ∧ (r1 = Undefined ↔ r2 = Undefined)
  ∧ r1 ≠ Exited ∧ r2 ≠ Exited.
Proof.
  intros Hc. cbv zeta.
  assert ((connected_components fuel true w g).2
          = (connected_components fuel false w g).2) as Heq.
  { unfold connected_components. simpl.
    pose proof (boruvka_emulation_modes fuel (drain w) g Hc) as H.
    destruct (boruvka_emulation fuel true _ _) as [[[w1 g1] d1] r1].
    destruct (boruvka_emulation fuel false _ _) as [[[w2 g2] d2] r2].
    simpl in H. subst r2. by destruct r1. }
  rewrite Heq. split_and!; try done.
  - unfold connected_components. simpl.
    pose proof (boruvka_emulation_world fuel false (drain w) g) as Hw.
    destruct (boruvka_emulation fuel false _ _) as [[[w2 g2] d2] r2].
    destruct Hw as [_ Hw]. simpl. by destruct (Hw eq_refl).
  - unfold connected_components. simpl.
    pose proof (boruvka_emulation_world fuel false (drain w) g) as Hw.
    destruct (boruvka_emulation fuel false _ _) as [[[w2 g2] d2] r2].
    destruct Hw as [_ Hw]. simpl. by destruct (Hw eq_refl).
Qed.

Lemma resumable_query_answers_like_in_place_query_witness :
  (let r1 := (connected_components 10 true Demo.split4.1 Demo.split4.2).2 in
   let r2 := (connected_components 10 false Demo.split4.1 Demo.split4.2).2 in
   (∀ ret, r1 = Returned ret ↔ r2 = Returned ret)
   ∧ ((∃ e, r1 = Threw e) ↔ (∃ e, r2 = Threw e))
   ∧ (r1 = OutOfFuel ↔ r2 = OutOfFuel)
   ∧ (r1 = Undefined ↔ r2 = Undefined)
   ∧ r1 ≠ Exited ∧ r2 ≠ Exited)
  ∧ (let r1 := (connected_components 10 true
                  Demo.edge2_broken.1 Demo.edge2_broken.2).2 in
     let r2 := (connected_components 10 false
                  Demo.edge2_broken.1 Demo.edge2_broken.2).2 in
     (∀ ret, r1 = Returned ret ↔ r2 = Returned ret)
     ∧ ((∃ e, r1 = Threw e) ↔ (∃ e, r2 = Threw e))
     ∧ (r1 = OutOfFuel ↔ r2 = OutOfFuel)
     ∧ (r1 = Undefined ↔ r2 = Undefined)
     ∧ r1 ≠ Exited ∧ r2 ≠ Exited).
Proof.
  split.
  - apply (resumable_query_answers_like_in_place_query 10
             Demo.split4.1 Demo.split4.2).
    reflexivity.
  - apply (resumable_query_answers_like_in_place_query 10
             Demo.edge2_broken.1 Demo.edge2_broken.2).
    reflexivity.
Defined.

Section disk_mode.
Context `{ops : SupernodeOps}.

(** One round of the two modes with the snapshot on a disk that can be
    written: the same graph and the same result; and once the first round
    is over, the backup file exists. *)
Lemma boruvka_round_disk w1 w2 (g : Graph) d1 d2 :
  copy_in_mem g = false → read_only w1 = false →
  dr_reps d1 = dr_reps d2 → dr_query d1 = dr_query d2 →
  (dr_first_round d1 = false → is_Some (files w1 !! backup_file g)) →
  match boruvka_round true w1 g d1, boruvka_round false w2 g d2 with
  | (w1', g1, d1', r1), (w2', g2, d2', r2) =>
      w2' = w2 ∧ g1 = g2 ∧ r1 = r2 ∧ read_only w1' = false
      ∧ dr_reps d1' = dr_reps d2' ∧ dr_query d1' = dr_query d2'
      ∧ (dr_first_round d1' = false → is_Some (files w1' !! backup_file g))
  end.
Proof.
  intros Hc Hro Hreps Hquery Hfile. unfold boruvka_round. simpl.
  rewrite Hreps, Hquery.
  destruct (sample_supernodes _ _ _) as [[sns query] [e |]]; [done |].
  destruct (supernodes_to_merge _ _ _) as [[[g1 reps] tm] |] eqn:Hp; [| done].
  assert (copy_in_mem g1 = false ∧ backup_file g1 = backup_file g) as [Hc1 Hb1].
  { apply supernodes_to_merge_Some in Hp as (st & _ & -> & _ & _). done. }
  unfold merge_supernodes. rewrite Hc1, !andb_false_r. cbn [negb].
  rewrite !andb_true_r.
  destruct (merge_fold_modes tm false false reps (supernodes g1)
              (dr_copy d1) (dr_copy d2) None) as [Hs He].
  destruct (foldl (merge_one false tm) (supernodes g1, dr_copy d1, None) reps)
    as [[s1 c1] e1].
  destruct (foldl (merge_one false tm) (supernodes g1, dr_copy d2, None) reps)
    as [[s2 c2] e2].
  simpl in Hs, He. subst s2 e2.
  destruct (dr_first_round d1) eqn:Hfr; cbn [andb].
  - unfold backup_to_disk. rewrite Hro.
    assert (is_Some (<[backup_file g1 :=
                         concat (map sn_write (omap (λ idx, supernodes g1 !! idx) reps))]>
                       (files w1) !! backup_file g)) as Hsome.
    { rewrite Hb1, lookup_insert_eq. eauto. }
    destruct e1; split_and!; try done; by intros _.
  - destruct e1; split_and!; try done; by intros _; apply Hfile.
Qed.

Lemma boruvka_loop_disk fuel : ∀ w1 w2 (g : Graph) d1 d2,
  copy_in_mem g = false → read_only w1 = false →
  dr_reps d1 = dr_reps d2 → dr_query d1 = dr_query d2 →
  (dr_first_round d1 = false → is_Some (files w1 !! backup_file g)) →
  match boruvka_loop fuel true w1 g d1, boruvka_loop fuel false w2 g d2 with
  | (w1', g1, d1', r1), (w2', g2, d2', r2) =>
      g1 = g2 ∧ r1 = r2 ∧ copy_in_mem g1 = false
      ∧ backup_file g1 = backup_file g
      ∧ (∀ u, r1 = Returned u → is_Some (files w1' !! backup_file g))
  end.
Proof.
  induction fuel as [| fuel IH]; intros w1 w2 g d1 d2 Hc Hro Hreps Hquery Hfile;
    simpl; [done |].
  pose proof (boruvka_round_disk w1 w2 g d1 d2 Hc Hro Hreps Hquery Hfile) as Hr.
  destruct (boruvka_round true w1 g d1) as [[[w1' g1] d1'] r1] eqn:Hr1.
  destruct (boruvka_round false w2 g d2) as [[[w2' g2] d2'] r2].
  destruct Hr as (-> & <- & <- & Hro' & Hreps' & Hquery' & Hfile').
  pose proof (boruvka_round_frame _ _ _ _ _ _ _ _ Hr1) as [(_ & _ & _ & Hc1 & Hb1) _].
  assert (∀ b, r1 = Returned b → dr_first_round d1' = false) as Hdone.
  { intros b ->.
    apply boruvka_round_cases in Hr1 as (? & ? & ? & _ & Hcases).
    destruct Hcases as
      [(? & _ & [=] & _)
      | [(_ & _ & [=] & _)
        | (_ & ? & ? & ? & _ & [(_ & _ & [=] & _)
                               | (_ & ? & ? & ? & _ & _ & [(? & _ & [=] & _)
                                                           | (_ & _ & ->)])])]].
    done. }
  assert (copy_in_mem g1 = false) as Hcg1 by congruence.
  destruct r1 as [[] | | | |]; try (by split_and!).
  - assert (dr_first_round d1' = false → is_Some (files w1' !! backup_file g1))
      as Hf1 by (rewrite Hb1; exact Hfile').
    pose proof (IH w1' w2 g1 d1' d2' Hcg1 Hro' Hreps' Hquery' Hf1) as IH'.
    destruct (boruvka_loop fuel true w1' g1 d1') as [[[w3 g3] d3] r3].
    destruct (boruvka_loop fuel false w2 g1 d2') as [[[w4 g4] d4] r4].
    destruct IH' as (? & ? & ? & Hb3 & Hf3). rewrite Hb1 in Hb3, Hf3.
    by split_and!.
  - split_and!; try done. intros u _. apply Hfile'. by eapply Hdone.
Qed.

End disk_mode.

(** X23. With the snapshot on a disk that can be written, the resumable
    [connected_components] returns a partition exactly when the
    non-resumable one does on the same graph, and it is the same
    partition: by the time the loop has ended, the backup file has been
    written, so that [cleanup_copy] can restore from it. *)
Theorem snapshot_on_disk_returns_the_same_partition `{ops : SupernodeOps}
    fuel w (g : Graph) ret :
  copy_in_mem g = false → read_only w = false →
  (connected_components fuel true w g).2 = Returned ret
  ↔ (connected_components fuel false w g).2 = Returned ret.
Proof.
  intros Hc Hro. unfold connected_components, boruvka_emulation. simpl.
  change (num_nodes (set_update_locked true g)) with (num_nodes g).
  pose proof (boruvka_loop_disk fuel (drain w) (drain w)
                (set_size (replicate (num_nodes g) 1) (set_update_locked true g))
                (init_driver true (set_update_locked true g))
                (init_driver false (set_update_locked true g)) Hc Hro
                eq_refl eq_refl) as Hl.
  destruct (boruvka_loop fuel true _ _ _) as [[[w1 g1] d1] r1].
  destruct (boruvka_loop fuel false _ _ _) as [[[w2 g2] d2] r2].
  destruct Hl as (<- & <- & Hc1 & Hb1 & Hfile); [done |].
  unfold finish_query, cleanup_copy. destruct r1 as [[] | e | | |]; try done.
  - destruct (components _ _) as [[p' sets] |]; [| done].
    cbn [copy_in_mem set_parent]. rewrite Hc1. unfold restore_from_disk.
    cbn [backup_file set_parent]. rewrite Hb1.
    destruct (Hfile () eq_refl) as [bs ->]. done.
  - rewrite Hc1. unfold restore_from_disk. rewrite Hb1.
    destruct (files w1 !! _); done.
Qed.

Lemma snapshot_on_disk_returns_the_same_partition_witness :
  (connected_components 10 true Demo.path4_disk.1 Demo.path4_disk.2).2
  = Returned [list_to_set [0; 1; 2; 3]]
  ↔ (connected_components 10 false Demo.path4_disk.1 Demo.path4_disk.2).2
    = Returned [list_to_set [0; 1; 2; 3]].
Proof.
  apply (snapshot_on_disk_returns_the_same_partition 10
           Demo.path4_disk.1 Demo.path4_disk.2).
  - reflexivity.
  - reflexivity.
Defined.

(** ** The ways a query ends the process *)

Section exits.
Context `{ops : SupernodeOps}.

Lemma boruvka_round_sampling_raised mk w (g : Graph) d sns query e :
  sample_supernodes (supernodes g) (dr_query d) (dr_reps d) = (sns, query, Some e) →
  boruvka_round mk w g d
  = (w, set_supernodes sns (set_modified false g),
     mkDriver (dr_reps d) query (dr_backed_up d) (dr_copy d) (dr_first_round d),
     Threw e).
Proof. intros Hs. unfold boruvka_round. simpl. by rewrite Hs. Qed.

Lemma boruvka_round_backup_failed w (g : Graph) d sns query g1 reps tm :
  sample_supernodes (supernodes g) (dr_query d) (dr_reps d) = (sns, query, None) →
  supernodes_to_merge query (dr_reps d) (set_supernodes sns (set_modified false g))
  = Some (g1, reps, tm) →
  dr_first_round d = true → copy_in_mem g = false → read_only w = true →
  (boruvka_round true w g d).2 = Exited.
Proof.
  intros Hs Hp Hfr Hc Hro. unfold boruvka_round. simpl. rewrite Hs.
  cbn [dr_reps]. rewrite Hp. cbn [dr_first_round]. rewrite Hfr.
  assert (copy_in_mem g1 = false) as ->.
  { apply supernodes_to_merge_Some in Hp as (st & _ & -> & _ & _). done. }
  simpl. unfold backup_to_disk. by rewrite Hro.
Qed.

End exits.

(** X24. A resumable query with the snapshot on disk, when a supernode
    raises in the first sampling pass and no backup file exists yet: the
    [catch] block calls [cleanup_copy], which calls [restore_from_disk]
    with an empty id list, which cannot open the file and ends the process
    with [exit(EXIT_FAILURE)]; the exception is not rethrown. *)
Theorem failed_first_sampling_exits_without_backup_file `{ops : SupernodeOps}
    fuel w (g : Graph) e :
  copy_in_mem g = false → files w !! backup_file g = None →
  (sample_supernodes (supernodes g) (replicate (num_nodes g) ((0, 0), ZERO))
                     (seq 0 (num_nodes g))).2 = Some e →
  (connected_components (S fuel) true w g).2 = Exited.
Proof.
  intros Hc Hfile Hs. unfold connected_components, boruvka_emulation.
  change (negb true) with false. cbv iota.
  change (num_nodes (set_update_locked true g)) with (num_nodes g).
  destruct (sample_supernodes _ _ _) as [[sns query] err] eqn:Hsmp.
  simpl in Hs. subst err. cbn [boruvka_loop].
  rewrite (boruvka_round_sampling_raised _ _ _ _ sns query e) by exact Hsmp.
  cbn [finish_query]. unfold cleanup_copy. cbn [copy_in_mem set_supernodes
    set_modified set_size set_update_locked]. rewrite Hc.
  unfold restore_from_disk.
  cbn [backup_file files drain set_workers_paused set_supernodes
       set_modified set_size set_update_locked].
  by rewrite Hfile.
Qed.

Lemma failed_first_sampling_exits_without_backup_file_witness :
  let wg := Demo.build Sketches.broken 2 7 Demo.disk_world [(0, [1]); (1, [0])] in
  (connected_components 5 true wg.1 wg.2).2 = Exited.
Proof.
  apply (failed_first_sampling_exits_without_backup_file 4
           (Demo.build Sketches.broken 2 7 Demo.disk_world [(0, [1]); (1, [0])]).1
           (Demo.build Sketches.broken 2 7 Demo.disk_world [(0, [1]); (1, [0])]).2
           NoGoodBucketException).
  - reflexivity.
  - reflexivity.
  - reflexivity.
Defined.

(** X25. A resumable query with the snapshot on disk, when the backup
    file cannot be opened for writing: once the first sampling and
    planning passes have gone through, [backup_to_disk] ends the process
    with [exit(EXIT_FAILURE)]. *)
Theorem unwritable_backup_file_ends_the_process `{ops : SupernodeOps}
    fuel w (g : Graph) :
  copy_in_mem g = false → read_only w = true →
  is_Some (first_round_plan g) →
  (connected_components (S fuel) true w g).2 = Exited.
Proof.
  intros Hc Hro [[sns reps] Hplan]. unfold connected_components, boruvka_emulation.
  change (negb true) with false. cbv iota.
  change (num_nodes (set_update_locked true g)) with (num_nodes g).
  unfold first_round_plan in Hplan.
  destruct (sample_supernodes _ _ _) as [[sns' query] [e |]] eqn:Hsmp; [done |].
  destruct (supernodes_to_merge _ _ _) as [[[g1 reps'] tm] |] eqn:Hp; [| done].
  cbn [boruvka_loop].
  pose proof (boruvka_round_backup_failed (drain w)
                (set_size (replicate (num_nodes g) 1) (set_update_locked true g))
                (init_driver true (set_update_locked true g))
                sns' query g1 reps' tm Hsmp Hp eq_refl Hc Hro) as Hr.
  destruct (boruvka_round _ _ _ _) as [[[w1 g2] d1] r1]. simpl in Hr. by subst r1.
Qed.

Lemma unwritable_backup_file_ends_the_process_witness :
  (connected_components 10 true (mkWorld true false 100 ∅ true false "/tmp/")
     Demo.path4_disk.2).2 = Exited.
Proof.
  apply (unwritable_backup_file_ends_the_process 9
           (mkWorld true false 100 ∅ true false "/tmp/") Demo.path4_disk.2).
  - reflexivity.
  - reflexivity.
  - destruct (first_round_plan Demo.path4_disk.2) as [x |] eqn:Hplan; [by exists x |].
    vm_compute in Hplan. discriminate Hplan.
Defined.
